(** * smart-tools / json-tools: the [JSONProcessor] engine

    A shallow embedding of the class [JSONProcessor] of json-tools, in its
    full version ([src/unnamed/part_001], with the diff, schema and
    path-query entry points) and, where the two differ, in the earlier
    version of [json-tools/src/utils/jsonProcessor.ts], together with the
    ECMAScript built-ins the class rests on: strings as sequences of UTF-16
    code units, binary64 numbers, [JSON.parse], [JSON.stringify],
    ordinary-object property order, [try]/[catch]. *)

From Stdlib Require Import List ZArith NArith Lia Bool Ascii String Arith Sorted.
Import ListNotations.

Local Open Scope string_scope.
Local Open Scope list_scope.
Local Open Scope Z_scope.

(* ================================================================= *)
(** ** Strings *)

(** A JavaScript string is a sequence of UTF-16 code units; [length] counts
    code units. *)
Definition codeunit := N.
Definition jsstring := list codeunit.

Definition cu (a : ascii) : codeunit := N_of_ascii a.
Arguments cu a%_char.

(** Embedding of an ASCII literal. *)
Definition str (s : string) : jsstring := map cu (list_ascii_of_string s).
Arguments str s%_string.

(** The double quote. *)
Definition dquote : codeunit := 34%N.

(** An ASCII literal in which every apostrophe stands for a double quote. *)
Definition js (s : string) : jsstring :=
  map (fun a => if Ascii.eqb a "'" then dquote else cu a) (list_ascii_of_string s).
Arguments js s%_string.

Definition cu_eqb (a b : codeunit) : bool := N.eqb a b.
Arguments cu_eqb (a b)%_N.

Fixpoint jsstring_eqb (a b : jsstring) : bool :=
  match a, b with
  | [], [] => true
  | x :: a', y :: b' => cu_eqb x y && jsstring_eqb a' b'
  | _, _ => false
  end.

(** The order of [Array.prototype.sort] without a comparator and of [<] on
    strings: lexicographic on code units. *)
Fixpoint jsstring_ltb (a b : jsstring) : bool :=
  match a, b with
  | _, [] => false
  | [], _ :: _ => true
  | x :: a', y :: b' => N.ltb x y || (N.eqb x y && jsstring_ltb a' b')
  end.

Fixpoint insert_sorted (k : jsstring) (l : list jsstring) : list jsstring :=
  match l with
  | [] => [k]
  | x :: r => if jsstring_ltb x k then x :: insert_sorted k r else k :: l
  end.

(** [keys.sort()] on an array of strings. *)
Definition sort_strings (l : list jsstring) : list jsstring :=
  fold_right insert_sorted [] l.

(** [prefix] stripped from the front of [s], when [s] starts with it. *)
Fixpoint strip_prefix (prefix s : jsstring) : option jsstring :=
  match prefix, s with
  | [], _ => Some s
  | p :: prefix', c :: s' => if cu_eqb p c then strip_prefix prefix' s' else None
  | _ :: _, [] => None
  end.

(** [s.split(sep)] for a one-character separator: never empty. *)
Fixpoint split_on (sep : codeunit) (s : jsstring) : list jsstring :=
  match s with
  | [] => [[]]
  | c :: r =>
      if cu_eqb c sep then [] :: split_on sep r
      else match split_on sep r with
           | [] => [[c]]
           | w :: ws => (c :: w) :: ws
           end
  end.

(** [parts.join(sep)]. *)
Fixpoint join (sep : jsstring) (parts : list jsstring) : jsstring :=
  match parts with
  | [] => []
  | [p] => p
  | p :: ps => p ++ sep ++ join sep ps
  end.

(** [s.substring(0, n)]: the end is clamped to the length. *)
Definition substring0 (n : nat) (s : jsstring) : jsstring := firstn n s.

(** [str.repeat(n)]. *)
Fixpoint repeat_string (s : jsstring) (n : nat) : jsstring :=
  match n with
  | O => []
  | S n' => s ++ repeat_string s n'
  end.

Definition is_digit (c : codeunit) : bool := (48 <=? c)%N && (c <=? 57)%N.

Definition digit_value (c : codeunit) : Z := Z.of_N c - 48.

(** The integer written by a run of decimal digits. *)
Definition digits_value (ds : jsstring) : Z :=
  fold_left (fun acc c => 10 * acc + digit_value c) ds 0.

Definition digit_char (d : Z) : codeunit := Z.to_N (48 + d).

Fixpoint digits_of_fuel (fuel : nat) (n : Z) (acc : jsstring) : jsstring :=
  match fuel with
  | O => acc
  | S f =>
      let acc' := digit_char (n mod 10) :: acc in
      if n <? 10 then acc' else digits_of_fuel f (n / 10) acc'
  end.

(** Decimal digits of a non-negative integer, without leading zeros. *)
Definition digits_of (n : Z) : jsstring :=
  digits_of_fuel (S (Z.to_nat (Z.log2 n))) n [].

(** [parseInt(ds)] on a run of decimal digits, as the natural number written.
    (The code only compares the result with array and string lengths, on
    which the rounding to binary64 of a literal above 2^53 has no effect.) *)
Definition parseInt (ds : jsstring) : nat := Z.to_nat (digits_value ds).

(* ================================================================= *)
(** ** Numbers *)

(** The Number values [JSON.parse] can produce: IEEE 754 binary64 without NaN.
    [NFinite neg m e] is [(-1)^neg * m * 2^e], kept canonical: either
    [2^52 <= m < 2^53] and [-1074 <= e <= 971], or [m < 2^52] and
    [e = -1074]. *)
Inductive number : Type :=
| NZero (neg : bool)
| NFinite (neg : bool) (m : positive) (e : Z)
| NInfinity (neg : bool).

(** Nearest integer to [p / q], ties to even ([q > 0]). *)
Definition round_half_even (p q : Z) : Z :=
  let f := p / q in
  match (2 * (p mod q)) ?= q with
  | Lt => f
  | Gt => f + 1
  | Eq => if Z.even f then f else f + 1
  end.

(** [floor (log2 (p / q))] for positive [p], [q]. *)
Definition floor_log2_ratio (p q : Z) : Z :=
  let l := Z.log2 p - Z.log2 q in
  if (if 0 <=? l then q * 2 ^ l <=? p else q <=? p * 2 ^ (- l)) then l else l - 1.

(** The binary64 value nearest to the rational [p / q] ([p >= 0], [q > 0]),
    round-to-nearest, ties-to-even, with overflow to infinity. *)
Definition round_binary64 (neg : bool) (p q : Z) : number :=
  if p =? 0 then NZero neg
  else
    let e := Z.max (floor_log2_ratio p q - 52) (-1074) in
    let m := if 0 <=? e then round_half_even p (q * 2 ^ e)
             else round_half_even (p * 2 ^ (- e)) q in
    let '(m, e) := if m =? 2 ^ 53 then (2 ^ 52, e + 1) else (m, e) in
    if m =? 0 then NZero neg
    else if 971 <? e then NInfinity neg
    else NFinite neg (Z.to_pos m) e.

Definition number_of_nat (n : nat) : number := round_binary64 false (Z.of_nat n) 1.

Definition number_eqb (a b : number) : bool :=
  match a, b with
  | NZero s, NZero t => Bool.eqb s t
  | NFinite s m e, NFinite t n f => Bool.eqb s t && Pos.eqb m n && Z.eqb e f
  | NInfinity s, NInfinity t => Bool.eqb s t
  | _, _ => false
  end.

(** The value [d * 10^e10] as a fraction. *)
Definition decimal_fraction (d e10 : Z) : Z * Z :=
  if 0 <=? e10 then (d * 10 ^ e10, 1) else (d, 10 ^ (- e10)).

Definition number_of_decimal (neg : bool) (d e10 : Z) : number :=
  let '(p, q) := decimal_fraction d e10 in round_binary64 neg p q.

(** *** Number literals of the JSON grammar: an optional minus sign; an
    integer part, either a single 0 or a non-zero digit followed by digits;
    an optional fraction, a point and at least one digit; an optional
    exponent, e or E, an optional sign and at least one digit. *)

Fixpoint span_digits (s : jsstring) : jsstring * jsstring :=
  match s with
  | c :: r => if is_digit c then let '(ds, r') := span_digits r in (c :: ds, r')
              else ([], s)
  | [] => ([], [])
  end.

Definition lex_sign (s : jsstring) : bool * jsstring :=
  match s with
  | c :: r => if cu_eqb c (cu "-") then (true, r) else (false, s)
  | [] => (false, s)
  end.

Definition lex_int (s : jsstring) : option (jsstring * jsstring) :=
  let '(ds, r) := span_digits s in
  match ds with
  | [] => None
  | d :: ds' =>
      if cu_eqb d (cu "0") then
        match ds' with [] => Some (ds, r) | _ :: _ => None end
      else Some (ds, r)
  end.

Definition lex_frac (s : jsstring) : option (jsstring * jsstring) :=
  match s with
  | c :: r =>
      if cu_eqb c (cu ".") then
        let '(ds, r') := span_digits r in
        match ds with [] => None | _ :: _ => Some (ds, r') end
      else Some ([], s)
  | [] => Some ([], s)
  end.

Definition lex_exp (s : jsstring) : option (Z * jsstring) :=
  match s with
  | c :: r =>
      if cu_eqb c (cu "e") || cu_eqb c (cu "E") then
        let '(neg, r1) :=
          match r with
          | c' :: r' =>
              if cu_eqb c' (cu "+") then (false, r')
              else if cu_eqb c' (cu "-") then (true, r')
              else (false, r)
          | [] => (false, r)
          end in
        let '(ds, r2) := span_digits r1 in
        match ds with
        | [] => None
        | _ :: _ => Some ((if neg then - digits_value ds else digits_value ds), r2)
        end
      else Some (0, s)
  | [] => Some (0, s)
  end.

(** The Number value of a whole token, [None] when the token is not a number
    literal of the grammar. *)
Definition number_of_token (tok : jsstring) : option number :=
  let '(neg, s0) := lex_sign tok in
  match lex_int s0 with
  | None => None
  | Some (int, s1) =>
      match lex_frac s1 with
      | None => None
      | Some (frac, s2) =>
          match lex_exp s2 with
          | Some (ex, []) =>
              Some (number_of_decimal neg (digits_value (int ++ frac))
                      (ex - Z.of_nat (List.length frac)))
          | _ => None
          end
      end
  end.

(** *** [Number::toString] (radix 10) *)

(** [p / q < 10^n]. *)
Definition below_pow10 (p q n : Z) : bool :=
  if 0 <=? n then p <? q * 10 ^ n else p * 10 ^ (- n) <? q.

Fixpoint find_pow10 (fuel : nat) (p q n : Z) : Z :=
  match fuel with
  | O => n
  | S f => if below_pow10 p q n then n else find_pow10 f p q (n + 1)
  end.

(** The [n] with [10^(n-1) <= p / q < 10^n]. *)
Definition decimal_exponent (p q : Z) : Z :=
  find_pow10 8%nat p q ((floor_log2_ratio p q * 30103) / 100000 - 1).

(** The candidate with [k] digits: an integer [s] next to
    [(p / q) * 10^(k - n)], below or above, such that [s * 10^(n - k)] rounds
    back to the number; the nearer of the two when both do (the even one on
    a tie); a carry to [10^k] moves the exponent up. *)
Definition digits_candidate (x : number) (p q n : Z) (k : Z) : option (Z * Z) :=
  let sh := k - n in
  let below := if 0 <=? sh then (p * 10 ^ sh) / q else p / (q * 10 ^ (- sh)) in
  let nearest := if 0 <=? sh then round_half_even (p * 10 ^ sh) q
                 else round_half_even p (q * 10 ^ (- sh)) in
  let other := if nearest =? below then below + 1 else below in
  let rounds_back s := number_eqb (number_of_decimal false s (n - k)) x in
  let carried s := if s =? 10 ^ k then (10 ^ (k - 1), n + 1) else (s, n) in
  if rounds_back nearest then Some (carried nearest)
  else if rounds_back other then Some (carried other)
  else None.

Fixpoint shortest_digits (fuel : nat) (x : number) (p q n : Z) (k : Z) : Z * Z :=
  match fuel with
  | O => (if 0 <=? k - n then round_half_even (p * 10 ^ (k - n)) q
          else round_half_even p (q * 10 ^ (n - k)), n)
  | S f =>
      match digits_candidate x p q n k with
      | Some r => r
      | None => shortest_digits f x p q n (k + 1)
      end
  end.

Definition zeros (n : Z) : jsstring := repeat (cu "0") (Z.to_nat n).

(** The text for digits [ds] (there are [k] of them) and exponent [n]. *)
Definition format_decimal (ds : jsstring) (n : Z) : jsstring :=
  let k := Z.of_nat (List.length ds) in
  if (k <=? n) && (n <=? 21) then ds ++ zeros (n - k)
  else if (0 <? n) && (n <=? 21) then
    firstn (Z.to_nat n) ds ++ cu "." :: skipn (Z.to_nat n) ds
  else if (-6 <? n) && (n <=? 0) then
    cu "0" :: cu "." :: zeros (- n) ++ ds
  else
    let e := n - 1 in
    let ex := cu "e" :: (if 0 <=? e then cu "+" else cu "-") :: digits_of (Z.abs e) in
    match ds with
    | [d] => d :: ex
    | d :: rest => d :: cu "." :: rest ++ ex
    | [] => ex
    end.

Definition Number_toString (x : number) : jsstring :=
  match x with
  | NZero _ => str "0"
  | NInfinity neg => if neg then str "-Infinity" else str "Infinity"
  | NFinite neg m e =>
      let '(p, q) := if 0 <=? e then (Zpos m * 2 ^ e, 1) else (Zpos m, 2 ^ (- e)) in
      let n := decimal_exponent p q in
      let '(s, n') := shortest_digits 17%nat (NFinite false m e) p q n 1 in
      (if neg then [cu "-"] else []) ++ format_decimal (digits_of s) n'
  end.

(* ================================================================= *)
(** ** Values *)

(** The values of the JSON data model, over a representation [A] of the
    numbers. An object is the list of its own enumerable string-keyed
    properties, in the order in which [Object.keys], [for-in] and
    [JSON.stringify] enumerate them. *)
#[local] Unset Elimination Schemes.
Inductive json_of (A : Type) : Type :=
| JNull
| JBool (b : bool)
| JNumber (n : A)
| JString (s : jsstring)
| JArray (xs : list (json_of A))
| JObject (ps : list (jsstring * json_of A)).
#[local] Set Elimination Schemes.

Arguments JNull {A}.
Arguments JBool {A} b.
Arguments JNumber {A} n.
Arguments JString {A} s.
Arguments JArray {A} xs.
Arguments JObject {A} ps.

(** What [JSON.parse] returns. *)
Abbreviation json := (json_of number).

(** What an expression of the class can evaluate to: a JSON value or
    [undefined]. Members inherited from the built-in prototypes ([toString],
    [constructor], ...) are outside this model: a read of a key that is not
    an own property gives [undefined]. *)
Inductive jsval : Type :=
| VUndefined
| VJson (j : json).

(** An array index: a key that is the decimal numeral, as [ToString] writes
    it, of an integer below 2^32 - 1. Ordinary objects enumerate such keys
    first, in numeric order. *)
Definition array_index (k : jsstring) : option Z :=
  let i := digits_value k in
  if forallb is_digit k && jsstring_eqb (digits_of i) k && (i <? 2 ^ 32 - 1)
  then Some i else None.

Section Properties.
Context {V : Type}.

Fixpoint lookup (k : jsstring) (ps : list (jsstring * V)) : option V :=
  match ps with
  | [] => None
  | (k', v) :: r => if jsstring_eqb k k' then Some v else lookup k r
  end.

Definition has_key (k : jsstring) (ps : list (jsstring * V)) : bool :=
  match lookup k ps with Some _ => true | None => false end.

Fixpoint replace_value (k : jsstring) (v : V) (ps : list (jsstring * V))
  : list (jsstring * V) :=
  match ps with
  | [] => []
  | (k', v') :: r =>
      if jsstring_eqb k k' then (k', v) :: r else (k', v') :: replace_value k v r
  end.

Fixpoint insert_index (i : Z) (k : jsstring) (v : V) (ps : list (jsstring * V))
  : list (jsstring * V) :=
  match ps with
  | [] => [(k, v)]
  | (k', v') :: r =>
      match array_index k' with
      | Some j => if j <? i then (k', v') :: insert_index i k v r else (k, v) :: ps
      | None => (k, v) :: ps
      end
  end.

(** [CreateDataProperty(obj, k, v)] on an ordinary object: an existing key
    keeps its place; a new array index goes among the indices, in numeric
    order; any other new key goes last. *)
Definition define_property (k : jsstring) (v : V) (ps : list (jsstring * V))
  : list (jsstring * V) :=
  if has_key k ps then replace_value k v ps
  else match array_index k with
       | Some i => insert_index i k v ps
       | None => ps ++ [(k, v)]
       end.

(** The object a sequence of definitions builds from the empty one. *)
Definition build_object (members : list (jsstring * V)) : list (jsstring * V) :=
  fold_left (fun o m => define_property (fst m) (snd m) o) members [].

End Properties.

(* ================================================================= *)
(** ** [JSON.parse] *)

Definition is_ws (c : codeunit) : bool :=
  cu_eqb c 32 || cu_eqb c 9 || cu_eqb c 10 || cu_eqb c 13.

Fixpoint skip_ws (s : jsstring) : jsstring :=
  match s with
  | c :: r => if is_ws c then skip_ws r else s
  | [] => []
  end.

Definition hex_value (c : codeunit) : option N :=
  if is_digit c then Some (c - 48)%N
  else if (97 <=? c)%N && (c <=? 102)%N then Some (c - 87)%N
  else if (65 <=? c)%N && (c <=? 70)%N then Some (c - 55)%N
  else None.

Definition hex4_value (a b c d : codeunit) : option codeunit :=
  match hex_value a, hex_value b, hex_value c, hex_value d with
  | Some x, Some y, Some z, Some w => Some (((x * 16 + y) * 16 + z) * 16 + w)%N
  | _, _, _, _ => None
  end.

(** The character a one-letter escape stands for. *)
Definition simple_escape (e : codeunit) : option codeunit :=
  if cu_eqb e (dquote) then Some 34%N
  else if cu_eqb e (cu "\") then Some 92%N
  else if cu_eqb e (cu "/") then Some 47%N
  else if cu_eqb e (cu "b") then Some 8%N
  else if cu_eqb e (cu "f") then Some 12%N
  else if cu_eqb e (cu "n") then Some 10%N
  else if cu_eqb e (cu "r") then Some 13%N
  else if cu_eqb e (cu "t") then Some 9%N
  else None.

(** The rest of a string literal, after its opening quote. *)
Fixpoint parse_string_body (s : jsstring) : option (jsstring * jsstring) :=
  match s with
  | [] => None
  | c :: r =>
      if cu_eqb c (dquote) then Some ([], r)
      else if cu_eqb c (cu "\") then
        match r with
        | [] => None
        | e :: r1 =>
            if cu_eqb e (cu "u") then
              match r1 with
              | h1 :: h2 :: h3 :: h4 :: r2 =>
                  match hex4_value h1 h2 h3 h4, parse_string_body r2 with
                  | Some x, Some (w, rest) => Some (x :: w, rest)
                  | _, _ => None
                  end
              | _ => None
              end
            else
              match simple_escape e, parse_string_body r1 with
              | Some x, Some (w, rest) => Some (x :: w, rest)
              | _, _ => None
              end
        end
      else if (c <? 32)%N then None
      else
        match parse_string_body r with
        | Some (w, rest) => Some (c :: w, rest)
        | None => None
        end
  end.

(** The characters a number literal is made of. *)
Definition is_numchar (c : codeunit) : bool :=
  is_digit c || cu_eqb c (cu "-") || cu_eqb c (cu "+") || cu_eqb c (cu ".")
  || cu_eqb c (cu "e") || cu_eqb c (cu "E").

Fixpoint span_numchars (s : jsstring) : jsstring * jsstring :=
  match s with
  | c :: r => if is_numchar c then let '(t, r') := span_numchars r in (c :: t, r')
              else ([], s)
  | [] => ([], [])
  end.

Section Parser.
Context {A : Type}.
(** The value of a number token; [None] when it is not a number literal. *)
Variable conv : jsstring -> option A.
(** The properties of the object that the members of a text define, in the
    order of the text. *)
Variable build : list (jsstring * json_of A) -> list (jsstring * json_of A).

(** Recursive descent on the JSON grammar. [parse_value] reads one value at
    the head of [s]; [parse_elements] the elements of a non-empty array up to
    its bracket; [parse_members] the members of a non-empty object up to its
    brace, in the order of the text. A number is the longest run of number
    characters and must be a literal as a whole (a valid literal is never
    followed by a number character in a valid text). *)
Fixpoint parse_value (fuel : nat) (s : jsstring) {struct fuel}
  : option (json_of A * jsstring) :=
  match fuel with
  | O => None
  | S f =>
      match s with
      | [] => None
      | c :: r =>
          if cu_eqb c (cu "[") then
            match skip_ws r with
            | [] => None
            | c' :: r' =>
                if cu_eqb c' (cu "]") then Some (JArray [], r')
                else match parse_elements f (c' :: r') with
                     | Some (vs, rest) => Some (JArray vs, rest)
                     | None => None
                     end
            end
          else if cu_eqb c (cu "{") then
            match skip_ws r with
            | [] => None
            | c' :: r' =>
                if cu_eqb c' (cu "}") then Some (JObject [], r')
                else match parse_members f (c' :: r') with
                     | Some (ms, rest) => Some (JObject (build ms), rest)
                     | None => None
                     end
            end
          else if cu_eqb c (dquote) then
            match parse_string_body r with
            | Some (w, rest) => Some (JString w, rest)
            | None => None
            end
          else
            match strip_prefix (str "null") s with
            | Some rest => Some (JNull, rest)
            | None =>
            match strip_prefix (str "true") s with
            | Some rest => Some (JBool true, rest)
            | None =>
            match strip_prefix (str "false") s with
            | Some rest => Some (JBool false, rest)
            | None =>
                let '(tok, rest) := span_numchars s in
                match tok with
                | [] => None
                | _ :: _ =>
                    match conv tok with
                    | Some n => Some (JNumber n, rest)
                    | None => None
                    end
                end
            end end end
      end
  end
with parse_elements (fuel : nat) (s : jsstring) {struct fuel}
  : option (list (json_of A) * jsstring) :=
  match fuel with
  | O => None
  | S f =>
      match parse_value f s with
      | None => None
      | Some (v, r) =>
          match skip_ws r with
          | [] => None
          | c :: r' =>
              if cu_eqb c (cu ",") then
                match parse_elements f (skip_ws r') with
                | Some (vs, rest) => Some (v :: vs, rest)
                | None => None
                end
              else if cu_eqb c (cu "]") then Some ([v], r')
              else None
          end
      end
  end
with parse_members (fuel : nat) (s : jsstring) {struct fuel}
  : option (list (jsstring * json_of A) * jsstring) :=
  match fuel with
  | O => None
  | S f =>
      match s with
      | [] => None
      | q :: r0 =>
          if cu_eqb q (dquote) then
            match parse_string_body r0 with
            | None => None
            | Some (k, r1) =>
                match skip_ws r1 with
                | [] => None
                | c1 :: r2 =>
                    if cu_eqb c1 (cu ":") then
                      match parse_value f (skip_ws r2) with
                      | None => None
                      | Some (v, r3) =>
                          match skip_ws r3 with
                          | [] => None
                          | c3 :: r4 =>
                              if cu_eqb c3 (cu ",") then
                                match parse_members f (skip_ws r4) with
                                | Some (ms, rest) => Some ((k, v) :: ms, rest)
                                | None => None
                                end
                              else if cu_eqb c3 (cu "}") then Some ([(k, v)], r4)
                              else None
                          end
                      end
                    else None
                end
            end
          else None
      end
  end.

(** A whole text: one value between optional white space. Every call of the
    parser but the first follows a consumed character, at most two calls
    deep, so twice the length of the text is fuel enough. *)
Definition parse_text (text : jsstring) : option (json_of A) :=
  match parse_value (2 * List.length text + 2)%nat (skip_ws text) with
  | Some (v, rest) =>
      match skip_ws rest with
      | [] => Some v
      | _ :: _ => None
      end
  | None => None
  end.

End Parser.

(** [JSON.parse(text)], [None] when it throws a [SyntaxError]: a number
    token is a binary64 value, the members of an object are defined one after
    the other. *)
Definition JSON_parse (text : jsstring) : option json :=
  parse_text number_of_token build_object text.

(* ================================================================= *)
(** ** [JSON.stringify] *)

Definition hex_digit (n : N) : codeunit :=
  if (n <? 10)%N then (48 + n)%N else (87 + n)%N.

(** [\uXXXX] with lower-case digits. *)
Definition unicode_escape (c : codeunit) : jsstring :=
  [cu "\"; cu "u"; hex_digit (c / 4096); hex_digit ((c / 256) mod 16);
   hex_digit ((c / 16) mod 16); hex_digit (c mod 16)]%N.

Definition is_high_surrogate (c : codeunit) : bool :=
  (55296 <=? c)%N && (c <=? 56319)%N.
Definition is_low_surrogate (c : codeunit) : bool :=
  (56320 <=? c)%N && (c <=? 57343)%N.

(** The body of [QuoteJSONString]: the two-character escapes, [\u] escapes
    for the other control characters and for lone surrogates. *)
Fixpoint quote_body (s : jsstring) : jsstring :=
  match s with
  | [] => []
  | c :: r =>
      if cu_eqb c 8 then cu "\" :: cu "b" :: quote_body r
      else if cu_eqb c 9 then cu "\" :: cu "t" :: quote_body r
      else if cu_eqb c 10 then cu "\" :: cu "n" :: quote_body r
      else if cu_eqb c 12 then cu "\" :: cu "f" :: quote_body r
      else if cu_eqb c 13 then cu "\" :: cu "r" :: quote_body r
      else if cu_eqb c 34 then cu "\" :: dquote :: quote_body r
      else if cu_eqb c 92 then cu "\" :: cu "\" :: quote_body r
      else if (c <? 32)%N then unicode_escape c ++ quote_body r
      else if is_high_surrogate c then
        match r with
        | d :: r' =>
            if is_low_surrogate d then c :: d :: quote_body r'
            else unicode_escape c ++ quote_body r
        | [] => unicode_escape c
        end
      else if is_low_surrogate c then unicode_escape c ++ quote_body r
      else c :: quote_body r
  end.

Definition quote (s : jsstring) : jsstring :=
  dquote :: quote_body s ++ [dquote].

Definition is_nil {T : Type} (l : list T) : bool :=
  match l with [] => true | _ :: _ => false end.

Section Serializer.
Context {A : Type}.
(** The text of a number. *)
Variable pr : A -> jsstring.

(** [SerializeJSONProperty] with the given [gap], at indentation [indent]. *)
Fixpoint serialize (gap indent : jsstring) (v : json_of A) : jsstring :=
  match v with
  | JNull => str "null"
  | JBool true => str "true"
  | JBool false => str "false"
  | JNumber n => pr n
  | JString s => quote s
  | JArray xs =>
      let inner := indent ++ gap in
      let parts := map (serialize gap inner) xs in
      if is_nil parts then str "[]"
      else if is_nil gap then cu "[" :: join [cu ","] parts ++ [cu "]"]
      else cu "[" :: 10%N :: inner ++ join (cu "," :: 10%N :: inner) parts
                  ++ 10%N :: indent ++ [cu "]"]
  | JObject ps =>
      let inner := indent ++ gap in
      let parts :=
        map (fun m => quote (fst m) ++ cu ":" :: (if is_nil gap then [] else [32%N])
                      ++ serialize gap inner (snd m)) ps in
      if is_nil parts then str "{}"
      else if is_nil gap then cu "{" :: join [cu ","] parts ++ [cu "}"]
      else cu "{" :: 10%N :: inner ++ join (cu "," :: 10%N :: inner) parts
                  ++ 10%N :: indent ++ [cu "}"]
  end.

End Serializer.

Definition number_is_finite (n : number) : bool :=
  match n with NInfinity _ => false | _ => true end.

(** A finite number serialises as [Number::toString] has it, any other as
    [null]. *)
Definition number_text (n : number) : jsstring :=
  if number_is_finite n then Number_toString n else str "null".

(** The gap of [JSON.stringify(value, null, space)] for a number [space]:
    [min(10, space)] spaces. *)
Definition gap_of (space : Z) : jsstring :=
  repeat 32%N (Z.to_nat (Z.min 10 space)).

(** [JSON.stringify(v, null, space)] on a JSON value. *)
Definition stringify (space : Z) (v : json) : jsstring :=
  serialize number_text (gap_of space) [] v.

(** [JSON.stringify(x)] and [JSON.stringify(x, null, space)] on any value:
    [undefined] gives [undefined]. *)
Definition JSON_stringify (space : Z) (x : jsval) : option jsstring :=
  match x with
  | VUndefined => None
  | VJson v => Some (stringify space v)
  end.

(* ================================================================= *)
(** ** Property reads, [Object.keys], exceptions *)

Fixpoint height {A : Type} (v : json_of A) : nat :=
  match v with
  | JArray xs => S (fold_right (fun x n => Nat.max (height x) n) O xs)
  | JObject ps => S (fold_right (fun m n => Nat.max (height (snd m)) n) O ps)
  | _ => O
  end.

Definition is_undefined (x : jsval) : bool :=
  match x with VUndefined => true | VJson _ => false end.

(** [typeof x === 'object' && x !== null]. *)
Definition is_object (x : jsval) : bool :=
  match x with
  | VJson (JArray _) | VJson (JObject _) => true
  | _ => false
  end.

(** [Array.isArray(x)]. *)
Definition is_array (x : jsval) : bool :=
  match x with VJson (JArray _) => true | _ => false end.

Definition index_key (i : nat) : jsstring := digits_of (Z.of_nat i).

(** The keys ["0"], ..., of an array or string of length [n]. *)
Definition index_keys (n : nat) : list jsstring := map index_key (seq 0 n).

(** [Object.keys(obj || {})]: the own enumerable string keys; none for
    [null], booleans and numbers, the indices for a string or an array. *)
Definition keys_or_empty (obj : jsval) : list jsstring :=
  match obj with
  | VUndefined => []
  | VJson (JNull | JBool _ | JNumber _) => []
  | VJson (JString s) => index_keys (List.length s)
  | VJson (JArray xs) => index_keys (List.length xs)
  | VJson (JObject ps) => map fst ps
  end.

Definition length_key : jsstring := str "length".

(** [obj[key]] on own properties: an array or a string has its indices and
    [length], a boolean or a number has none. Members inherited from a
    prototype are outside the model: a read the engine resolves up the
    prototype chain (a method of [Object.prototype], say) is [undefined]
    here. The properties that depend on such a read are stated for reads that
    stay on own properties ([own_read], below). *)
Definition get_own (obj : json) (key : jsstring) : jsval :=
  match obj with
  | JObject ps =>
      match lookup key ps with Some v => VJson v | None => VUndefined end
  | JArray xs =>
      match array_index key with
      | Some i =>
          match nth_error xs (Z.to_nat i) with
          | Some v => VJson v
          | None => VUndefined
          end
      | None =>
          if jsstring_eqb key length_key
          then VJson (JNumber (number_of_nat (List.length xs)))
          else VUndefined
      end
  | JString s =>
      match array_index key with
      | Some i =>
          match nth_error s (Z.to_nat i) with
          | Some c => VJson (JString [c])
          | None => VUndefined
          end
      | None =>
          if jsstring_eqb key length_key
          then VJson (JNumber (number_of_nat (List.length s)))
          else VUndefined
      end
  | JNull | JBool _ | JNumber _ => VUndefined
  end.

(** [obj?.[key]]: [undefined] on [null] and [undefined]. *)
Definition get (obj : jsval) (key : jsstring) : jsval :=
  match obj with
  | VUndefined | VJson JNull => VUndefined
  | VJson o => get_own o key
  end.

Definition depth_of (x : jsval) : nat :=
  match x with VUndefined => O | VJson v => height v end.

(** [sorted[key] = v] on an ordinary object: an ordinary key is defined on
    the object; [__proto__] reaches the setter of [Object.prototype], which
    changes the prototype or does nothing and never adds an own property. *)
Definition assign (key : jsstring) (v : json) (ps : list (jsstring * json))
  : list (jsstring * json) :=
  if jsstring_eqb key (str "__proto__") then ps else define_property key v ps.

(** The elements of [new Set(l)], in insertion order. *)
Fixpoint set_of (l : list jsstring) : list jsstring :=
  match l with
  | [] => []
  | k :: r => k :: filter (fun k' => negb (jsstring_eqb k k')) (set_of r)
  end.

(** [hay.includes(needle)]. *)
Fixpoint includes (needle hay : jsstring) : bool :=
  match strip_prefix needle hay with
  | Some _ => true
  | None => match hay with [] => false | _ :: r => includes needle r end
  end.

Inductive exn : Type :=
| SyntaxError
| TypeError
| Error (message : jsstring).

(** The outcome of evaluating code that may throw. *)
Inductive completion (A : Type) : Type :=
| Normal (a : A)
| Throw (e : exn).
Arguments Normal {A} a.
Arguments Throw {A} e.

Definition bind {A B : Type} (c : completion A) (k : A -> completion B)
  : completion B :=
  match c with
  | Normal a => k a
  | Throw e => Throw e
  end.

Notation "x <- c ;; k" := (bind c (fun x => k))
  (at level 61, c at next level, right associativity).

(** [try { body } catch (error) { handler }]. *)
Definition try_catch {A : Type} (body : completion A) (handler : exn -> completion A)
  : completion A :=
  match body with
  | Normal a => Normal a
  | Throw e => handler e
  end.

(** [try { return body } catch { return fallback }]. *)
Definition try_or {A : Type} (body : completion A) (fallback : A) : A :=
  match body with
  | Normal a => a
  | Throw _ => fallback
  end.

(** [JSON.parse(text)] as a completion. *)
Definition JSON_parse_c (text : jsstring) : completion json :=
  match JSON_parse text with
  | Some v => Normal v
  | None => Throw SyntaxError
  end.

(** [xs.map(f)] with a callback that may throw. *)
Fixpoint map_c {A B : Type} (f : A -> completion B) (xs : list A)
  : completion (list B) :=
  match xs with
  | [] => Normal []
  | x :: r => y <- f x ;; ys <- map_c f r ;; Normal (y :: ys)
  end.

(** [keys.forEach(key => ...)] threading the object the callback updates. *)
Fixpoint forEach_c {K S : Type} (keys : list K) (f : K -> S -> completion S) (s : S)
  : completion S :=
  match keys with
  | [] => Normal s
  | k :: r => s' <- f k s ;; forEach_c r f s'
  end.

(* ================================================================= *)
(** ** The interfaces of [jsonProcessor.ts] *)

Module JSONProcessingOptions.
Record t : Type := mk {
  indent : Z;
  sortKeys : bool;
  removeWhitespace : bool
}.
End JSONProcessingOptions.

Module JSONValidationResult.
Record t : Type := mk {
  valid : bool;
  error : option jsstring;
  line : option nat;
  column : option nat
}.
End JSONValidationResult.

Module Stats.
Record t : Type := mk {
  size : nat;
  formattedSize : nat;
  objects : nat;
  arrays : nat;
  primitives : nat
}.
End Stats.

Module JSONProcessingResult.
Record t : Type := mk {
  formatted : jsstring;
  minified : jsstring;
  validation : JSONValidationResult.t;
  stats : Stats.t
}.
End JSONProcessingResult.

Module DiffResult.
Record t : Type := mk {
  diff : jsstring;
  hasDifferences : bool
}.
End DiffResult.

Module SchemaResult.
Record t : Type := mk {
  valid : bool;
  errors : list jsstring
}.
End SchemaResult.

(** What [this] is bound to inside a static method: the class, when called
    as [this.sortKeys(...)]; [undefined], when the method is passed as a
    bare callback (class bodies are strict code). *)
Inductive this_binding : Type :=
| ThisClass
| ThisUndefined.

(* ================================================================= *)
(** ** [class JSONProcessor] *)

Module JSONProcessor.

(** The first match of [/position (\d+)/] in [message]: its digits. *)
Fixpoint match_position (message : jsstring) : option jsstring :=
  match message with
  | [] => None
  | _ :: r =>
      match strip_prefix (str "position ") message with
      | Some rest =>
          match fst (span_digits rest) with
          | [] => match_position r
          | d :: ds => Some (d :: ds)
          end
      | None => match_position r
      end
  end.

Section Validate.
(** The message of the [SyntaxError] the engine's [JSON.parse] throws on a
    text: its wording is the engine's. *)
Variable SyntaxError_message : jsstring -> jsstring.

Definition validate (jsonString : jsstring) : completion JSONValidationResult.t :=
  try_catch
    (_ <- JSON_parse_c jsonString ;;
     Normal (JSONValidationResult.mk true None None None))
    (fun error =>
       let message :=
         match error with
         | SyntaxError => SyntaxError_message jsonString
         | TypeError => []
         | Error m => m
         end in
       match match_position message with
       | Some digits =>
           let position := parseInt digits in
           let lines := split_on 10%N (substring0 position jsonString) in
           let line := List.length lines in
           match nth_error lines (List.length lines - 1) with
           | Some last =>
               let column := (List.length last + 1)%nat in
               Normal (JSONValidationResult.mk false (Some message) (Some line) (Some column))
           | None => Throw TypeError
           end
       | None => Normal (JSONValidationResult.mk false (Some message) None None)
       end).

End Validate.

Fixpoint sortKeys (this : this_binding) (obj : json) {struct obj} : completion json :=
  match obj with
  | JArray xs =>
      (* obj.map(this.sortKeys): the callback runs with [this] undefined *)
      match this with
      | ThisUndefined => Throw TypeError
      | ThisClass =>
          ys <- map_c (sortKeys ThisUndefined) xs ;;
          Normal (JArray ys)
      end
  | JObject ps =>
      (* this.sortKeys(obj[key]), for each own key of obj *)
      let calls := map (fun m => (fst m, sortKeys ThisClass (snd m))) ps in
      sorted <-
        forEach_c (sort_strings (map fst ps))
          (fun key sorted =>
             match this with
             | ThisUndefined => Throw TypeError
             | ThisClass =>
                 match lookup key calls with
                 | Some call => v <- call ;; Normal (assign key v sorted)
                 | None => Throw TypeError
                 end
             end)
          [] ;;
      Normal (JObject sorted)
  | _ => Normal obj
  end.

Definition format (jsonString : jsstring) (options : JSONProcessingOptions.t) : jsstring :=
  try_or
    (parsed <- JSON_parse_c jsonString ;;
     parsed <- (if JSONProcessingOptions.sortKeys options
                then sortKeys ThisClass parsed
                else Normal parsed) ;;
     Normal (stringify (JSONProcessingOptions.indent options) parsed))
    jsonString.

Definition minify (jsonString : jsstring) : jsstring :=
  try_or
    (parsed <- JSON_parse_c jsonString ;;
     Normal (stringify 0 parsed))
    jsonString.

(** The three counters of [getStats], updated by [count]. *)
Record counters : Type := mkCounters {
  c_objects : nat;
  c_arrays : nat;
  c_primitives : nat
}.

Fixpoint count (item : json) (c : counters) {struct item} : counters :=
  match item with
  | JArray xs =>
      fold_left (fun c x => count x c) xs
        (mkCounters (c_objects c) (S (c_arrays c)) (c_primitives c))
  | JObject ps =>
      fold_left (fun c m => count (snd m) c) ps
        (mkCounters (S (c_objects c)) (c_arrays c) (c_primitives c))
  | _ => mkCounters (c_objects c) (c_arrays c) (S (c_primitives c))
  end.

Definition getStats (obj : json) : counters := count obj (mkCounters 0 0 0).

Section Process.
Variable SyntaxError_message : jsstring -> jsstring.

Definition process (jsonString : jsstring) (options : JSONProcessingOptions.t)
  : completion JSONProcessingResult.t :=
  validation <- validate SyntaxError_message jsonString ;;
  if negb (JSONValidationResult.valid validation) then
    Normal (JSONProcessingResult.mk jsonString jsonString validation
              (Stats.mk (List.length jsonString) (List.length jsonString) 0 0 0))
  else
    parsed <- JSON_parse_c jsonString ;;
    let formatted :=
      if JSONProcessingOptions.removeWhitespace options
      then minify jsonString else format jsonString options in
    let minified := minify jsonString in
    let stats := getStats parsed in
    Normal (JSONProcessingResult.mk formatted minified validation
              (Stats.mk (List.length jsonString) (List.length formatted)
                 (c_objects stats) (c_arrays stats) (c_primitives stats))).

End Process.

(** *** [generateDiff] *)

(** The text a template literal shows for [JSON.stringify(x)]. *)
Definition template (x : option jsstring) : jsstring :=
  match x with Some s => s | None => str "undefined" end.

Definition option_string_eqb (a b : option jsstring) : bool :=
  match a, b with
  | Some x, Some y => jsstring_eqb x y
  | None, None => true
  | _, _ => false
  end.

(** [JSON.stringify(v, null, 2).split('\n').join('\n' + spaces + '  ')]. *)
Definition pretty (spaces : jsstring) (v : jsval) : jsstring :=
  join (10%N :: spaces ++ str "  ") (split_on 10%N (template (JSON_stringify 2 v))).

(** [`${spaces}${mark}"${key}": ${text}\n`]. *)
Definition entry (spaces mark key text : jsstring) : jsstring :=
  spaces ++ mark ++ dquote :: key ++ js "': " ++ text ++ [10%N].

(** The three appends of a recursion: [`${spaces}  "${key}": {\n`], the
    diff of the two values, [`${spaces}  }\n`]. *)
Definition block (diff spaces key inner : jsstring) : jsstring :=
  ((diff ++ spaces ++ js "  '" ++ key ++ js "': {" ++ [10%N])
     ++ inner)
    ++ spaces ++ str "  }" ++ [10%N].

(** One turn of the loop over [sortedKeys]; [recurse] is the method itself. *)
Definition diffKey (recurse : jsval -> jsval -> jsstring -> nat -> jsstring)
  (obj1 obj2 : jsval) (path : jsstring) (indent : nat) (diff key : jsstring)
  : jsstring :=
  let spaces := repeat_string (str "  ") indent in
  let currentPath := if is_nil path then key else path ++ cu "." :: key in
  let val1 := get obj1 key in
  let val2 := get obj2 key in
  if negb (option_string_eqb (JSON_stringify 0 val1) (JSON_stringify 0 val2)) then
    if is_undefined val1 then
      (* Added in obj2 *)
      if is_object val2 && negb (is_array val2)
      then diff ++ entry spaces (str "+ ") key (pretty spaces val2)
      else diff ++ entry spaces (str "+ ") key (template (JSON_stringify 0 val2))
    else if is_undefined val2 then
      (* Removed from obj1 *)
      if is_object val1 && negb (is_array val1)
      then diff ++ entry spaces (str "- ") key (pretty spaces val1)
      else diff ++ entry spaces (str "- ") key (template (JSON_stringify 0 val1))
    else if is_object val1 && is_object val2 then
      (* Both are objects, recurse *)
      block diff spaces key (recurse val1 val2 currentPath (S indent))
    else
      (* Modified *)
      let diff :=
        if is_object val1
        then diff ++ entry spaces (str "- ") key (pretty spaces val1)
        else diff ++ entry spaces (str "- ") key (template (JSON_stringify 0 val1)) in
      if is_object val2
      then diff ++ entry spaces (str "+ ") key (pretty spaces val2)
      else diff ++ entry spaces (str "+ ") key (template (JSON_stringify 0 val2))
  else
    (* No change *)
    if is_object val1 && negb (is_array val1) then
      block diff spaces key (recurse val1 val2 currentPath (S indent))
    else diff ++ entry spaces (str "  ") key (template (JSON_stringify 0 val1)).

(** [Array.from(new Set([...keys(obj1 || {}), ...keys(obj2 || {})])).sort()]. *)
Definition sortedKeys (obj1 obj2 : jsval) : list jsstring :=
  sort_strings (set_of (keys_or_empty obj1 ++ keys_or_empty obj2)).

(** The method, with a bound on the depth of its recursion. *)
Fixpoint generateDiff_depth (depth : nat) (obj1 obj2 : jsval) (path : jsstring)
  (indent : nat) {struct depth} : jsstring :=
  match depth with
  | O => []
  | S d =>
      fold_left (diffKey (generateDiff_depth d) obj1 obj2 path indent)
        (sortedKeys obj1 obj2) []
  end.

(** A recursive call is on a property of [obj1] that is an object: the height
    of [obj1] bounds the depth. *)
Definition generateDiff (obj1 obj2 : jsval) (path : jsstring) (indent : nat) : jsstring :=
  generateDiff_depth (S (depth_of obj1)) obj1 obj2 path indent.

Definition compareJSON (json1 json2 : jsstring) : completion DiffResult.t :=
  try_catch
    (obj1 <- JSON_parse_c json1 ;;
     obj2 <- JSON_parse_c json2 ;;
     let diff := generateDiff (VJson obj1) (VJson obj2) [] 0 in
     Normal (DiffResult.mk diff (includes (str "+ ") diff || includes (str "- ") diff)))
    (fun _ => Throw (Error (str "Invalid JSON format in one or both inputs"))).

(** *** [validateSchema] *)

(** [if (x)]: the falsy values are [undefined], [null], [false], zero and
    the empty string. *)
Definition truthy (x : jsval) : bool :=
  match x with
  | VUndefined | VJson JNull => false
  | VJson (JBool b) => b
  | VJson (JNumber (NZero _)) => false
  | VJson (JNumber _) => true
  | VJson (JString s) => negb (is_nil s)
  | VJson (JArray _) | VJson (JObject _) => true
  end.

(** [Array.isArray(data) ? 'array' : data === null ? 'null' : typeof data]. *)
Definition actualType (data : json) : jsstring :=
  match data with
  | JArray _ => str "array"
  | JNull => str "null"
  | JBool _ => str "boolean"
  | JNumber _ => str "number"
  | JString _ => str "string"
  | JObject _ => str "object"
  end.

(** [s !== x] for a string [s]. *)
Definition differs_from_string (s : jsstring) (x : jsval) : bool :=
  match x with
  | VJson (JString t) => negb (jsstring_eqb s t)
  | _ => true
  end.

(** [o.key] on a value that [JSON.parse] returned: a [TypeError] on [null]. *)
Definition read (o : json) (key : jsstring) : completion jsval :=
  match o with
  | JNull => Throw TypeError
  | _ => Normal (get_own o key)
  end.

(** [ToString] of a value, as a template literal applies it: an Array joins
    its elements, [null] counting for the empty string; an Object is
    [[object Object]], unless an own property [toString], which is not
    callable, hides the method of the prototype. *)
Fixpoint ToString (v : json) : completion jsstring :=
  match v with
  | JNull => Normal (str "null")
  | JBool true => Normal (str "true")
  | JBool false => Normal (str "false")
  | JNumber n => Normal (Number_toString n)
  | JString s => Normal s
  | JArray xs =>
      parts <- map_c (fun x => match x with
                               | JNull => Normal []
                               | _ => ToString x
                               end) xs ;;
      Normal (join [cu ","] parts)
  | JObject ps =>
      if has_key (str "toString") ps then Throw TypeError
      else Normal (str "[object Object]")
  end.

Definition ToString_val (x : jsval) : completion jsstring :=
  match x with
  | VUndefined => Normal (str "undefined")
  | VJson v => ToString v
  end.

(** [Object.entries(x)] for a truthy [x]. *)
Definition Object_entries (x : jsval) : list (jsstring * json) :=
  match x with
  | VJson (JObject ps) => ps
  | VJson (JArray xs) => combine (index_keys (List.length xs)) xs
  | VJson (JString s) =>
      combine (index_keys (List.length s)) (map (fun c => JString [c]) s)
  | _ => []
  end.

(** [SameValueZero], the equality of [includes], between two values parsed
    from two texts: an Array or an Object is only ever the same as itself. *)
Definition same_value_zero (a b : json) : bool :=
  match a, b with
  | JNull, JNull => true
  | JBool x, JBool y => Bool.eqb x y
  | JNumber (NZero _), JNumber (NZero _) => true
  | JNumber x, JNumber y => number_eqb x y
  | JString x, JString y => jsstring_eqb x y
  | _, _ => false
  end.

(** A number scaled by 2^1074, an infinity beyond every finite one. *)
Definition scaled (n : number) : Z :=
  match n with
  | NZero _ => 0
  | NFinite neg m e => (if neg then -1 else 1) * Zpos m * 2 ^ (e + 1074)
  | NInfinity neg => (if neg then -1 else 1) * 2 ^ 2100
  end.

(** [a < b] on Numbers, [None] standing for NaN. *)
Definition less_than (a b : option number) : bool :=
  match a, b with
  | Some x, Some y => scaled x <? scaled y
  | _, _ => false
  end.

Section Schema.
(** [StringToNumber]: the Number a string converts to, [None] for NaN. *)
Variable StringToNumber : jsstring -> option number.

(** [ToNumber(ToPrimitive(v, number))], as [<] and [>] apply it. *)
Definition ToNumber (x : jsval) : completion (option number) :=
  match x with
  | VUndefined => Normal None
  | VJson JNull => Normal (Some (NZero false))
  | VJson (JBool b) => Normal (Some (number_of_nat (if b then 1 else 0)))
  | VJson (JNumber n) => Normal (Some n)
  | VJson (JString s) => Normal (StringToNumber s)
  | VJson v => s <- ToString v ;; Normal (StringToNumber s)
  end.

(** One of the six bound checks:
    [if (bound !== undefined && applies) { if (value < bound) errors.push(...) }],
    [flip] for [>]. *)
Definition check_bound (applies : bool) (value : number) (flip : bool) (bound : jsval)
  (prefix suffix : jsstring) (errors : list jsstring) : completion (list jsstring) :=
  if negb (is_undefined bound) && applies then
    b <- ToNumber bound ;;
    if (if flip then less_than b (Some value) else less_than (Some value) b) then
      text <- ToString_val bound ;;
      Normal (errors ++ [prefix ++ text ++ suffix])
    else Normal errors
  else Normal errors.

Definition data_number (data : json) : bool * number :=
  match data with JNumber n => (true, n) | _ => (false, NZero false) end.
Definition data_string_length (data : json) : bool * number :=
  match data with
  | JString s => (true, number_of_nat (List.length s))
  | _ => (false, NZero false)
  end.
Definition data_array_length (data : json) : bool * number :=
  match data with
  | JArray xs => (true, number_of_nat (List.length xs))
  | _ => (false, NZero false)
  end.

(** The method, with a bound on the depth of its recursion; [errors] is the
    array the calls push to. [key in data] is decided on the own keys of
    [data], as the reads are; a key that [data] only inherits is outside the
    model. *)
Fixpoint validateAgainstSchema_depth (depth : nat) (data schema : json)
  (path : jsstring) (errors : list jsstring) {struct depth}
  : completion (list jsstring) :=
  match depth with
  | O => Normal errors
  | S d =>
      (* Basic JSON Schema validation *)
      type <- read schema (str "type") ;;
      mismatch <-
        (if truthy type && differs_from_string (actualType data) type then
           expected <- ToString_val type ;;
           Normal (Some (errors ++ [path ++ str ": Expected type " ++ expected
                                      ++ str ", got " ++ actualType data]))
         else Normal None) ;;
      match mismatch with
      | Some errors => Normal errors
      | None =>
          let properties := get_own schema (str "properties") in
          errors <-
            match data with
            | JObject members =>
                if truthy properties then
                  forEach_c (Object_entries properties)
                    (fun entry errors =>
                       let key := fst entry in
                       let propSchema := snd entry in
                       let newPath := if is_nil path then key else path ++ cu "." :: key in
                       (* key in data, data[key]: on own keys *)
                       match lookup key members with
                       | Some value =>
                           validateAgainstSchema_depth d value propSchema newPath errors
                       | None =>
                           required <- read propSchema (str "required") ;;
                           if truthy required
                           then Normal (errors ++ [newPath ++ str ": Required property missing"])
                           else Normal errors
                       end)
                    errors
                else Normal errors
            | _ => Normal errors
            end ;;
          let items := get_own schema (str "items") in
          errors <-
            match data, items with
            | JArray elements, VJson itemSchema =>
                if truthy items then
                  forEach_c (combine (seq 0 (List.length elements)) elements)
                    (fun entry errors =>
                       validateAgainstSchema_depth d (snd entry) itemSchema
                         (path ++ cu "[" :: index_key (fst entry) ++ [cu "]"]) errors)
                    errors
                else Normal errors
            | _, _ => Normal errors
            end ;;
          let required := get_own schema (str "required") in
          errors <-
            match data with
            | JObject members =>
                if truthy required then
                  match required with
                  | VJson (JArray keys) =>
                      forEach_c keys
                        (fun key errors =>
                           name <- ToString key ;;
                           (* !(key in data): on own keys *)
                           if negb (has_key name members)
                           then Normal (errors ++ [path ++ cu "." :: name
                                                     ++ str ": Required property missing"])
                           else Normal errors)
                        errors
                  | _ => Throw TypeError
                  end
                else Normal errors
            | _ => Normal errors
            end ;;
          let enum := get_own schema (str "enum") in
          errors <-
            match enum with
            | VJson (JArray values) =>
                if truthy enum && negb (existsb (fun v => same_value_zero v data) values)
                then Normal (errors ++ [path ++ str ": Value must be one of "
                                          ++ stringify 0 (JArray values)])
                else Normal errors
            | _ => Normal errors
            end ;;
          errors <-
            check_bound (fst (data_number data)) (snd (data_number data)) false
              (get_own schema (str "minimum"))
              (path ++ str ": Value must be >= ") [] errors ;;
          errors <-
            check_bound (fst (data_number data)) (snd (data_number data)) true
              (get_own schema (str "maximum"))
              (path ++ str ": Value must be <= ") [] errors ;;
          errors <-
            check_bound (fst (data_string_length data)) (snd (data_string_length data)) false
              (get_own schema (str "minLength"))
              (path ++ str ": String must be >= ") (str " characters") errors ;;
          errors <-
            check_bound (fst (data_string_length data)) (snd (data_string_length data)) true
              (get_own schema (str "maxLength"))
              (path ++ str ": String must be <= ") (str " characters") errors ;;
          errors <-
            check_bound (fst (data_array_length data)) (snd (data_array_length data)) false
              (get_own schema (str "minItems"))
              (path ++ str ": Array must have >= ") (str " items") errors ;;
          check_bound (fst (data_array_length data)) (snd (data_array_length data)) true
            (get_own schema (str "maxItems"))
            (path ++ str ": Array must have <= ") (str " items") errors
      end
  end.

(** A recursive call is on a schema under [schema.properties] or on
    [schema.items]: two more than the height of the schema bounds the depth. *)
Definition validateAgainstSchema (data schema : json) (path : jsstring)
  (errors : list jsstring) : completion (list jsstring) :=
  validateAgainstSchema_depth (S (S (height schema))) data schema path errors.

Definition validateSchema (jsonString schemaString : jsstring)
  : completion SchemaResult.t :=
  try_catch
    (json <- JSON_parse_c jsonString ;;
     schema <- JSON_parse_c schemaString ;;
     errors <- validateAgainstSchema json schema [] [] ;;
     Normal (SchemaResult.mk (Nat.eqb (List.length errors) 0) errors))
    (fun _ =>
       Normal (SchemaResult.mk false [str "Invalid JSON or Schema format"])).

End Schema.

(** *** [queryJSON] *)

(** [key.match(/^\d+$/)]. *)
Definition all_digits (key : jsstring) : bool :=
  negb (is_nil key) && forallb is_digit key.

Fixpoint walk (keys : list jsstring) (current : jsval) : jsval :=
  match keys with
  | [] => current
  | key :: rest =>
      match current with
      | VUndefined | VJson JNull => VUndefined
      | VJson cur =>
          (* Handle array indices *)
          if all_digits key then
            let index := parseInt key in
            match cur with
            | JArray xs =>
                match nth_error xs index with
                | Some x => walk rest (VJson x)
                | None => VUndefined
                end
            | _ => VUndefined
            end
          else walk rest (get_own cur key)
      end
  end.

Definition getValueAtPath (obj : json) (path : jsstring) : jsval :=
  if is_nil path then VJson obj
  else walk (split_on (cu ".") path) (VJson obj).

(** [query.replace(/^\$?\./, '')]. *)
Definition cleanQuery (query : jsstring) : jsstring :=
  match strip_prefix (str "$.") query with
  | Some rest => rest
  | None =>
      match strip_prefix (str ".") query with
      | Some rest => rest
      | None => query
      end
  end.

(** A character [.] of a regular expression matches: not a line terminator. *)
Definition is_line_terminator (c : codeunit) : bool :=
  cu_eqb c 10 || cu_eqb c 13 || cu_eqb c 8232 || cu_eqb c 8233.

Fixpoint span_until (stop : codeunit) (s : jsstring) : jsstring * jsstring :=
  match s with
  | c :: r => if cu_eqb c stop then ([], s)
              else let '(a, b) := span_until stop r in (c :: a, b)
  | [] => ([], [])
  end.

(** The two groups of the match of [cleanQuery] against the pattern of
    "Handle array access": a non-empty run of characters (lazy), then, between
    brackets and up to the end, digits or a star. The index holds no bracket,
    so the bracket that opens it is the last one of [q]. *)
Definition arrayMatch (q : jsstring) : option (jsstring * jsstring) :=
  match rev q with
  | c :: r =>
      if cu_eqb c (cu "]") then
        let '(xedni, r') := span_until (cu "[") r in
        match r' with
        | _ :: htap =>
            let path := rev htap in
            let index := rev xedni in
            if negb (is_nil path)
               && forallb (fun c => negb (is_line_terminator c)) path
               && (jsstring_eqb index (str "*") || all_digits index)
            then Some (path, index) else None
        | [] => None
        end
      else None
  | [] => None
  end.

Definition evaluateJSONPath (obj : json) (query : jsstring) : list jsval :=
  let cleanQuery := cleanQuery query in
  if is_nil cleanQuery then [VJson obj]
  else
    let dot := [getValueAtPath obj cleanQuery] in
    (* Handle array access *)
    match arrayMatch cleanQuery with
    | Some (path, index) =>
        let parent := getValueAtPath obj path in
        match parent with
        | VJson (JArray xs) =>
            if jsstring_eqb index (str "*") then map VJson xs
            else
              let idx := parseInt index in
              match nth_error xs idx with
              | Some x => [VJson x]
              | None => dot
              end
        | _ => dot
        end
    | None => dot
    end.

Definition queryJSON (jsonString query : jsstring) : completion (list jsval) :=
  try_catch
    (parsed <- JSON_parse_c jsonString ;;
     Normal (evaluateJSONPath parsed query))
    (fun _ => Throw (Error (str "Invalid JSON format"))).

(** *** [toXML] *)

(** [s.replace(/c/g, by)] for a pattern of one literal character. *)
Definition replace_char (c : codeunit) (by_ : jsstring) (s : jsstring) : jsstring :=
  flat_map (fun x => if cu_eqb x c then by_ else [x]) s.

(** The five replacements of [convertToXML] on a string, in their order. *)
Definition escaped (obj : jsstring) : jsstring :=
  replace_char 39%N (str "&apos;")
    (replace_char dquote (str "&quot;")
       (replace_char (cu ">") (str "&gt;")
          (replace_char (cu "<") (str "&lt;")
             (replace_char (cu "&") (str "&amp;") obj)))).

(** [key.startsWith('@')]. *)
Definition starts_with_at (key : jsstring) : bool :=
  match key with
  | c :: _ => cu_eqb c (cu "@")
  | [] => false
  end.

(** [key.slice(1)]. *)
Definition slice1 (key : jsstring) : jsstring := skipn 1 key.

(** [`${indent}<${nodeName}>${text}</${nodeName}>`]. *)
Definition element (indent nodeName text : jsstring) : jsstring :=
  indent ++ cu "<" :: nodeName ++ cu ">" :: text ++ str "</" ++ nodeName ++ [cu ">"].

(** The two arrays the callback of [Object.entries(obj).forEach] pushes to. *)
Record xml_parts : Type := mkParts {
  attrs : list jsstring;
  children : list jsstring
}.

Fixpoint convertToXML (obj : json) (nodeName indent : jsstring) {struct obj}
  : completion jsstring :=
  let nextIndent := indent ++ str "  " in
  match obj with
  | JNull => Normal (indent ++ cu "<" :: nodeName ++ js " xsi:nil='true' />")
  | JString s => Normal (element indent nodeName (escaped s))
  | JNumber n => Normal (element indent nodeName (Number_toString n))
  | JBool b => Normal (element indent nodeName (if b then str "true" else str "false"))
  | JArray xs =>
      lines <- map_c (fun item => convertToXML item nodeName indent) xs ;;
      Normal (join [10%N] lines)
  | JObject ps =>
      (* what the callback does on each entry, in the order of the entries *)
      let calls :=
        map (fun m =>
               let key := fst m in
               let value := snd m in
               fun parts =>
                 if starts_with_at key then
                   text <- ToString value ;;
                   Normal (mkParts (attrs parts ++ [slice1 key ++ js "='" ++ text ++ [dquote]])
                             (children parts))
                 else
                   child <- convertToXML value key nextIndent ;;
                   Normal (mkParts (attrs parts) (children parts ++ [child])))
            ps in
      parts <- forEach_c calls (fun call parts => call parts) (mkParts [] []) ;;
      let attrString :=
        if (0 <? List.length (attrs parts))%nat
        then cu " " :: join [cu " "] (attrs parts) else [] in
      if Nat.eqb (List.length (children parts)) 0
      then Normal (indent ++ cu "<" :: nodeName ++ attrString ++ str " />")
      else Normal (indent ++ cu "<" :: nodeName ++ attrString ++ cu ">" :: 10%N
                     :: join [10%N] (children parts)
                     ++ 10%N :: indent ++ str "</" ++ nodeName ++ [cu ">"])
  end.

Definition toXML (jsonString : jsstring) : completion jsstring :=
  try_catch
    (parsed <- JSON_parse_c jsonString ;;
     convertToXML parsed (str "root") [])
    (fun _ => Throw (Error (str "Invalid JSON format"))).

End JSONProcessor.

(* ================================================================= *)
(** ** The earlier version of the class *)

(** [json-tools/src/utils/jsonProcessor.ts] holds an earlier version of the
    class, without the diff, schema and query methods. Its [validate],
    [minify], [sortKeys] and [getStats] are those above. Its [format]
    declares [parsed] with [const] and assigns to it when [sortKeys] is set,
    which in ECMAScript throws a [TypeError] once the right-hand side is
    evaluated; its [process] always formats. *)
Module JSONProcessorEarlier.

Definition format (jsonString : jsstring) (options : JSONProcessingOptions.t) : jsstring :=
  try_or
    (parsed <- JSON_parse_c jsonString ;;
     parsed <- (if JSONProcessingOptions.sortKeys options
                then (_ <- JSONProcessor.sortKeys ThisClass parsed ;; Throw TypeError)
                else Normal parsed) ;;
     Normal (stringify (JSONProcessingOptions.indent options) parsed))
    jsonString.

Section Process.
Variable SyntaxError_message : jsstring -> jsstring.

Definition process (jsonString : jsstring) (options : JSONProcessingOptions.t)
  : completion JSONProcessingResult.t :=
  validation <- JSONProcessor.validate SyntaxError_message jsonString ;;
  if negb (JSONValidationResult.valid validation) then
    Normal (JSONProcessingResult.mk jsonString jsonString validation
              (Stats.mk (List.length jsonString) (List.length jsonString) 0 0 0))
  else
    parsed <- JSON_parse_c jsonString ;;
    let formatted := format jsonString options in
    let minified := JSONProcessor.minify jsonString in
    let stats := JSONProcessor.getStats parsed in
    Normal (JSONProcessingResult.mk formatted minified validation
              (Stats.mk (List.length jsonString) (List.length formatted)
                 (JSONProcessor.c_objects stats) (JSONProcessor.c_arrays stats)
                 (JSONProcessor.c_primitives stats))).

End Process.

End JSONProcessorEarlier.

(* ================================================================= *)
(** * The vocabulary of the statements *)

Import JSONProcessor.

(** ** Lines and columns, as the specification words them *)

(** The newline characters of a text. *)
Definition newlines (s : jsstring) : nat :=
  List.length (filter (fun c => cu_eqb c 10) s).

(** The characters of a text after its last newline. *)
Definition since_last_newline (s : jsstring) : nat :=
  fold_left (fun n c => if cu_eqb c 10 then O else S n) s O.

(** ** The offset a parser message reports *)

(** The number a run of decimal digits writes. *)
Definition decimal (digits : jsstring) : nat :=
  fold_left (fun n c => (10 * n + (N.to_nat c - 48))%nat) digits 0%nat.

(** The message holds, right after [before], the word [position], a space
    and a digit. *)
Definition offset_starts (message before : jsstring) : Prop :=
  exists d after,
    message = before ++ str "position " ++ d :: after /\ is_digit d = true.

(** The offset recoverable from a message: the number written by the digits
    that follow the first [position ] of the message that a digit follows,
    up to the first character that is not a digit. *)
Definition reports_offset (message : jsstring) (offset : nat) : Prop :=
  exists before digits after,
    message = before ++ str "position " ++ digits ++ after
    /\ digits <> []
    /\ forallb is_digit digits = true
    /\ match after with [] => True | c :: _ => is_digit c = false end
    /\ (forall earlier, offset_starts message earlier ->
          (List.length before <= List.length earlier)%nat)
    /\ offset = decimal digits.

(** No offset is recoverable from a message. *)
Definition reports_no_offset (message : jsstring) : Prop :=
  forall before, ~ offset_starts message before.

(** ** Values without keys *)

(** A value without own enumerable keys: neither composite nor a non-empty
    string. *)
Definition keyless (v : json) : bool :=
  match v with
  | JNull | JBool _ | JNumber _ => true
  | JString s => is_nil s
  | JArray _ | JObject _ => false
  end.

(** ** Induction on values *)

(** The induction principle of the values, with the hypothesis of induction
    on every element of an Array and on every value of an Object. *)
Section JsonInduction.
Context {A : Type} (P : json_of A -> Prop).
Hypothesis Hnull : P JNull.
Hypothesis Hbool : forall b, P (JBool b).
Hypothesis Hnumber : forall n, P (JNumber n).
Hypothesis Hstring : forall s, P (JString s).
Hypothesis Harray : forall xs, Forall P xs -> P (JArray xs).
Hypothesis Hobject : forall ps, Forall (fun m => P (snd m)) ps -> P (JObject ps).

Fixpoint json_induction (v : json_of A) : P v :=
  match v with
  | JNull => Hnull
  | JBool b => Hbool b
  | JNumber n => Hnumber n
  | JString s => Hstring s
  | JArray xs =>
      Harray xs
        ((fix all (l : list (json_of A)) : Forall P l :=
            match l with
            | [] => Forall_nil P
            | x :: r => Forall_cons x (json_induction x) (all r)
            end) xs)
  | JObject ps =>
      Hobject ps
        ((fix all (l : list (jsstring * json_of A)) : Forall (fun m => P (snd m)) l :=
            match l with
            | [] => Forall_nil _
            | m :: r => Forall_cons m (json_induction (snd m)) (all r)
            end) ps)
  end.

End JsonInduction.

(** ** Texts that [JSON.parse] reads back *)

(** A text of white space only. *)
Definition all_ws (s : jsstring) : Prop := forallb is_ws s = true.

(** What may follow a number in a text: not a number character. *)
Definition ends_token (rest : jsstring) : Prop :=
  match rest with
  | [] => True
  | c :: _ => is_numchar c = false
  end.

Section Readable.
Context {A : Type}.
Variable conv : jsstring -> option A.
Variable build : list (jsstring * json_of A) -> list (jsstring * json_of A).
Variable pr : A -> jsstring.

(** A number whose text is a token that reads back as the number. *)
Definition good_number (a : A) : Prop :=
  pr a <> [] /\ forallb is_numchar (pr a) = true /\ conv (pr a) = Some a.

(** A value of good numbers whose objects [build] leaves as they are. *)
Fixpoint readable (v : json_of A) : Prop :=
  match v with
  | JNumber a => good_number a
  | JArray xs => fold_right (fun x acc => readable x /\ acc) True xs
  | JObject ps =>
      build ps = ps /\ fold_right (fun m acc => readable (snd m) /\ acc) True ps
  | _ => True
  end.

(** Fuel enough to read a value back. *)
Fixpoint weight (v : json_of A) : nat :=
  match v with
  | JArray xs => 2 + fold_right (fun x n => weight x + n) 0 xs
  | JObject ps => 2 + fold_right (fun m n => weight (snd m) + n) 0 ps
  | _ => 1
  end%nat.

(** The white space [SerializeJSONArray] puts before an element and before
    the closing bracket. *)
Definition lead (gap ind : jsstring) : jsstring :=
  if is_nil gap then [] else 10%N :: ind ++ gap.

(** The white space before the closing bracket. *)
Definition trail (gap ind : jsstring) : jsstring :=
  if is_nil gap then [] else 10%N :: ind.

(** The space [SerializeJSONObject] puts after the colon of a member. *)
Definition colon_space (gap : jsstring) : jsstring :=
  if is_nil gap then [] else [32%N].

(** The text of a member of an Object. *)
Definition member_text (gap ind : jsstring) (m : jsstring * json_of A) : jsstring :=
  quote (fst m) ++ cu ":" :: colon_space gap ++ serialize pr gap (ind ++ gap) (snd m).

(** The first character of a text tells the parser what follows. *)
Definition starts_value (s : jsstring) : Prop :=
  exists c r, s = c :: r /\ is_ws c = false
              /\ cu_eqb c (cu "]") = false /\ cu_eqb c (cu "}") = false.

(** What the main statement says of one value. *)
Definition reads_back (v : json_of A) : Prop :=
  readable v ->
  forall gap ind rest fuel,
    all_ws gap -> all_ws ind -> ends_token rest -> (weight v <= fuel)%nat ->
    parse_value conv build fuel (serialize pr gap ind v ++ rest) = Some (v, rest).

End Readable.

(** ** The order of the properties of an object *)

(** [a] may come before [b] among the keys of an object: indices first, in
    increasing order, then the other keys, each once. *)
Definition key_before (a b : jsstring) : Prop :=
  match array_index a, array_index b with
  | Some i, Some j => i < j
  | Some _, None => True
  | None, Some _ => False
  | None, None => a <> b
  end.

(** Keys in the order of the properties of an ordinary object. *)
Fixpoint ordered (ks : list jsstring) : Prop :=
  match ks with
  | [] => True
  | k :: r => Forall (key_before k) r /\ ordered r
  end.

(** A value as [JSON.parse] builds them: the keys of every object in order. *)
Fixpoint canonical {A : Type} (v : json_of A) : Prop :=
  match v with
  | JArray xs => fold_right (fun x acc => canonical x /\ acc) True xs
  | JObject ps =>
      ordered (map fst ps) /\ fold_right (fun m acc => canonical (snd m) /\ acc) True ps
  | _ => True
  end.

(** ** Numbers that survive a round trip *)

(** A number that [JSON.stringify] writes as a number literal which
    [JSON.parse] reads as the same number. *)
Definition number_stable (n : number) : bool :=
  negb (is_nil (number_text n))
  && forallb is_numchar (number_text n)
  && match number_of_token (number_text n) with
     | Some m => number_eqb m n
     | None => false
     end.

(** A value whose numbers all are. *)
Fixpoint numbers_stable (v : json) : bool :=
  match v with
  | JNumber n => number_stable n
  | JArray xs => forallb numbers_stable xs
  | JObject ps => forallb (fun m => numbers_stable (snd m)) ps
  | _ => true
  end.

(** ** Values with the same text *)

(** A value with its numbers replaced by their texts, as [JSON.stringify]
    writes them: a number that is not finite is written [null]. *)
Fixpoint token (v : json) : json_of jsstring :=
  match v with
  | JNull => JNull
  | JBool b => JBool b
  | JNumber n => if number_is_finite n then JNumber (Number_toString n) else JNull
  | JString s => JString s
  | JArray xs => JArray (map token xs)
  | JObject ps => JObject (map (fun m => (fst m, token (snd m))) ps)
  end.

(** Two values [JSON.stringify] writes alike. *)
Definition same_text (a b : json) : Prop := token a = token b.

(** The same, for operands that may be [undefined]. *)
Definition same_text_val (x y : jsval) : Prop :=
  match x, y with
  | VUndefined, VUndefined => True
  | VJson a, VJson b => same_text a b
  | _, _ => False
  end.

(** ** Diff texts *)

(** [spaces] in [generateDiff]. *)
Definition spaces (indent : nat) : jsstring := repeat_string (str "  ") indent.

(** A relation between two values, for operands that may be [undefined]. *)
Definition related_val (related : json -> json -> Prop) (x y : jsval) : Prop :=
  match x, y with
  | VUndefined, VUndefined => True
  | VJson a, VJson b => related a b
  | _, _ => False
  end.

(** The own keys of a value, each once, in the order of [sort]. *)
Definition keys_of (x : jsval) : list jsstring :=
  sort_strings (set_of (keys_or_empty x)).

(** The compact text of a value, as a diff line shows it. *)
Definition compact_text (x : jsval) : jsstring :=
  match x with
  | VUndefined => str "undefined"
  | VJson v => stringify 0 v
  end.

(** An Object, not an Array. *)
Definition is_plain_object (x : jsval) : bool :=
  match x with VJson (JObject _) => true | _ => false end.

(** An unchanged line at a level: the indentation of the level, the
    two-space mark, the key between quotes, a colon and the text. *)
Definition unchanged_line (indent : nat) (key text : jsstring) : jsstring :=
  spaces indent ++ js "  '" ++ key ++ js "': " ++ text ++ [10%N].

(** The two lines around the inner entries of an unchanged composite. *)
Definition block_open (indent : nat) (key : jsstring) : jsstring :=
  spaces indent ++ js "  '" ++ key ++ js "': {" ++ [10%N].

Definition block_close (indent : nat) : jsstring :=
  spaces indent ++ str "  }" ++ [10%N].

(** [unchanged_listing indent x keys diff]: the diff text holds, for the
    members of [x] under [keys], in their order, one unchanged entry each and
    nothing else. The entry of a member that is no Object is the unchanged
    line with its key and its compact text; the entry of a composite member
    is a block, whose inside is in turn the listing of that member over all
    its keys. An Object is always a block, an Array is a line or a block. *)
Inductive unchanged_listing : nat -> jsval -> list jsstring -> jsstring -> Prop :=
| listing_end (indent : nat) (x : jsval) : unchanged_listing indent x [] []
| listing_line (indent : nat) (x : jsval) (keys : list jsstring)
    (key diff : jsstring) :
    unchanged_listing indent x keys diff ->
    is_plain_object (get x key) = false ->
    unchanged_listing indent x (keys ++ [key])
      (diff ++ unchanged_line indent key (compact_text (get x key)))
| listing_block (indent : nat) (x : jsval) (keys : list jsstring)
    (key diff inner : jsstring) :
    unchanged_listing indent x keys diff ->
    is_object (get x key) = true ->
    unchanged_listing (S indent) (get x key) (keys_of (get x key)) inner ->
    unchanged_listing indent x (keys ++ [key])
      (diff ++ block_open indent key ++ inner ++ block_close indent).

(** ** Sorted keys *)

(** The order of [Array.prototype.sort] without a comparator, on strings. *)
Definition jsstring_lt (a b : jsstring) : Prop := jsstring_ltb a b = true.

(** A key that is an array index. *)
Definition is_index (k : jsstring) : bool :=
  match array_index k with Some _ => true | None => false end.

(** The key an assignment does not define. *)
Definition proto_key : jsstring := str "__proto__".

(** An element on which the bare callback of [obj.map(this.sortKeys)] does
    not reach for [this]: neither an Array nor an Object with a key. *)
Definition plain_element (v : json) : bool :=
  match v with
  | JArray _ => false
  | JObject ps => is_nil ps
  | _ => true
  end.

(** No Array of the value has an element that is an Array or a non-empty
    Object. *)
Fixpoint arrays_plain (v : json) : bool :=
  match v with
  | JArray xs => forallb plain_element xs
  | JObject ps => forallb (fun m => arrays_plain (snd m)) ps
  | _ => true
  end.

(** The assignments [sorted[key] = values[key]], key after key. *)
Definition assign_all (values : list (jsstring * json)) (keys : list jsstring)
  (sorted : list (jsstring * json)) : list (jsstring * json) :=
  fold_left (fun sorted key =>
               match lookup key values with
               | Some v => assign key v sorted
               | None => sorted
               end) keys sorted.

(** The value with the keys of every Object sorted, as the specification
    words it: Arrays element-wise, Objects rebuilt key by key in the order
    of [sort]. *)
Fixpoint sorted_value (v : json) : json :=
  match v with
  | JArray xs => JArray (map sorted_value xs)
  | JObject ps =>
      JObject (assign_all (map (fun m => (fst m, sorted_value (snd m))) ps)
                 (sort_strings (map fst ps)) [])
  | _ => v
  end.

(** Keys in the order of a sorted Object: the array indices first, in
    ascending numeric order, then the other keys in ascending order of their
    code units. *)
Definition sorted_keys (ks : list jsstring) : Prop :=
  ordered ks
  /\ StronglySorted jsstring_lt (filter (fun a => negb (is_index a)) ks).

(** [w] is [v] with the keys of every Object sorted: the same elements in
    the same order in every Array, the same value under every key of every
    Object, but for a key [__proto__], which an assignment does not define. *)
#[local] Unset Elimination Schemes.
Inductive sorted_copy : json -> json -> Prop :=
| copy_null : sorted_copy JNull JNull
| copy_bool (b : bool) : sorted_copy (JBool b) (JBool b)
| copy_number (n : number) : sorted_copy (JNumber n) (JNumber n)
| copy_string (s : jsstring) : sorted_copy (JString s) (JString s)
| copy_array (xs ys : list json) :
    Forall2 sorted_copy xs ys -> sorted_copy (JArray xs) (JArray ys)
| copy_object (ps qs : list (jsstring * json)) :
    sorted_keys (map fst qs) ->
    lookup proto_key qs = None ->
    (forall k a, k <> proto_key -> lookup k ps = Some a ->
       exists b, lookup k qs = Some b /\ sorted_copy a b) ->
    (forall k, lookup k ps = None -> lookup k qs = None) ->
    sorted_copy (JObject ps) (JObject qs).
#[local] Set Elimination Schemes.

(** ** Fuel of the parser *)

Section Settled.
Context {A : Type}.
Variable conv : jsstring -> option A.
Variable build : list (jsstring * json_of A) -> list (jsstring * json_of A).

(** More fuel than twice the length of the input changes nothing. *)
Definition value_settled (s : jsstring) : Prop :=
  forall f1 f2, (2 * List.length s + 1 <= f1)%nat -> (2 * List.length s + 1 <= f2)%nat ->
    parse_value conv build f1 s = parse_value conv build f2 s.

(** The same for the elements of an Array after the first. *)
Definition elements_settled (s : jsstring) : Prop :=
  forall f1 f2, (2 * List.length s + 2 <= f1)%nat -> (2 * List.length s + 2 <= f2)%nat ->
    parse_elements conv build f1 s = parse_elements conv build f2 s.

(** The same for the members of an Object after the first. *)
Definition members_settled (s : jsstring) : Prop :=
  forall f1 f2, (2 * List.length s + 2 <= f1)%nat -> (2 * List.length s + 2 <= f2)%nat ->
    parse_members conv build f1 s = parse_members conv build f2 s.

End Settled.

(** ** Further vocabulary *)

(** The Objects among the nodes of a value. *)
Fixpoint objects_in (v : json) : nat :=
  match v with
  | JArray xs => fold_right (fun x n => objects_in x + n) 0 xs
  | JObject ps => S (fold_right (fun m n => objects_in (snd m) + n) 0 ps)
  | _ => 0
  end%nat.

(** The Arrays among the nodes of a value. *)
Fixpoint arrays_in (v : json) : nat :=
  match v with
  | JArray xs => S (fold_right (fun x n => arrays_in x + n) 0 xs)
  | JObject ps => fold_right (fun m n => arrays_in (snd m) + n) 0 ps
  | _ => 0
  end%nat.

(** The nodes of a value that are neither. *)
Fixpoint primitives_in (v : json) : nat :=
  match v with
  | JArray xs => fold_right (fun x n => primitives_in x + n) 0 xs
  | JObject ps => fold_right (fun m n => primitives_in (snd m) + n) 0 ps
  | _ => 1
  end%nat.

(** The nodes of a value. *)
Fixpoint nodes (v : json) : nat :=
  match v with
  | JArray xs => S (fold_right (fun x n => nodes x + n) 0 xs)
  | JObject ps => S (fold_right (fun m n => nodes (snd m) + n) 0 ps)
  | _ => 1
  end%nat.

(** A text that does not parse, or parses to a value whose numbers survive
    being written and read again. *)
Definition stable_text (T : jsstring) : Prop :=
  match JSON_parse T with
  | Some v => numbers_stable v = true
  | None => True
  end.

(** Two values that differ at most in the order of the keys of their
    Objects: two Arrays of the same length with such elements, two Objects
    with the same keys and such values under each, or two values with the
    same compact text. *)
Fixpoint same_members (a b : json) {struct a} : bool :=
  match a, b with
  | JArray xs, JArray ys =>
      (fix all2 (xs ys : list json) {struct xs} : bool :=
         match xs, ys with
         | [], [] => true
         | x :: xs', y :: ys' => same_members x y && all2 xs' ys'
         | _, _ => false
         end) xs ys
  | JObject ps, JObject qs =>
      forallb (fun q => has_key (fst q) ps) qs
      && forallb (fun m => match lookup (fst m) qs with
                           | Some y => same_members (snd m) y
                           | None => false
                           end) ps
  | _, _ => jsstring_eqb (stringify 0 a) (stringify 0 b)
  end.

(** The same, for operands that may be [undefined]. *)
Definition same_members_val (x y : jsval) : Prop :=
  match x, y with
  | VUndefined, VUndefined => True
  | VJson a, VJson b => same_members a b = true
  | _, _ => False
  end.

(** ** Reads that stay on own properties *)

(** The names every Object inherits from [Object.prototype]. *)
Definition Object_prototype_names : list jsstring :=
  [str "constructor"; str "__defineGetter__"; str "__defineSetter__";
   str "hasOwnProperty"; str "__lookupGetter__"; str "__lookupSetter__";
   str "isPrototypeOf"; str "propertyIsEnumerable"; str "toString";
   str "valueOf"; str "__proto__"; str "toLocaleString"].

(** The read [x[key]], or the test [key in x], finds an own property, or
    finds nothing on [x] and nothing up its prototype chain either: [x] is
    [null] or [undefined], on which no read is made; or [x] has the key; or
    the key is an array index, which no prototype has; or [x] is an Object and
    the key is none of the names of [Object.prototype]. *)
Definition own_read (x : jsval) (key : jsstring) : bool :=
  match x with
  | VUndefined | VJson JNull => true
  | VJson (JObject members) =>
      has_key key members || negb (existsb (jsstring_eqb key) Object_prototype_names)
  | VJson v => negb (is_undefined (get_own v key)) || is_index key
  end.

(** Every read [getValueAtPath] makes along the keys is such a read. *)
Fixpoint own_walk (keys : list jsstring) (current : jsval) : bool :=
  match keys with
  | [] => true
  | key :: rest =>
      if all_digits key then
        match current with
        | VJson (JArray xs) =>
            match nth_error xs (parseInt key) with
            | Some x => own_walk rest (VJson x)
            | None => true
            end
        | _ => true
        end
      else own_read current key && own_walk rest (get current key)
  end.

Definition own_path (doc : json) (path : jsstring) : bool :=
  is_nil path || own_walk (split_on (cu ".") path) (VJson doc).

(** The reads of [evaluateJSONPath] for the parent of an array access, and
    all its reads. *)
Definition own_parent (doc : json) (query : jsstring) : bool :=
  match arrayMatch (cleanQuery query) with
  | Some (path, _) => own_path doc path
  | None => true
  end.

Definition own_query (doc : json) (query : jsstring) : bool :=
  own_parent doc query && own_path doc (cleanQuery query).

(** ** Marks and changes *)

(** The marks of a modified, added or removed entry. *)
Definition marked (diff : jsstring) : bool :=
  includes (str "+ ") diff || includes (str "- ") diff.

(** The two values differ along a path of keys: under every key of the path,
    a key of one of the two that both read on own properties, they hold
    different compact texts, or one of them nothing; under every key but the
    last they are both composite, and under the last they are not. *)
Fixpoint changed_along (keys : list jsstring) (x y : jsval) : bool :=
  match keys with
  | [] => false
  | key :: rest =>
      existsb (jsstring_eqb key) (keys_or_empty x ++ keys_or_empty y)
      && (own_read x key && own_read y key)
      && negb (option_string_eqb (JSON_stringify 0 (get x key))
                 (JSON_stringify 0 (get y key)))
      && (if is_object (get x key) && is_object (get y key)
          then changed_along rest (get x key) (get y key)
          else is_nil rest)
  end.

(** The keywords [validateAgainstSchema] reads from a schema. *)
Definition schema_keywords : list jsstring :=
  [str "type"; str "properties"; str "items"; str "required"; str "enum";
   str "minimum"; str "maximum"; str "minLength"; str "maxLength";
   str "minItems"; str "maxItems"].

(** A schema Object that has, of those keywords, at most the [allowed] ones. *)
Definition only_keywords (allowed : list jsstring) (members : list (jsstring * json)) : bool :=
  forallb (fun k => existsb (jsstring_eqb k) allowed || negb (has_key k members))
    schema_keywords.

(** A schema that is not [null] and has none of the keywords. *)
Definition without_keywords (schema : json) : bool :=
  match schema with
  | JNull => false
  | JObject members => only_keywords [] members
  | _ => true
  end.

(** [`${path}: Expected type ${expected}, got ${actual}`]. *)
Definition type_error (path expected actual : jsstring) : jsstring :=
  path ++ str ": Expected type " ++ expected ++ str ", got " ++ actual.

(** [`${path}.${key}: Required property missing`]. *)
Definition missing_error (path key : jsstring) : jsstring :=
  path ++ cu "." :: key ++ str ": Required property missing".

(** [schema.enum.includes(data)]. *)
Definition enum_includes (values : list json) (data : json) : bool :=
  existsb (fun v => same_value_zero v data) values.

(** The entity that stands for a character of XML markup. *)
Definition escape_char (c : codeunit) : jsstring :=
  if cu_eqb c (cu "&") then str "&amp;"
  else if cu_eqb c (cu "<") then str "&lt;"
  else if cu_eqb c (cu ">") then str "&gt;"
  else if cu_eqb c dquote then str "&quot;"
  else if cu_eqb c 39 then str "&apos;"
  else [c].

(** A character that is not [<], [>], a double quote or an apostrophe. *)
Definition not_markup (c : codeunit) : bool :=
  negb (cu_eqb c (cu "<")) && negb (cu_eqb c (cu ">"))
  && negb (cu_eqb c dquote) && negb (cu_eqb c 39).

(** A completion that is not abrupt. *)
Definition is_normal {A : Type} (c : completion A) : bool :=
  match c with Normal _ => true | Throw _ => false end.

(** A value [convertToXML] converts without throwing: in every Object it
    reaches, every value under a key that starts with [@] is one [ToString]
    turns into a string. *)
Fixpoint convertible (v : json) : bool :=
  match v with
  | JArray xs => forallb convertible xs
  | JObject ps =>
      forallb (fun m => if starts_with_at (fst m)
                        then is_normal (ToString (snd m))
                        else convertible (snd m)) ps
  | _ => true
  end.

(** The order of the keys of a sorted Object: an array index before a key
    that is none, two indices by their numbers, two other keys by their
    code units. *)
Definition sorted_before (a b : jsstring) : Prop :=
  match array_index a, array_index b with
  | Some i, Some j => i < j
  | Some _, None => True
  | None, Some _ => False
  | None, None => jsstring_lt a b
  end.

(** A value without a key [__proto__], at any depth. *)
Fixpoint no_proto (v : json) : bool :=
  match v with
  | JArray xs => forallb no_proto xs
  | JObject ps =>
      forallb (fun m => negb (jsstring_eqb (fst m) proto_key) && no_proto (snd m)) ps
  | _ => true
  end.

(** A character that is not a control character. *)
Definition not_control (c : codeunit) : bool := (32 <=? c)%N.

(* ================================================================= *)
(** * Properties *)

(** ** Strings *)

Lemma cu_eqb_eq (a b : codeunit) : cu_eqb a b = true <-> a = b.
Proof. apply N.eqb_eq. Qed.

Lemma cu_eqb_refl (a : codeunit) : cu_eqb a a = true.
Proof. apply N.eqb_refl. Qed.

Lemma jsstring_eqb_eq (a b : jsstring) : jsstring_eqb a b = true <-> a = b.
Proof.
  revert b; induction a as [|x a IH]; intros [|y b]; simpl; split; intro H;
    try reflexivity; try discriminate.
  - apply andb_true_iff in H as [H1 H2].
    apply cu_eqb_eq in H1; apply IH in H2; congruence.
  - injection H as -> ->. rewrite cu_eqb_refl. apply IH. reflexivity.
Qed.

Lemma jsstring_eqb_refl (a : jsstring) : jsstring_eqb a a = true.
Proof. apply jsstring_eqb_eq; reflexivity. Qed.

Lemma jsstring_eqb_neq (a b : jsstring) : jsstring_eqb a b = false <-> a <> b.
Proof.
  split; intro H.
  - intro E; apply jsstring_eqb_eq in E; congruence.
  - destruct (jsstring_eqb a b) eqn:E; [apply jsstring_eqb_eq in E; contradiction | reflexivity].
Qed.

Lemma strip_prefix_app (p s : jsstring) : strip_prefix p (p ++ s) = Some s.
Proof. induction p as [|c p IH]; simpl; [reflexivity | now rewrite cu_eqb_refl]. Qed.

Lemma strip_prefix_Some (p s r : jsstring) : strip_prefix p s = Some r -> s = p ++ r.
Proof.
  revert s; induction p as [|c p IH]; intros [|d s]; simpl; intro H;
    try discriminate; try (injection H as <-; reflexivity).
  destruct (cu_eqb c d) eqn:E; [|discriminate].
  apply cu_eqb_eq in E; subst d. f_equal. now apply IH.
Qed.

Lemma split_on_not_nil (sep : codeunit) (s : jsstring) : split_on sep s <> [].
Proof.
  induction s as [|c r IH]; simpl; [discriminate|].
  destruct (cu_eqb c sep); [discriminate|].
  destruct (split_on sep r); discriminate.
Qed.

Lemma nth_error_last {T : Type} (l : list T) (d : T) :
  l <> [] -> nth_error l (List.length l - 1) = Some (last l d).
Proof.
  induction l as [|x l IH]; [congruence|]; intros _.
  destruct l as [|y l]; [reflexivity|].
  replace (List.length (x :: y :: l) - 1)%nat with (S (List.length (y :: l) - 1))
    by (simpl; lia).
  change (nth_error (y :: l) (List.length (y :: l) - 1) = Some (last (y :: l) d)).
  apply IH; discriminate.
Qed.

(** ** Lines and columns, as the specification words them *)

Lemma split_on_length (s : jsstring) :
  List.length (split_on 10%N s) = S (newlines s).
Proof.
  unfold newlines. induction s as [|c r IH]; simpl; [reflexivity|].
  destruct (cu_eqb c 10) eqn:E; simpl.
  - now rewrite IH.
  - destruct (split_on 10%N r); simpl in *; lia.
Qed.

Lemma since_last_newline_acc (s : jsstring) (n : nat) :
  fold_left (fun n c => if cu_eqb c 10 then O else S n) s n
  = (if Nat.eqb (newlines s) 0 then n + List.length (last (split_on 10%N s) [])
     else List.length (last (split_on 10%N s) []))%nat.
Proof.
  unfold newlines. revert n; induction s as [|c r IH]; intro n; simpl.
  - lia.
  - destruct (cu_eqb c 10) eqn:E; simpl.
    + rewrite IH.
      pose proof (split_on_not_nil 10%N r) as Hne.
      destruct (split_on 10%N r) as [|w ws]; [congruence|].
      destruct (List.length (filter (fun c0 => cu_eqb c0 10) r) =? 0)%nat; reflexivity.
    + rewrite IH.
      pose proof (split_on_length r) as Hlen. unfold newlines in Hlen.
      destruct (split_on 10%N r) as [|w ws]; [simpl in Hlen; lia|].
      destruct (List.length (filter (fun c0 => cu_eqb c0 10) r)) eqn:Ec; simpl in *.
      * destruct ws; simpl in *; [lia | lia].
      * destruct ws; simpl in *; [lia | reflexivity].
Qed.

Lemma split_on_last_length (s : jsstring) :
  List.length (last (split_on 10%N s) []) = since_last_newline s.
Proof.
  unfold since_last_newline. rewrite since_last_newline_acc.
  destruct (newlines s =? 0)%nat; reflexivity.
Qed.

(** ** [validate] and [process] *)

Lemma validate_result (message : jsstring -> jsstring) (text : jsstring) :
  exists validation,
    validate message text = Normal validation
    /\ JSONValidationResult.valid validation
       = match JSON_parse text with Some _ => true | None => false end.
Proof.
  unfold validate, JSON_parse_c.
  destruct (JSON_parse text) as [v|]; cbn [bind try_catch].
  - eexists; split; reflexivity.
  - destruct (match_position (message text)) as [digits|].
    + rewrite (nth_error_last (split_on 10%N (substring0 (parseInt digits) text)) [])
        by apply split_on_not_nil.
      eexists; split; reflexivity.
    + eexists; split; reflexivity.
Qed.

Lemma digits_value_decimal (digits : jsstring) (n : nat) :
  forallb is_digit digits = true ->
  Z.to_nat (fold_left (fun acc c => 10 * acc + digit_value c) digits (Z.of_nat n))
  = fold_left (fun n c => (10 * n + (N.to_nat c - 48))%nat) digits n.
Proof.
  revert n. induction digits as [|c ds IH]; intros n H; cbn [fold_left].
  - apply Nat2Z.id.
  - cbn [forallb] in H. apply andb_true_iff in H as [Hc Hds].
    rewrite <- (IH (10 * n + (N.to_nat c - 48))%nat Hds). f_equal. f_equal.
    unfold is_digit in Hc. apply andb_true_iff in Hc as [Hlo _].
    apply N.leb_le in Hlo. unfold digit_value. lia.
Qed.

Lemma parseInt_decimal (digits : jsstring) :
  forallb is_digit digits = true -> parseInt digits = decimal digits.
Proof. apply (digits_value_decimal digits 0). Qed.

Lemma span_digits_spec (s ds r : jsstring) :
  span_digits s = (ds, r) ->
  s = ds ++ r /\ forallb is_digit ds = true
  /\ match r with [] => True | c :: _ => is_digit c = false end.
Proof.
  revert ds r. induction s as [|c s IH]; intros ds r H; cbn [span_digits] in H.
  - injection H as <- <-. repeat split.
  - destruct (is_digit c) eqn:Ec.
    + destruct (span_digits s) as [ds' r'] eqn:E. injection H as <- <-.
      destruct (IH ds' r' eq_refl) as (-> & Hd & Hr).
      repeat split; [cbn [forallb]; now rewrite Ec | exact Hr].
    + injection H as <- <-. repeat split. exact Ec.
Qed.

Lemma span_digits_run (ds r : jsstring) :
  forallb is_digit ds = true ->
  match r with [] => True | c :: _ => is_digit c = false end ->
  span_digits (ds ++ r) = (ds, r).
Proof.
  intros Hd Hr. induction ds as [|c ds IH]; cbn [app].
  - destruct r as [|c r]; [reflexivity|]. cbn [span_digits]. now rewrite Hr.
  - cbn [forallb] in Hd. apply andb_true_iff in Hd as [Hc Hds].
    cbn [span_digits]. now rewrite Hc, (IH Hds).
Qed.

(** A match of the pattern at the very start of a message. *)
Lemma offset_starts_here (message : jsstring) :
  offset_starts message [] <->
  exists rest d ds,
    strip_prefix (str "position ") message = Some rest
    /\ fst (span_digits rest) = d :: ds.
Proof.
  split.
  - intros (d & after & -> & Hd). cbn [app].
    exists (d :: after). rewrite (strip_prefix_app (str "position ") (d :: after)).
    cbn [span_digits]. rewrite Hd. destruct (span_digits after) as [ds r].
    now exists d, ds.
  - intros (rest & d & ds & Hs & Hspan).
    apply strip_prefix_Some in Hs. subst message.
    destruct rest as [|c rest]; [discriminate Hspan|].
    cbn [span_digits] in Hspan. destruct (is_digit c) eqn:Ec; [|discriminate Hspan].
    exists c, rest. split; [reflexivity | exact Ec].
Qed.

Lemma offset_starts_later (c : codeunit) (message before : jsstring) :
  offset_starts (c :: message) (c :: before) <-> offset_starts message before.
Proof.
  split; intros (d & after & E & Hd); exists d, after; split; try exact Hd.
  - cbn [app] in E. now injection E.
  - cbn [app]. now rewrite E.
Qed.

Lemma offset_starts_head (c : codeunit) (message : jsstring) (b : codeunit)
    (before : jsstring) :
  offset_starts (c :: message) (b :: before) -> b = c.
Proof. intros (d & after & E & _). cbn [app] in E. now injection E. Qed.

Lemma match_position_here (message rest : jsstring) (d : codeunit) (ds : jsstring) :
  strip_prefix (str "position ") message = Some rest ->
  fst (span_digits rest) = d :: ds ->
  match_position message = Some (d :: ds).
Proof.
  intros Hs Hspan. destruct message as [|c message]; [discriminate Hs|].
  cbn [match_position]. now rewrite Hs, Hspan.
Qed.

Lemma match_position_later (c : codeunit) (message : jsstring) :
  ~ offset_starts (c :: message) [] ->
  match_position (c :: message) = match_position message.
Proof.
  intro Hno. cbn [match_position].
  destruct (strip_prefix (str "position ") (c :: message)) as [rest|] eqn:Hs;
    [|reflexivity].
  destruct (fst (span_digits rest)) as [|d ds] eqn:Hspan; [reflexivity|].
  exfalso. apply Hno, offset_starts_here. now exists rest, d, ds.
Qed.

(** The pattern finds the offset the message reports. *)
Lemma match_position_reports (message : jsstring) (offset : nat) :
  reports_offset message offset ->
  exists digits, match_position message = Some digits /\ parseInt digits = offset.
Proof.
  intros (before & digits & after & E & Hne & Hd & Hafter & Hfirst & ->).
  exists digits. split; [|now apply parseInt_decimal].
  subst message. induction before as [|c before IH].
  - destruct digits as [|d ds]; [congruence|].
    apply (match_position_here _ ((d :: ds) ++ after)).
    + apply (strip_prefix_app (str "position ")).
    + now rewrite span_digits_run.
  - cbn [app]. rewrite match_position_later.
    + apply IH. intros earlier He.
      apply (offset_starts_later c) in He. apply Hfirst in He.
      cbn [List.length] in He. lia.
    + intro H0. apply Hfirst in H0. cbn [List.length] in H0. lia.
Qed.

(** The pattern finds nothing in a message that reports no offset. *)
Lemma match_position_none (message : jsstring) :
  reports_no_offset message -> match_position message = None.
Proof.
  induction message as [|c message IH]; intro Hno; [reflexivity|].
  rewrite match_position_later by apply Hno.
  apply IH. intros before H. apply (Hno (c :: before)). now apply offset_starts_later.
Qed.

(** A message reports an offset or none. *)
Lemma offset_reported_or_not (message : jsstring) :
  reports_no_offset message \/ exists offset, reports_offset message offset.
Proof.
  induction message as [|c message IH].
  - left. intros before (d & after & E & _).
    destruct before; discriminate E.
  - destruct (strip_prefix (str "position ") (c :: message)) as [rest|] eqn:Hs.
    + destruct (span_digits rest) as [ds after] eqn:Hspan.
      destruct ds as [|d ds].
      * assert (Hno : ~ offset_starts (c :: message) []).
        { intro H. apply offset_starts_here in H as (rest' & d & ds & Hs' & Hd).
          rewrite Hs in Hs'. injection Hs' as <-. rewrite Hspan in Hd. discriminate Hd. }
        destruct IH as [IH | [offset IH]].
        -- left. intros [|b before] H; [now apply Hno|].
           pose proof (offset_starts_head _ _ _ _ H) as ->.
           apply offset_starts_later in H. now apply (IH before).
        -- right. exists offset.
           destruct IH as (before & digits & after' & E & Hne & Hd & Ha & Hfirst & Ho).
           exists (c :: before), digits, after'. repeat split; try assumption.
           ++ cbn [app]. now rewrite E.
           ++ intros [|b earlier] H; [now apply Hno in H|].
              pose proof (offset_starts_head _ _ _ _ H) as ->.
              apply offset_starts_later, Hfirst in H. cbn [List.length]. lia.
      * right. exists (decimal (d :: ds)).
        apply span_digits_spec in Hspan as (-> & Hd & Ha).
        apply strip_prefix_Some in Hs.
        exists [], (d :: ds), after. repeat split; try assumption.
        -- discriminate.
        -- intros earlier _. cbn [List.length]. lia.
    + assert (Hno : ~ offset_starts (c :: message) []).
      { intro H. apply offset_starts_here in H as (rest' & d & ds & Hs' & Hd).
        rewrite Hs in Hs'. discriminate Hs'. }
      destruct IH as [IH | [offset IH]].
      * left. intros [|b before] H; [now apply Hno|].
        pose proof (offset_starts_head _ _ _ _ H) as ->.
        apply offset_starts_later in H. now apply (IH before).
      * right. exists offset.
        destruct IH as (before & digits & after' & E & Hne & Hd & Ha & Hfirst & Ho).
        exists (c :: before), digits, after'. repeat split; try assumption.
        -- cbn [app]. now rewrite E.
        -- intros [|b earlier] H; [now apply Hno in H|].
           pose proof (offset_starts_head _ _ _ _ H) as ->.
           apply offset_starts_later, Hfirst in H. cbn [List.length]. lia.
Qed.

(** A message reports one offset at most. *)
Lemma reports_offset_unique (message : jsstring) (m n : nat) :
  reports_offset message m -> reports_offset message n -> m = n.
Proof.
  intros Hm Hn.
  destruct (match_position_reports _ _ Hm) as (d1 & E1 & <-).
  destruct (match_position_reports _ _ Hn) as (d2 & E2 & <-).
  congruence.
Qed.

Lemma reports_offset_not_none (message : jsstring) (n : nat) :
  reports_offset message n -> ~ reports_no_offset message.
Proof.
  intros (before & digits & after & E & Hne & Hd & _) Hno.
  apply (Hno before). destruct digits as [|d ds]; [congruence|].
  exists d, (ds ++ after). split; [exact E|].
  cbn [forallb] in Hd. now apply andb_true_iff in Hd as [Hd _].
Qed.

(** C7. [validate] never throws: on every text it returns a result. The
    result is [{valid: true}] when the text parses. Otherwise it is not
    valid and carries the parser's message; when the message reports an
    offset, line = newlines before the offset + 1 and column = characters
    since the last newline before the offset + 1; when it reports none, it
    has neither line nor column. *)
Theorem validate_returns_line_and_column (message : jsstring -> jsstring) (text : jsstring) :
  exists result,
    validate message text = Normal result
    /\ (JSON_parse text <> None ->
        result = JSONValidationResult.mk true None None None)
    /\ (JSON_parse text = None ->
        JSONValidationResult.valid result = false
        /\ JSONValidationResult.error result = Some (message text)
        /\ (forall offset, reports_offset (message text) offset ->
              JSONValidationResult.line result
              = Some (newlines (firstn offset text) + 1)%nat
              /\ JSONValidationResult.column result
                 = Some (since_last_newline (firstn offset text) + 1)%nat)
        /\ (reports_no_offset (message text) ->
              JSONValidationResult.line result = None
              /\ JSONValidationResult.column result = None)).
Proof.
  unfold validate, JSON_parse_c.
  destruct (JSON_parse text) as [v|]; cbn [bind try_catch].
  - eexists. split; [reflexivity|]. split; [reflexivity | discriminate].
  - destruct (match_position (message text)) as [digits|] eqn:Em.
    + unfold substring0.
      rewrite (nth_error_last (split_on 10%N (firstn (parseInt digits) text)) [])
        by apply split_on_not_nil.
      rewrite split_on_length, split_on_last_length.
      eexists. split; [reflexivity|]. split; [congruence|]. intros _.
      cbn [JSONValidationResult.valid JSONValidationResult.error
             JSONValidationResult.line JSONValidationResult.column].
      repeat split.
      * destruct (match_position_reports _ _ H) as (ds & E & <-).
        rewrite Em in E. injection E as <-. now rewrite (Nat.add_1_r (newlines _)).
      * destruct (match_position_reports _ _ H) as (ds & E & <-).
        rewrite Em in E. now injection E as <-.
      * apply match_position_none in H. congruence.
      * apply match_position_none in H. congruence.
    + eexists. split; [reflexivity|]. split; [congruence|]. intros _.
      cbn [JSONValidationResult.valid JSONValidationResult.error
             JSONValidationResult.line JSONValidationResult.column].
      repeat split.
      * destruct (match_position_reports _ _ H) as (ds & E & _). congruence.
      * destruct (match_position_reports _ _ H) as (ds & E & _). congruence.
Qed.

(** What the pattern finds is the offset the message reports. *)
Lemma reports_offset_found (message digits : jsstring) :
  match_position message = Some digits -> reports_offset message (parseInt digits).
Proof.
  intro Em. destruct (offset_reported_or_not message) as [Hno | [offset Ho]].
  - apply match_position_none in Hno. congruence.
  - destruct (match_position_reports _ _ Ho) as (ds & E & <-).
    rewrite Em in E. now injection E as <-.
Qed.

Lemma validate_returns_line_and_column_witness :
  validate (fun _ => str "Unexpected token } in JSON at position 12")
    (js "{'a':1," ++ 10%N :: js "'b':}")
  = Normal (JSONValidationResult.mk false
              (Some (str "Unexpected token } in JSON at position 12"))
              (Some 2%nat) (Some 5%nat)).
Proof.
  destruct (validate_returns_line_and_column
              (fun _ => str "Unexpected token } in JSON at position 12")
              (js "{'a':1," ++ 10%N :: js "'b':}")) as (result & Hr & _ & Hfail).
  destruct Hfail as (Hv & He & Hoff & _); [vm_compute; reflexivity|].
  destruct (Hoff 12%nat) as [Hl Hc].
  { apply (reports_offset_found _ (str "12")). reflexivity. }
  rewrite Hr. destruct result as [valid error line column].
  cbn [JSONValidationResult.valid JSONValidationResult.error
         JSONValidationResult.line JSONValidationResult.column] in *.
  rewrite Hv, He, Hl, Hc. reflexivity.
Defined.

(** A message without an offset: the result has neither line nor column. *)
Lemma validate_without_offset_example :
  validate (fun _ => str "Unexpected end of JSON input") (js "{'a':")
  = Normal (JSONValidationResult.mk false
              (Some (str "Unexpected end of JSON input")) None None).
Proof. reflexivity. Qed.

(** C6. On a text that does not parse, [process], in either version of the
    class, returns the text itself as [formatted] and as [minified], a
    validation with [valid: false], and stats that are zero but for [size]
    and [formattedSize], both the length of the text. *)
Theorem process_invalid_text (message : jsstring -> jsstring) (text : jsstring)
    (options : JSONProcessingOptions.t) :
  JSON_parse text = None ->
  exists validation,
    JSONValidationResult.valid validation = false
    /\ process message text options
       = Normal (JSONProcessingResult.mk text text validation
                   (Stats.mk (List.length text) (List.length text) 0 0 0))
    /\ JSONProcessorEarlier.process message text options
       = Normal (JSONProcessingResult.mk text text validation
                   (Stats.mk (List.length text) (List.length text) 0 0 0)).
Proof.
  intro Hfail. destruct (validate_result message text) as (validation & Hv & Hvalid).
  rewrite Hfail in Hvalid. exists validation.
  unfold process, JSONProcessorEarlier.process.
  rewrite Hv. cbn [bind]. rewrite Hvalid.
  repeat split; reflexivity.
Qed.

Lemma process_invalid_text_witness :
  exists validation,
    JSONValidationResult.valid validation = false
    /\ process (fun _ => str "Unexpected token } in JSON at position 5")
         (js "{'a':}") (JSONProcessingOptions.mk 2 false false)
       = Normal (JSONProcessingResult.mk (js "{'a':}") (js "{'a':}") validation
                   (Stats.mk 6 6 0 0 0))
    /\ JSONProcessorEarlier.process (fun _ => str "Unexpected token } in JSON at position 5")
         (js "{'a':}") (JSONProcessingOptions.mk 2 false false)
       = Normal (JSONProcessingResult.mk (js "{'a':}") (js "{'a':}") validation
                   (Stats.mk 6 6 0 0 0)).
Proof.
  apply (process_invalid_text
           (fun _ => str "Unexpected token } in JSON at position 5")
           (js "{'a':}") (JSONProcessingOptions.mk 2 false false)).
  reflexivity.
Defined.

(** ** [queryJSON] *)

Lemma span_until_app (stop : codeunit) (a b : jsstring) :
  forallb (fun c => negb (cu_eqb c stop)) a = true ->
  span_until stop (a ++ stop :: b) = (a, stop :: b).
Proof.
  induction a as [|c a IH]; simpl; intro H.
  - now rewrite cu_eqb_refl.
  - apply andb_true_iff in H as [Hc Ha].
    apply negb_true_iff in Hc. rewrite Hc, (IH Ha). reflexivity.
Qed.

Lemma is_digit_range (c : codeunit) : is_digit c = true <-> (48 <= c <= 57)%N.
Proof.
  unfold is_digit. rewrite andb_true_iff, !N.leb_le. reflexivity.
Qed.

Lemma digits_not_char (stop : codeunit) (ds : jsstring) :
  is_digit stop = false ->
  forallb is_digit ds = true ->
  forallb (fun c => negb (cu_eqb c stop)) ds = true.
Proof.
  intros Hstop H. rewrite forallb_forall in *. intros c Hc.
  apply negb_true_iff. destruct (cu_eqb c stop) eqn:E; [|reflexivity].
  apply cu_eqb_eq in E; subst c. rewrite (H _ Hc) in Hstop. discriminate.
Qed.

Lemma all_digits_not_star (ds : jsstring) :
  all_digits ds = true -> jsstring_eqb ds (str "*") = false.
Proof.
  intro H. apply jsstring_eqb_neq. intros ->. discriminate H.
Qed.

(** The pattern of "Handle array access" on a query [path[digits]]. *)
Lemma arrayMatch_index (path digits : jsstring) :
  path <> [] ->
  forallb (fun c => negb (is_line_terminator c)) path = true ->
  all_digits digits = true ->
  arrayMatch (path ++ cu "[" :: digits ++ [cu "]"]) = Some (path, digits).
Proof.
  intros Hne Hlt Hd. unfold arrayMatch.
  replace (rev (path ++ cu "[" :: digits ++ [cu "]"]))
    with (cu "]" :: rev digits ++ cu "[" :: rev path).
  2:{ rewrite rev_app_distr. simpl. rewrite rev_app_distr. simpl.
      rewrite <- app_assoc. reflexivity. }
  rewrite cu_eqb_refl.
  pose proof Hd as Hd'. unfold all_digits in Hd'.
  apply andb_true_iff in Hd' as [_ Hds].
  rewrite span_until_app.
  2:{ apply digits_not_char; [reflexivity|].
      rewrite forallb_forall in *. intros c Hc. apply Hds. now apply in_rev. }
  rewrite !rev_involutive, Hlt, Hd, orb_true_r.
  destruct path; [congruence | reflexivity].
Qed.

(** C1 (as amended). For a query [<path>[N]] whose path resolves to an Array
    and whose index is out of bounds, [queryJSON] returns one element: what
    plain dot traversal of the whole cleaned query gives. *)
Theorem queryJSON_index_out_of_bounds
    (text query path digits : jsstring) (doc : json) (xs : list json) :
  JSON_parse text = Some doc ->
  cleanQuery query = path ++ cu "[" :: digits ++ [cu "]"] ->
  path <> [] ->
  forallb (fun c => negb (is_line_terminator c)) path = true ->
  all_digits digits = true ->
  getValueAtPath doc path = VJson (JArray xs) ->
  (List.length xs <= parseInt digits)%nat ->
  queryJSON text query = Normal [getValueAtPath doc (cleanQuery query)].
Proof.
  intros Hparse Hq Hne Hlt Hd Hparent Hout.
  unfold queryJSON, JSON_parse_c. rewrite Hparse. simpl.
  unfold evaluateJSONPath. rewrite Hq.
  destruct (is_nil (path ++ cu "[" :: digits ++ [cu "]"])) eqn:En.
  { destruct path; [congruence | discriminate En]. }
  rewrite (arrayMatch_index path digits Hne Hlt Hd), Hparent.
  rewrite (all_digits_not_star digits Hd).
  destruct (nth_error xs (parseInt digits)) eqn:E; [|reflexivity].
  assert (nth_error xs (parseInt digits) <> None) as Hn by congruence.
  apply nth_error_Some in Hn. lia.
Qed.

Lemma queryJSON_index_out_of_bounds_witness :
  queryJSON (js "{'users':[{'name':'Ann'},{'name':'Bo'}]}") (str "$.users[5]")
  = Normal [getValueAtPath
              (JObject [(str "users",
                         JArray [JObject [(str "name", JString (str "Ann"))];
                                 JObject [(str "name", JString (str "Bo"))]])])
              (cleanQuery (str "$.users[5]"))].
Proof.
  apply (queryJSON_index_out_of_bounds
           (js "{'users':[{'name':'Ann'},{'name':'Bo'}]}")
           (str "$.users[5]") (str "users") (str "5") _
           [JObject [(str "name", JString (str "Ann"))];
            JObject [(str "name", JString (str "Bo"))]]).
  - reflexivity.
  - reflexivity.
  - discriminate.
  - reflexivity.
  - reflexivity.
  - reflexivity.
  - vm_compute. lia.
Defined.

(** C1, as stated, fails: [users] resolves to an Array of two elements, 5 is
    out of bounds, and the result has one element, [undefined]. *)
Lemma queryJSON_out_of_bounds_is_not_empty :
  exists doc xs,
    JSON_parse (js "{'users':[{'name':'Ann'},{'name':'Bo'}]}") = Some doc
    /\ getValueAtPath doc (str "users") = VJson (JArray xs)
    /\ List.length xs = 2%nat
    /\ queryJSON (js "{'users':[{'name':'Ann'},{'name':'Bo'}]}") (str "users[5]")
       = Normal [VUndefined].
Proof.
  eexists. eexists. split; [reflexivity|]. split; [reflexivity|].
  split; reflexivity.
Qed.

(** C5: the query [$] is not empty after cleaning (the pattern strips a
    dollar only together with a dot), and resolves as a property name. *)
Theorem queryJSON_dollar_alone :
  cleanQuery (str "$") = str "$"
  /\ queryJSON (js "{'a':1}") (str "$") = Normal [VUndefined].
Proof. split; reflexivity. Qed.

(** The queries that do clean to the empty one return the whole document. *)
Lemma queryJSON_empty_queries (text query : jsstring) (doc : json) :
  JSON_parse text = Some doc ->
  query = [] \/ query = str "." \/ query = str "$." ->
  queryJSON text query = Normal [VJson doc].
Proof.
  intros Hparse Hq. unfold queryJSON, JSON_parse_c. rewrite Hparse.
  destruct Hq as [-> | [-> | ->]]; reflexivity.
Qed.

(** ** [compareJSON] on scalars and on text that looks like a marker *)

Lemma keyless_keys (v : json) : keyless v = true -> keys_or_empty (VJson v) = [].
Proof.
  destruct v as [| | |s| |]; simpl; try reflexivity; try discriminate.
  destruct s; [reflexivity | discriminate].
Qed.

(** C10 (as amended). When both documents are null, a boolean, a number or
    the empty string, the diff is empty and [hasDifferences] is false, even
    for two different values. *)
Theorem compareJSON_keyless_scalars (json1 json2 : jsstring) (v1 v2 : json) :
  JSON_parse json1 = Some v1 ->
  JSON_parse json2 = Some v2 ->
  keyless v1 = true ->
  keyless v2 = true ->
  compareJSON json1 json2 = Normal (DiffResult.mk [] false).
Proof.
  intros H1 H2 K1 K2. unfold compareJSON, JSON_parse_c. rewrite H1, H2. simpl.
  unfold generateDiff. simpl. unfold sortedKeys.
  rewrite (keyless_keys v1 K1), (keyless_keys v2 K2). reflexivity.
Qed.

Lemma compareJSON_keyless_scalars_witness :
  compareJSON (str "1") (str "2") = Normal (DiffResult.mk [] false).
Proof.
  apply (compareJSON_keyless_scalars (str "1") (str "2")
           (JNumber (number_of_decimal false 1 0)) (JNumber (number_of_decimal false 2 0)));
    reflexivity.
Defined.

(** C10, as stated, fails on strings: a string has its indices as keys. *)
Lemma compareJSON_top_level_strings_differ :
  compareJSON (js "'a'") (js "'b'")
  = Normal (DiffResult.mk (js "- '0': 'a'" ++ 10%N :: js "+ '0': 'b'" ++ [10%N]) true).
Proof. reflexivity. Qed.

(** C3: two identical documents, one unchanged line, and [hasDifferences]
    is true, for the text of the value holds a plus sign and a space. *)
Theorem compareJSON_marker_inside_value :
  compareJSON (js "{'a':'x + y'}") (js "{'a':'x + y'}")
  = Normal (DiffResult.mk (js "  'a': 'x + y'" ++ [10%N]) true).
Proof. reflexivity. Qed.

(** C4, as stated, fails on Arrays: two equal Arrays give one unchanged line
    with the compact text of the whole Array, and no block. *)
Lemma compareJSON_equal_arrays_collapse :
  compareJSON (js "{'a':[1,2]}") (js "{'a':[1,2]}")
  = Normal (DiffResult.mk (js "  'a': [1,2]" ++ [10%N]) false).
Proof. reflexivity. Qed.

(* ================================================================= *)
(** ** [JSON.parse] reads back what [JSON.stringify] writes *)

Lemma skip_ws_app (w s : jsstring) : all_ws w -> skip_ws (w ++ s) = skip_ws s.
Proof.
  unfold all_ws. induction w as [|c w IH]; simpl; intro H; [reflexivity|].
  apply andb_true_iff in H as [Hc Hw]. rewrite Hc. now apply IH.
Qed.

Lemma skip_ws_head (c : codeunit) (s : jsstring) :
  is_ws c = false -> skip_ws (c :: s) = c :: s.
Proof. intro H. simpl. now rewrite H. Qed.

Lemma all_ws_repeat (n : nat) : all_ws (repeat 32%N n).
Proof. unfold all_ws. induction n; simpl; auto. Qed.

Lemma all_ws_app (a b : jsstring) : all_ws a -> all_ws b -> all_ws (a ++ b).
Proof. unfold all_ws. intros Ha Hb. rewrite forallb_app, Ha, Hb. reflexivity. Qed.

Lemma span_numchars_app (tok rest : jsstring) :
  forallb is_numchar tok = true -> ends_token rest ->
  span_numchars (tok ++ rest) = (tok, rest).
Proof.
  induction tok as [|c tok IH]; simpl; intros Htok Hrest.
  - destruct rest as [|c r]; [reflexivity|]. simpl in *. now rewrite Hrest.
  - apply andb_true_iff in Htok as [Hc Htok]. rewrite Hc, (IH Htok Hrest). reflexivity.
Qed.

(** *** Strings *)

Lemma hex_value_digit (d : N) : (d < 16)%N -> hex_value (hex_digit d) = Some d.
Proof.
  intro H. unfold hex_digit.
  destruct (d <? 10)%N eqn:E.
  - apply N.ltb_lt in E. unfold hex_value, is_digit.
    replace ((48 <=? 48 + d)%N) with true by (symmetry; apply N.leb_le; lia).
    replace ((48 + d <=? 57)%N) with true by (symmetry; apply N.leb_le; lia).
    cbv [andb]. f_equal. lia.
  - apply N.ltb_ge in E. unfold hex_value, is_digit.
    replace ((87 + d <=? 57)%N) with false by (symmetry; apply N.leb_gt; lia).
    rewrite andb_false_r.
    replace ((97 <=? 87 + d)%N) with true by (symmetry; apply N.leb_le; lia).
    replace ((87 + d <=? 102)%N) with true by (symmetry; apply N.leb_le; lia).
    cbv [andb]. f_equal. lia.
Qed.

Lemma unicode_escape_value (c : codeunit) :
  (c < 65536)%N ->
  hex4_value (hex_digit (c / 4096)) (hex_digit ((c / 256) mod 16))
    (hex_digit ((c / 16) mod 16)) (hex_digit (c mod 16)) = Some c.
Proof.
  intro H. unfold hex4_value.
  assert (H256 : (c / 256 = c / 16 / 16)%N) by (now rewrite N.Div0.div_div).
  assert (H4096 : (c / 4096 = c / 16 / 16 / 16)%N) by (now rewrite !N.Div0.div_div).
  rewrite H4096, H256.
  clear H256 H4096.
  pose proof (N.div_mod' c 16) as E0.
  pose proof (N.div_mod' (c / 16) 16) as E1.
  pose proof (N.div_mod' (c / 16 / 16) 16) as E2.
  pose proof (N.mod_lt c 16) as L0.
  pose proof (N.mod_lt (c / 16) 16) as L1.
  pose proof (N.mod_lt (c / 16 / 16) 16) as L2.
  set (q1 := (c / 16)%N) in *. set (r0 := (c mod 16)%N) in *.
  set (q2 := (q1 / 16)%N) in *. set (r1 := (q1 mod 16)%N) in *.
  set (q3 := (q2 / 16)%N) in *. set (r2 := (q2 mod 16)%N) in *.
  clearbody q1 r0 q2 r1 q3 r2.
  rewrite !hex_value_digit by lia.
  f_equal. lia.
Qed.

Lemma parse_unicode_escape (c : codeunit) (s w rest : jsstring) :
  (c < 65536)%N ->
  parse_string_body s = Some (w, rest) ->
  parse_string_body (unicode_escape c ++ s) = Some (c :: w, rest).
Proof.
  intros Hc Hs. unfold unicode_escape.
  cbn [app parse_string_body].
  change (cu_eqb (cu "\") dquote) with false.
  change (cu_eqb (cu "\") (cu "\")) with true.
  change (cu_eqb (cu "u") (cu "u")) with true.
  cbv iota. now rewrite (unicode_escape_value c Hc), Hs.
Qed.

Lemma parse_string_body_quote_le (n : nat) (s rest : jsstring) :
  (List.length s <= n)%nat ->
  parse_string_body (quote_body s ++ dquote :: rest) = Some (s, rest).
Proof.
  revert s; induction n as [|n IH]; intros [|c s] Hlen; simpl in Hlen; try lia.
  - reflexivity.
  - reflexivity.
  - assert (Hs : forall t, (List.length t <= List.length s)%nat ->
                  parse_string_body (quote_body t ++ dquote :: rest) = Some (t, rest))
      by (intros t Ht; apply IH; lia).
    pose proof (Hs s (le_n _)) as Hs0.
    cbn [quote_body].
    destruct (cu_eqb c 8) eqn:E8;
      [apply cu_eqb_eq in E8; subst c; cbn; now rewrite Hs0|].
    destruct (cu_eqb c 9) eqn:E9;
      [apply cu_eqb_eq in E9; subst c; cbn; now rewrite Hs0|].
    destruct (cu_eqb c 10) eqn:E10;
      [apply cu_eqb_eq in E10; subst c; cbn; now rewrite Hs0|].
    destruct (cu_eqb c 12) eqn:E12;
      [apply cu_eqb_eq in E12; subst c; cbn; now rewrite Hs0|].
    destruct (cu_eqb c 13) eqn:E13;
      [apply cu_eqb_eq in E13; subst c; cbn; now rewrite Hs0|].
    destruct (cu_eqb c 34) eqn:E34;
      [apply cu_eqb_eq in E34; subst c; cbn; now rewrite Hs0|].
    destruct (cu_eqb c 92) eqn:E92;
      [apply cu_eqb_eq in E92; subst c; cbn; now rewrite Hs0|].
    destruct (c <? 32)%N eqn:Ectl.
    { rewrite <- app_assoc. apply parse_unicode_escape; [|exact Hs0].
      apply N.ltb_lt in Ectl. lia. }
    assert (Hlit : forall t u, parse_string_body t = Some (u, rest) ->
                     parse_string_body (c :: t) = Some (c :: u, rest)).
    { intros t u Ht. cbn [parse_string_body].
      change dquote with 34%N. change (cu "\") with 92%N.
      now rewrite E34, E92, Ectl, Ht. }
    destruct (is_high_surrogate c) eqn:Ehi.
    { assert (c < 65536)%N as Hc.
      { unfold is_high_surrogate in Ehi. apply andb_true_iff in Ehi as [_ H].
        apply N.leb_le in H. lia. }
      destruct s as [|d s'].
      - apply (parse_unicode_escape c (dquote :: rest) [] rest Hc). reflexivity.
      - destruct (is_low_surrogate d) eqn:Elo.
        + assert (Hd : parse_string_body (d :: quote_body s' ++ dquote :: rest)
                       = Some (d :: s', rest)).
          { unfold is_low_surrogate in Elo. apply andb_true_iff in Elo as [H1 H2].
            apply N.leb_le in H1, H2.
            cbn [parse_string_body]. change dquote with 34%N. change (cu "\") with 92%N.
            replace (cu_eqb d 34) with false
              by (symmetry; apply N.eqb_neq; lia).
            replace (cu_eqb d 92) with false
              by (symmetry; apply N.eqb_neq; lia).
            replace (d <? 32)%N with false by (symmetry; apply N.ltb_ge; lia).
            change 34%N with dquote.
            rewrite (Hs s') by (simpl; lia). reflexivity. }
          simpl app. apply Hlit. exact Hd.
        + rewrite <- app_assoc. apply parse_unicode_escape; [exact Hc | exact Hs0]. }
    destruct (is_low_surrogate c) eqn:Elo.
    { rewrite <- app_assoc. apply parse_unicode_escape; [|exact Hs0].
      unfold is_low_surrogate in Elo. apply andb_true_iff in Elo as [_ H].
      apply N.leb_le in H. lia. }
    simpl app. apply Hlit. exact Hs0.
Qed.

Lemma parse_string_body_quote (s rest : jsstring) :
  parse_string_body (quote_body s ++ dquote :: rest) = Some (s, rest).
Proof. apply (parse_string_body_quote_le (List.length s)). apply le_n. Qed.

(** *** Values *)

Lemma numchar_cases (c : codeunit) :
  is_numchar c = true ->
  (48 <= c <= 57 \/ c = 45 \/ c = 43 \/ c = 46 \/ c = 101 \/ c = 69)%N.
Proof.
  unfold is_numchar. rewrite !orb_true_iff, is_digit_range.
  unfold cu_eqb. rewrite !N.eqb_eq.
  change (cu "-") with 45%N. change (cu "+") with 43%N. change (cu ".") with 46%N.
  change (cu "e") with 101%N. change (cu "E") with 69%N. tauto.
Qed.

Lemma cu_eqb_false (a b : codeunit) : a <> b -> cu_eqb a b = false.
Proof. intro H. now apply N.eqb_neq. Qed.

Lemma numchar_not_ws (c : codeunit) : is_numchar c = true -> is_ws c = false.
Proof.
  intro H. apply numchar_cases in H. unfold is_ws.
  rewrite !cu_eqb_false by lia. reflexivity.
Qed.

Section ReadBack.
Context {A : Type}.
Variable conv : jsstring -> option A.
Variable build : list (jsstring * json_of A) -> list (jsstring * json_of A).
Variable pr : A -> jsstring.

#[local] Abbreviation good_number := (good_number conv pr).
#[local] Abbreviation readable := (readable conv build pr).
#[local] Abbreviation member_text := (member_text pr).
#[local] Abbreviation reads_back := (reads_back conv build pr).

Lemma weight_pos (v : json_of A) : (1 <= weight v)%nat.
Proof. destruct v; simpl; lia. Qed.

Lemma all_ws_lead (gap ind : jsstring) : all_ws gap -> all_ws ind -> all_ws (lead gap ind).
Proof.
  intros Hg Hi. unfold lead. destruct (is_nil gap); [reflexivity|].
  apply (all_ws_app [10%N]); [reflexivity | now apply all_ws_app].
Qed.

Lemma all_ws_trail (gap ind : jsstring) : all_ws ind -> all_ws (trail gap ind).
Proof.
  intros Hi. unfold trail. destruct (is_nil gap); [reflexivity|].
  now apply (all_ws_app [10%N]).
Qed.

Lemma all_ws_colon_space (gap : jsstring) : all_ws (colon_space gap).
Proof. unfold colon_space. destruct (is_nil gap); reflexivity. Qed.

Lemma serialize_array (gap ind : jsstring) (x : json_of A) (xs : list (json_of A)) :
  serialize pr gap ind (JArray (x :: xs))
  = cu "[" :: lead gap ind
      ++ join (cu "," :: lead gap ind) (map (serialize pr gap (ind ++ gap)) (x :: xs))
      ++ trail gap ind ++ [cu "]"].
Proof.
  unfold lead, trail. cbn [serialize map is_nil].
  destruct (is_nil gap); cbn [app]; [reflexivity|].
  rewrite <- !app_assoc. reflexivity.
Qed.

Lemma serialize_object (gap ind : jsstring) (m : jsstring * json_of A)
    (ps : list (jsstring * json_of A)) :
  serialize pr gap ind (JObject (m :: ps))
  = cu "{" :: lead gap ind
      ++ join (cu "," :: lead gap ind) (map (member_text gap ind) (m :: ps))
      ++ trail gap ind ++ [cu "}"].
Proof.
  unfold lead, trail, member_text, colon_space. cbn [serialize map is_nil].
  destruct (is_nil gap); cbn [app]; [reflexivity|].
  rewrite <- !app_assoc. reflexivity.
Qed.

Lemma serialize_starts (gap ind : jsstring) (v : json_of A) :
  readable v -> starts_value (serialize pr gap ind v).
Proof.
  intro Hv. destruct v as [|[|]|a|s|[|x xs]|[|m ps]].
  - eexists _, _; repeat split; reflexivity.
  - eexists _, _; repeat split; reflexivity.
  - eexists _, _; repeat split; reflexivity.
  - destruct Hv as (Hne & Hnum & _). cbn [serialize].
    destruct (pr a) as [|c r]; [congruence|].
    simpl in Hnum. apply andb_true_iff in Hnum as [Hc _].
    exists c, r. split; [reflexivity|]. split; [now apply numchar_not_ws|].
    apply numchar_cases in Hc.
    change (cu "]") with 93%N. change (cu "}") with 125%N.
    rewrite !cu_eqb_false by lia. split; reflexivity.
  - eexists _, _; repeat split; reflexivity.
  - eexists _, _; repeat split; reflexivity.
  - rewrite serialize_array. eexists _, _; repeat split; reflexivity.
  - eexists _, _; repeat split; reflexivity.
  - rewrite serialize_object. eexists _, _; repeat split; reflexivity.
Qed.

Lemma skip_ws_starts (w s rest : jsstring) :
  all_ws w -> starts_value s -> skip_ws (w ++ s ++ rest) = s ++ rest.
Proof.
  intros Hw (c & r & -> & Hc & _). rewrite skip_ws_app by exact Hw.
  cbn [app]. now apply skip_ws_head.
Qed.

Lemma join_cons (sep p : jsstring) (ps : list jsstring) :
  join sep (p :: ps) = p ++ match ps with [] => [] | _ :: _ => sep ++ join sep ps end.
Proof. destruct ps; simpl; [now rewrite app_nil_r | reflexivity]. Qed.

Lemma join_starts (sep : jsstring) (p : jsstring) (ps : list jsstring) :
  starts_value p -> starts_value (join sep (p :: ps)).
Proof.
  intros (c & r & -> & H). rewrite join_cons. eexists c, _. split; [reflexivity | exact H].
Qed.

(** The parser, one step at a time. *)
Lemma parse_elements_step (f : nat) (s : jsstring) :
  parse_elements conv build (S f) s
  = match parse_value conv build f s with
    | None => None
    | Some (v, r) =>
        match skip_ws r with
        | [] => None
        | c :: r' =>
            if cu_eqb c (cu ",") then
              match parse_elements conv build f (skip_ws r') with
              | Some (vs, rest) => Some (v :: vs, rest)
              | None => None
              end
            else if cu_eqb c (cu "]") then Some ([v], r')
            else None
        end
    end.
Proof. reflexivity. Qed.

Lemma parse_members_step (f : nat) (r0 : jsstring) :
  parse_members conv build (S f) (dquote :: r0)
  = match parse_string_body r0 with
    | None => None
    | Some (k, r1) =>
        match skip_ws r1 with
        | [] => None
        | c1 :: r2 =>
            if cu_eqb c1 (cu ":") then
              match parse_value conv build f (skip_ws r2) with
              | None => None
              | Some (v, r3) =>
                  match skip_ws r3 with
                  | [] => None
                  | c3 :: r4 =>
                      if cu_eqb c3 (cu ",") then
                        match parse_members conv build f (skip_ws r4) with
                        | Some (ms, rest) => Some ((k, v) :: ms, rest)
                        | None => None
                        end
                      else if cu_eqb c3 (cu "}") then Some ([(k, v)], r4)
                      else None
                  end
              end
            else None
        end
    end.
Proof. reflexivity. Qed.

Lemma ends_token_punct (c : codeunit) (s : jsstring) :
  is_numchar c = false -> ends_token (c :: s).
Proof. intro H. exact H. Qed.

Lemma ends_token_ws_then (w : jsstring) (c : codeunit) (s : jsstring) :
  all_ws w -> is_numchar c = false -> ends_token (w ++ c :: s).
Proof.
  intros Hw Hc. destruct w as [|d w]; [exact Hc|].
  unfold all_ws in Hw. simpl in Hw. apply andb_true_iff in Hw as [Hd _].
  simpl. destruct (is_numchar d) eqn:E; [|reflexivity].
  apply numchar_not_ws in E. congruence.
Qed.

Lemma parse_elements_join (gap ind : jsstring) (xs : list (json_of A)) :
  all_ws gap -> all_ws ind ->
  Forall reads_back xs ->
  fold_right (fun x acc => readable x /\ acc) True xs ->
  xs <> [] ->
  forall rest fuel,
    (S (fold_right (fun x n => weight x + n) 0 xs) <= fuel)%nat ->
    parse_elements conv build fuel
      (join (cu "," :: lead gap ind) (map (serialize pr gap (ind ++ gap)) xs)
         ++ trail gap ind ++ cu "]" :: rest)
    = Some (xs, rest).
Proof.
  intros Hg Hi Hall. induction Hall as [|x xs Hx Hxs IH]; [congruence|].
  intros [Rx Rxs] _ rest fuel Hfuel.
  destruct fuel as [|f]; [lia|]. cbn [fold_right] in Hfuel.
  rewrite parse_elements_step. cbn [map]. rewrite join_cons.
  pose proof (weight_pos x) as Wx.
  destruct xs as [|y ys].
  - cbn [map]. rewrite app_nil_r.
    rewrite (Hx Rx gap (ind ++ gap) (trail gap ind ++ cu "]" :: rest) f Hg);
      [| now apply all_ws_app | apply ends_token_ws_then;
                                [now apply all_ws_trail | reflexivity]
       | simpl in Hfuel; lia].
    rewrite skip_ws_app by now apply all_ws_trail.
    reflexivity.
  - cbn [map] in IH |- *. rewrite <- ?app_assoc.
    rewrite (Hx Rx gap (ind ++ gap) _ f Hg);
      [| now apply all_ws_app | reflexivity | lia].
    cbn [app]. rewrite skip_ws_head by reflexivity.
    change (cu_eqb (cu ",") (cu ",")) with true. cbv iota.
    rewrite <- ?app_assoc.
    destruct Rxs as [Ry Rys].
    rewrite skip_ws_starts;
      [| now apply all_ws_lead
       | apply join_starts, serialize_starts; exact Ry].
    rewrite IH; [reflexivity | split; assumption | discriminate |].
    pose proof (weight_pos y). cbn [fold_right] in *. lia.
Qed.

Lemma parse_members_join (gap ind : jsstring) (ps : list (jsstring * json_of A)) :
  all_ws gap -> all_ws ind ->
  Forall (fun m => reads_back (snd m)) ps ->
  fold_right (fun m acc => readable (snd m) /\ acc) True ps ->
  ps <> [] ->
  forall rest fuel,
    (S (fold_right (fun m n => weight (snd m) + n) 0 ps) <= fuel)%nat ->
    parse_members conv build fuel
      (join (cu "," :: lead gap ind) (map (member_text gap ind) ps)
         ++ trail gap ind ++ cu "}" :: rest)
    = Some (ps, rest).
Proof.
  intros Hg Hi Hall. induction Hall as [|[k x] ps Hx Hps IH]; [congruence|].
  intros [Rx Rps] _ rest fuel Hfuel. cbn [snd] in *.
  destruct fuel as [|f]; [lia|]. cbn [fold_right snd] in Hfuel.
  cbn [map]. rewrite join_cons.
  unfold member_text at 1. cbn [fst snd]. unfold quote.
  rewrite <- !app_assoc. cbn [app]. rewrite <- !app_assoc. cbn [app].
  rewrite parse_members_step, parse_string_body_quote.
  cbn [app]. rewrite skip_ws_head by reflexivity.
  change (cu_eqb (cu ":") (cu ":")) with true. cbv iota.
  pose proof (weight_pos x) as Wx.
  assert (Hsk : forall tail,
             skip_ws (colon_space gap ++ serialize pr gap (ind ++ gap) x ++ tail)
             = serialize pr gap (ind ++ gap) x ++ tail).
  { intro tail. apply skip_ws_starts;
      [apply all_ws_colon_space | now apply serialize_starts]. }
  rewrite Hsk.
  destruct ps as [|[k' y] ys].
  - cbn [map app].
    rewrite (Hx Rx gap (ind ++ gap) (trail gap ind ++ cu "}" :: rest) f Hg);
      [| now apply all_ws_app | apply ends_token_ws_then;
                                [now apply all_ws_trail | reflexivity]
       | simpl in Hfuel; lia].
    rewrite skip_ws_app by now apply all_ws_trail.
    reflexivity.
  - cbn [map] in IH |- *. rewrite <- ?app_assoc.
    rewrite (Hx Rx gap (ind ++ gap) _ f Hg);
      [| now apply all_ws_app | reflexivity | lia].
    cbn [app]. rewrite skip_ws_head by reflexivity.
    change (cu_eqb (cu ",") (cu ",")) with true. cbv iota.
    rewrite <- ?app_assoc.
    destruct Rps as [Ry Rys].
    rewrite skip_ws_starts;
      [| now apply all_ws_lead
       | apply join_starts; unfold member_text, quote;
         eexists _, _; repeat split; reflexivity].
    rewrite IH; [reflexivity | split; assumption | discriminate |].
    pose proof (weight_pos y). cbn [fold_right snd] in *. lia.
Qed.

Lemma parse_value_number (f : nat) (a : A) (rest : jsstring) :
  good_number a -> ends_token rest ->
  parse_value conv build (S f) (pr a ++ rest) = Some (JNumber a, rest).
Proof.
  intros (Hne & Hnum & Hconv) Hrest.
  pose proof (span_numchars_app (pr a) rest Hnum Hrest) as Hspan.
  destruct (pr a) as [|c r] eqn:E; [congruence|].
  pose proof Hnum as Hc. simpl in Hc. apply andb_true_iff in Hc as [Hc _].
  apply numchar_cases in Hc.
  cbn [app parse_value] in *.
  change (cu "[") with 91%N. change (cu "{") with 123%N. change dquote with 34%N.
  rewrite !cu_eqb_false by lia.
  change (str "null") with [110; 117; 108; 108]%N.
  change (str "true") with [116; 114; 117; 101]%N.
  change (str "false") with [102; 97; 108; 115; 101]%N.
  cbn [strip_prefix].
  rewrite !cu_eqb_false by lia.
  rewrite Hspan, Hconv. reflexivity.
Qed.

Lemma serialize_array_app (gap ind : jsstring) (x : json_of A) (xs : list (json_of A))
    (rest : jsstring) :
  serialize pr gap ind (JArray (x :: xs)) ++ rest
  = cu "[" :: lead gap ind
      ++ join (cu "," :: lead gap ind) (map (serialize pr gap (ind ++ gap)) (x :: xs))
      ++ trail gap ind ++ cu "]" :: rest.
Proof.
  rewrite serialize_array. cbn [app]. rewrite <- !app_assoc. reflexivity.
Qed.

Lemma serialize_object_app (gap ind : jsstring) (m : jsstring * json_of A)
    (ps : list (jsstring * json_of A)) (rest : jsstring) :
  serialize pr gap ind (JObject (m :: ps)) ++ rest
  = cu "{" :: lead gap ind
      ++ join (cu "," :: lead gap ind) (map (member_text gap ind) (m :: ps))
      ++ trail gap ind ++ cu "}" :: rest.
Proof.
  rewrite serialize_object. cbn [app]. rewrite <- !app_assoc. reflexivity.
Qed.

Lemma parse_value_array_step (f : nat) (w body tail : jsstring) :
  all_ws w -> starts_value body ->
  parse_value conv build (S f) (cu "[" :: w ++ body ++ tail)
  = match parse_elements conv build f (body ++ tail) with
    | Some (vs, rest) => Some (JArray vs, rest)
    | None => None
    end.
Proof.
  intros Hw (c & r & -> & Hws & Hbr & _). cbn [parse_value].
  change (cu_eqb (cu "[") (cu "[")) with true. cbv iota.
  rewrite skip_ws_app by exact Hw. cbn [app].
  rewrite skip_ws_head by exact Hws. now rewrite Hbr.
Qed.

Lemma parse_value_object_step (f : nat) (w body tail : jsstring) :
  all_ws w -> starts_value body ->
  parse_value conv build (S f) (cu "{" :: w ++ body ++ tail)
  = match parse_members conv build f (body ++ tail) with
    | Some (ms, rest) => Some (JObject (build ms), rest)
    | None => None
    end.
Proof.
  intros Hw (c & r & -> & Hws & _ & Hbr). cbn [parse_value].
  change (cu_eqb (cu "{") (cu "[")) with false.
  change (cu_eqb (cu "{") (cu "{")) with true. cbv iota.
  rewrite skip_ws_app by exact Hw. cbn [app].
  rewrite skip_ws_head by exact Hws. now rewrite Hbr.
Qed.

Lemma members_start (sep gap ind : jsstring) (m : jsstring * json_of A)
    (ps : list (jsstring * json_of A)) :
  starts_value (join sep (map (member_text gap ind) (m :: ps))).
Proof.
  cbn [map]. apply join_starts. unfold member_text, quote.
  eexists _, _; repeat split; reflexivity.
Qed.

(** Reading back: the parser returns the value a text was written from, and
    what follows the text. *)
Theorem parse_serialize (v : json_of A) : reads_back v.
Proof.
  induction v as [|b|a|s|xs IH|ps IH] using json_induction;
    intros Hv gap ind rest fuel Hg Hi Hrest Hfuel;
    (destruct fuel as [|f]; [cbn [weight] in Hfuel; lia|]).
  - reflexivity.
  - destruct b; reflexivity.
  - now apply parse_value_number.
  - cbn [serialize]. unfold quote. cbn [app]. rewrite <- app_assoc.
    cbn [app parse_value].
    change (cu_eqb dquote (cu "[")) with false.
    change (cu_eqb dquote (cu "{")) with false.
    change (cu_eqb dquote dquote) with true. cbv iota.
    now rewrite parse_string_body_quote.
  - destruct xs as [|x xs]; [reflexivity|].
    rewrite serialize_array_app, parse_value_array_step;
      [| now apply all_ws_lead
       | cbn [map]; apply join_starts, serialize_starts, (proj1 Hv)].
    rewrite (parse_elements_join gap ind (x :: xs) Hg Hi IH Hv);
      [reflexivity | discriminate | cbn [weight] in Hfuel; lia].
  - destruct ps as [|m ps]; [reflexivity|].
    destruct Hv as [Hbuild Hv].
    rewrite serialize_object_app, parse_value_object_step;
      [| now apply all_ws_lead | apply members_start].
    rewrite (parse_members_join gap ind (m :: ps) Hg Hi IH Hv);
      [now rewrite Hbuild | discriminate | cbn [weight] in Hfuel; lia].
Qed.

End ReadBack.

(** *** Whole texts *)

Lemma join_length (sep : jsstring) (parts : list jsstring) :
  (List.length (List.concat parts) <= List.length (join sep parts))%nat.
Proof.
  induction parts as [|p ps IH]; [apply le_n|].
  rewrite join_cons. cbn [List.concat]. rewrite !length_app.
  destruct ps as [|q qs]; [simpl; lia|].
  rewrite length_app. lia.
Qed.

Section WholeText.
Context {A : Type}.
Variable conv : jsstring -> option A.
Variable build : list (jsstring * json_of A) -> list (jsstring * json_of A).
Variable pr : A -> jsstring.

Lemma weight_length (v : json_of A) :
  readable conv build pr v ->
  forall gap ind,
    (weight v <= 2 * List.length (serialize pr gap ind v))%nat.
Proof.
  induction v as [|b|a|s|xs IH|ps IH] using json_induction; intros Hv gap ind.
  - simpl. lia.
  - destruct b; simpl; lia.
  - destruct Hv as (Hne & _). cbn [serialize weight].
    destruct (pr a); [congruence | simpl; lia].
  - cbn [serialize weight]. unfold quote. simpl. lia.
  - destruct xs as [|x xs]; [simpl; lia|].
    rewrite serialize_array. cbn [weight List.length]. rewrite !length_app.
    pose proof (join_length (cu "," :: lead gap ind)
                  (map (serialize pr gap (ind ++ gap)) (x :: xs))) as Hj.
    assert (Hsum : (fold_right (fun x n => weight x + n) 0 (x :: xs)
                    <= 2 * List.length (List.concat (map (serialize pr gap (ind ++ gap)) (x :: xs))))%nat).
    { clear Hj. revert Hv. induction IH as [|y ys Hy _ IHys]; intro Hv; [simpl; lia|].
      destruct Hv as [Ry Rys]. cbn [fold_right map List.concat]. rewrite length_app.
      specialize (Hy Ry gap (ind ++ gap)). specialize (IHys Rys). lia. }
    simpl List.length at 4. lia.
  - destruct ps as [|m ps]; [simpl; lia|].
    destruct Hv as [_ Hv].
    rewrite serialize_object. cbn [weight List.length]. rewrite !length_app.
    pose proof (join_length (cu "," :: lead gap ind)
                  (map (member_text pr gap ind) (m :: ps))) as Hj.
    assert (Hsum : (fold_right (fun m n => weight (snd m) + n) 0 (m :: ps)
                    <= 2 * List.length (List.concat (map (member_text pr gap ind) (m :: ps))))%nat).
    { clear Hj. revert Hv. induction IH as [|y ys Hy _ IHys]; intro Hv; [simpl; lia|].
      destruct Hv as [Ry Rys]. cbn [fold_right map List.concat]. rewrite length_app.
      specialize (Hy Ry gap (ind ++ gap)). specialize (IHys Rys).
      unfold member_text at 1. rewrite !length_app. simpl List.length.
      rewrite !length_app. lia. }
    simpl List.length at 4. lia.
Qed.

(** A text written from a readable value parses to that value. *)
Theorem parse_text_serialize (v : json_of A) (gap : jsstring) :
  readable conv build pr v -> all_ws gap ->
  parse_text conv build (serialize pr gap [] v) = Some v.
Proof.
  intros Hv Hg. unfold parse_text.
  destruct (serialize_starts conv build pr gap [] v Hv) as (c & r & E & Hws & _).
  rewrite E at 2. rewrite skip_ws_head by exact Hws. rewrite <- E.
  rewrite <- (app_nil_r (serialize pr gap [] v)) at 2.
  rewrite (parse_serialize conv build pr v Hv gap [] []); try easy.
  pose proof (weight_length v Hv gap []). lia.
Qed.

End WholeText.

(* ================================================================= *)
(** ** The order of the properties of an object *)

Lemma fold_right_and_Forall {T : Type} (P : T -> Prop) (l : list T) :
  fold_right (fun x acc => P x /\ acc) True l <-> Forall P l.
Proof.
  induction l as [|x l IH]; simpl; split; intro H; auto.
  - constructor; tauto.
  - inversion H; subst; tauto.
Qed.

Lemma array_index_Some (k : jsstring) (i : Z) :
  array_index k = Some i -> k = digits_of i.
Proof.
  unfold array_index. intro H.
  destruct (forallb is_digit k && jsstring_eqb (digits_of (digits_value k)) k
            && (digits_value k <? 2 ^ 32 - 1)) eqn:E; [|discriminate].
  injection H as <-. apply andb_true_iff in E as [E _].
  apply andb_true_iff in E as [_ E]. apply jsstring_eqb_eq in E. now symmetry.
Qed.

Lemma key_before_neq (a b : jsstring) : key_before a b -> a <> b.
Proof.
  unfold key_before. intros H ->.
  destruct (array_index b); [lia | congruence].
Qed.

Section PropertyOrder.
Context {V : Type}.
Implicit Types (ps : list (jsstring * V)) (k : jsstring) (v : V).

Lemma has_key_false k ps : has_key k ps = false <-> ~ In k (map fst ps).
Proof.
  unfold has_key. induction ps as [|[k' v'] ps IH]; simpl.
  - split; [tauto | reflexivity].
  - destruct (jsstring_eqb k k') eqn:E.
    + apply jsstring_eqb_eq in E. subst. split; [discriminate | tauto].
    + apply jsstring_eqb_neq in E. rewrite IH. split; [intros H [?|?]; congruence | tauto].
Qed.

Lemma replace_value_keys k v ps : map fst (replace_value k v ps) = map fst ps.
Proof.
  induction ps as [|[k' v'] ps IH]; simpl; [reflexivity|].
  destruct (jsstring_eqb k k'); simpl; [reflexivity | now rewrite IH].
Qed.

Lemma replace_value_values (P : V -> Prop) k v ps :
  P v -> Forall (fun m => P (snd m)) ps ->
  Forall (fun m => P (snd m)) (replace_value k v ps).
Proof.
  intros Hv H. induction H as [|[k' v'] ps Hm Hps IH]; simpl; [constructor|].
  destruct (jsstring_eqb k k'); constructor; auto.
Qed.

Lemma insert_index_In i k v ps (m : jsstring * V) :
  In m (insert_index i k v ps) <-> m = (k, v) \/ In m ps.
Proof.
  induction ps as [|[k' v'] ps IH]; simpl; [intuition congruence|].
  destruct (array_index k') as [j|]; [destruct (j <? i)|]; simpl; rewrite ?IH;
    intuition congruence.
Qed.

Lemma insert_index_ordered i k v ps :
  array_index k = Some i -> ~ In k (map fst ps) ->
  ordered (map fst ps) -> ordered (map fst (insert_index i k v ps)).
Proof.
  intros Hk. induction ps as [|[k' v'] ps IH]; intros Hnot Hord.
  - simpl. split; constructor.
  - cbn [insert_index]. cbn [map fst ordered] in Hord. destruct Hord as [Hall Hord].
    assert (Hkk' : k <> k') by (intro; subst; apply Hnot; left; reflexivity).
    assert (Hnot' : ~ In k (map fst ps)) by (intro; apply Hnot; right; assumption).
    assert (Hins : forall j, array_index k' = Some j -> i <= j ->
                     ordered (k :: map fst ((k', v') :: ps))).
    { intros j Hj Hle. cbn [ordered map fst]. split; [|split; assumption].
      assert (i < j).
      { destruct (Z.eq_dec i j) as [->|]; [|lia].
        apply array_index_Some in Hk, Hj. congruence. }
      constructor.
      - unfold key_before. rewrite Hk, Hj. assumption.
      - rewrite Forall_forall in *. intros x Hx. specialize (Hall x Hx).
        unfold key_before in *. rewrite Hk. rewrite Hj in Hall.
        destruct (array_index x); [lia | exact I]. }
    destruct (array_index k') as [j|] eqn:Hj.
    + destruct (j <? i) eqn:Hlt.
      * apply Z.ltb_lt in Hlt. cbn [map fst ordered]. split; [|now apply IH].
        rewrite Forall_forall in *. intros x Hx.
        apply in_map_iff in Hx as (m & <- & Hm).
        apply insert_index_In in Hm as [->|Hm].
        -- cbn [fst]. unfold key_before. rewrite Hj, Hk. exact Hlt.
        -- apply Hall. apply in_map_iff. eauto.
      * apply Z.ltb_ge in Hlt. now apply (Hins j).
    + cbn [ordered map fst]. split; [|split; assumption].
      constructor.
      * unfold key_before. rewrite Hk, Hj. exact I.
      * rewrite Forall_forall in *. intros x Hx. specialize (Hall x Hx).
        unfold key_before in *. rewrite Hk. rewrite Hj in Hall.
        destruct (array_index x); [contradiction | exact I].
Qed.

Lemma ordered_snoc (ks : list jsstring) k :
  ordered ks -> Forall (fun a => key_before a k) ks -> ordered (ks ++ [k]).
Proof.
  induction ks as [|a ks IH]; intros Hord Hall.
  - simpl. split; constructor.
  - destruct Hord as [Ha Hord]. inversion Hall as [|? ? Hak Hall']; subst.
    cbn [app ordered]. split; [|now apply IH].
    apply Forall_app. split; [assumption | constructor; [assumption | constructor]].
Qed.

Lemma ordered_snoc_inv (ks : list jsstring) k :
  ordered (ks ++ [k]) -> ordered ks /\ Forall (fun a => key_before a k) ks.
Proof.
  induction ks as [|a ks IH]; intro H.
  - split; [exact I | constructor].
  - cbn [app ordered] in H. destruct H as [Ha Hord].
    apply Forall_app in Ha as [Ha Hak]. inversion Hak; subst.
    destruct (IH Hord) as [Ho Hall]. split; [split; assumption | constructor; assumption].
Qed.

Lemma define_property_ordered k v ps :
  ordered (map fst ps) -> ordered (map fst (define_property k v ps)).
Proof.
  intro Hord. unfold define_property.
  destruct (has_key k ps) eqn:Hhas.
  - now rewrite replace_value_keys.
  - apply has_key_false in Hhas.
    destruct (array_index k) as [i|] eqn:Hk.
    + now apply insert_index_ordered.
    + rewrite map_app. apply ordered_snoc; [assumption|]. cbn [fst].
      rewrite Forall_forall. intros a Ha. unfold key_before. rewrite Hk.
      destruct (array_index a); [exact I | intro; subst; contradiction].
Qed.

Lemma define_property_values (P : V -> Prop) k v ps :
  P v -> Forall (fun m => P (snd m)) ps ->
  Forall (fun m => P (snd m)) (define_property k v ps).
Proof.
  intros Hv H. unfold define_property.
  destruct (has_key k ps); [now apply replace_value_values|].
  destruct (array_index k) as [i|].
  - rewrite Forall_forall in *. intros m Hm.
    apply insert_index_In in Hm as [->|Hm]; auto.
  - apply Forall_app. split; [assumption | constructor; [assumption | constructor]].
Qed.

Lemma build_object_invariant (I : list (jsstring * V) -> Prop) (ms acc : list (jsstring * V)) :
  (forall k v ps, In (k, v) ms -> I ps -> I (define_property k v ps)) ->
  I acc ->
  I (fold_left (fun o m => define_property (fst m) (snd m) o) ms acc).
Proof.
  revert acc. induction ms as [|[k v] ms IH]; intros acc Hstep Hacc; [exact Hacc|].
  cbn [fold_left fst snd]. apply IH.
  - intros k' v' ps Hin. apply Hstep. now right.
  - apply Hstep; [now left | exact Hacc].
Qed.

Lemma build_object_ordered (ms : list (jsstring * V)) :
  ordered (map fst (build_object ms)).
Proof.
  unfold build_object.
  apply (build_object_invariant (fun ps => ordered (map fst ps))); [|exact I].
  intros k v ps _. apply define_property_ordered.
Qed.

Lemma build_object_values (P : V -> Prop) (ms : list (jsstring * V)) :
  Forall (fun m => P (snd m)) ms ->
  Forall (fun m => P (snd m)) (build_object ms).
Proof.
  intro H. unfold build_object.
  apply (build_object_invariant (fun ps => Forall (fun m => P (snd m)) ps)); [|constructor].
  intros k v ps Hin. apply define_property_values.
  rewrite Forall_forall in H. exact (H _ Hin).
Qed.

Lemma insert_index_last i k v ps :
  Forall (fun a => key_before a k) (map fst ps) -> array_index k = Some i ->
  insert_index i k v ps = ps ++ [(k, v)].
Proof.
  intros Hall Hk. induction ps as [|[k' v'] ps IH]; [reflexivity|].
  cbn [map fst] in Hall. inversion Hall as [|? ? Hb Hall']; subst.
  cbn [insert_index]. unfold key_before in Hb. rewrite Hk in Hb.
  destruct (array_index k') as [j|]; [|contradiction].
  apply Z.ltb_lt in Hb. rewrite Hb. cbn [app]. now rewrite IH.
Qed.

Lemma define_property_last k v ps :
  ordered (map fst ps ++ [k]) -> define_property k v ps = ps ++ [(k, v)].
Proof.
  intro H. apply ordered_snoc_inv in H as [Hord Hall].
  unfold define_property.
  assert (Hhas : has_key k ps = false).
  { apply has_key_false. intro Hin. rewrite Forall_forall in Hall.
    exact (key_before_neq _ _ (Hall _ Hin) eq_refl). }
  rewrite Hhas. destruct (array_index k) as [i|] eqn:Hk; [|reflexivity].
  now apply insert_index_last.
Qed.

(** Defining the properties of an object in their own order gives the object
    back. *)
Lemma build_object_ordered_id (ps : list (jsstring * V)) :
  ordered (map fst ps) -> build_object ps = ps.
Proof.
  unfold build_object.
  assert (H : forall acc, ordered (map fst (acc ++ ps)) ->
            fold_left (fun o m => define_property (fst m) (snd m) o) ps acc = acc ++ ps).
  { induction ps as [|[k v] ps IH]; intros acc Hord.
    - now rewrite app_nil_r.
    - cbn [fold_left fst snd].
      assert (Hpre : ordered (map fst acc ++ [k])).
      { rewrite map_app in Hord. cbn [map fst] in Hord.
        clear IH. revert Hord. generalize (map fst acc) as ks.
        induction ks as [|a ks IHks]; cbn [app ordered]; intros [Ha Ho].
        - split; constructor.
        - split; [|now apply IHks].
          apply Forall_app in Ha as [Ha1 Ha2]. inversion Ha2; subst.
          apply Forall_app. split; [assumption | constructor; [assumption | constructor]]. }
      rewrite (define_property_last k v acc Hpre).
      rewrite IH; rewrite <- app_assoc; [reflexivity | exact Hord]. }
  intro Hord. exact (H [] Hord).
Qed.

End PropertyOrder.

(** ** [JSON.parse] builds canonical values *)

Section ParseCanonical.
Context {A : Type}.
Variable conv : jsstring -> option A.

Ltac break_parse H :=
  repeat match type of H with
         | context [match ?x with _ => _ end] => destruct x eqn:?; try discriminate H
         end;
  try (injection H as <- <-).

Lemma parse_canonical (fuel : nat) :
  (forall s v r, parse_value conv build_object fuel s = Some (v, r) -> canonical v)
  /\ (forall s vs r, parse_elements conv build_object fuel s = Some (vs, r) ->
        Forall canonical vs)
  /\ (forall s ms r, parse_members conv build_object fuel s = Some (ms, r) ->
        Forall (fun m => canonical (snd m)) ms).
Proof.
  induction fuel as [|f (IHv & IHe & IHm)]; [repeat split; intros; discriminate|].
  split; [|split].
  - intros s v r H. cbn [parse_value] in H. break_parse H; cbn [canonical];
      first [ exact I
            | split; exact I
            | apply fold_right_and_Forall; eapply IHe; eassumption
            | split; [apply build_object_ordered|];
              apply fold_right_and_Forall;
              apply (build_object_values canonical); eapply IHm; eassumption ].
  - intros s vs r H. rewrite parse_elements_step in H. break_parse H;
      (constructor; [eapply IHv; eassumption|]);
      first [ constructor | eapply IHe; eassumption ].
  - intros s ms r H. cbn [parse_members] in H. break_parse H;
      (constructor; [cbn [snd]; eapply IHv; eassumption|]);
      first [ constructor | eapply IHm; eassumption ].
Qed.

Lemma parse_text_canonical (text : jsstring) (v : json_of A) :
  parse_text conv build_object text = Some v -> canonical v.
Proof.
  unfold parse_text. intro H.
  destruct (parse_value conv build_object _ _) as [[v' r]|] eqn:E; [|discriminate].
  destruct (skip_ws r); [|discriminate]. injection H as <-.
  eapply (proj1 (parse_canonical _)). eassumption.
Qed.

End ParseCanonical.

Lemma JSON_parse_canonical (text : jsstring) (v : json) :
  JSON_parse text = Some v -> canonical v.
Proof. apply parse_text_canonical. Qed.

(** ** Round trip through [format] *)

Lemma number_eqb_eq (a b : number) : number_eqb a b = true <-> a = b.
Proof.
  destruct a as [s|s m e|s], b as [t|t n f|t]; simpl; split; intro H;
    try discriminate; try (injection H; intros; subst);
    rewrite ?andb_true_iff, ?Bool.eqb_true_iff, ?Pos.eqb_eq, ?Z.eqb_eq in *;
    try tauto; try congruence.
  destruct H as [[? ?] ?]; congruence.
Qed.

Lemma number_stable_good (n : number) :
  number_stable n = true -> good_number number_of_token number_text n.
Proof.
  unfold number_stable, good_number. intro H.
  apply andb_true_iff in H as [H H3]. apply andb_true_iff in H as [H1 H2].
  repeat split.
  - intro E. rewrite E in H1. discriminate.
  - exact H2.
  - destruct (number_of_token (number_text n)); [|discriminate].
    apply number_eqb_eq in H3. now subst.
Qed.

Lemma canonical_readable (v : json) :
  canonical v -> numbers_stable v = true ->
  readable number_of_token build_object number_text v.
Proof.
  induction v as [|b|n|s|xs IH|ps IH] using json_induction; intros Hc Hs;
    try exact I.
  - now apply number_stable_good.
  - cbn [readable canonical numbers_stable] in *.
    apply fold_right_and_Forall. apply fold_right_and_Forall in Hc.
    rewrite forallb_forall in Hs. rewrite Forall_forall in *.
    intros x Hx. apply IH; auto.
  - cbn [readable canonical numbers_stable] in *. destruct Hc as [Hord Hc].
    split; [now apply build_object_ordered_id|].
    apply fold_right_and_Forall. apply fold_right_and_Forall in Hc.
    rewrite forallb_forall in Hs. rewrite Forall_forall in *.
    intros x Hx. apply IH; auto.
Qed.

Lemma all_ws_gap_of (space : Z) : all_ws (gap_of space).
Proof. apply all_ws_repeat. Qed.

(** Parsing what [JSON.stringify(v, null, space)] writes. *)
Lemma JSON_parse_stringify (space : Z) (v : json) :
  canonical v -> numbers_stable v = true ->
  JSON_parse (stringify space v) = Some v.
Proof.
  intros Hc Hs. unfold JSON_parse, stringify.
  apply parse_text_serialize; [now apply canonical_readable | apply all_ws_gap_of].
Qed.

(** C9 (as amended). For a text [T] that parses to a value whose numbers all
    survive being written and read again, parsing [format(T, {indent: 2})]
    gives the value that parsing [T] gives. *)
Theorem format_round_trip (T : jsstring) (v : json) :
  JSON_parse T = Some v ->
  numbers_stable v = true ->
  JSON_parse (format T (JSONProcessingOptions.mk 2 false false)) = Some v.
Proof.
  intros Hparse Hs. unfold format, JSON_parse_c. rewrite Hparse. simpl.
  apply JSON_parse_stringify; [|exact Hs].
  exact (JSON_parse_canonical T v Hparse).
Qed.

Lemma format_round_trip_witness :
  JSON_parse
    (format (js "{'b':[1,-2.5e-3,{'10':'x\n','9':null}],'a':1e21,'c':0.1}")
       (JSONProcessingOptions.mk 2 false false))
  = JSON_parse (js "{'b':[1,-2.5e-3,{'10':'x\n','9':null}],'a':1e21,'c':0.1}").
Proof.
  destruct (JSON_parse (js "{'b':[1,-2.5e-3,{'10':'x\n','9':null}],'a':1e21,'c':0.1}"))
    as [v|] eqn:E; [|discriminate E].
  apply (format_round_trip _ v E).
  vm_compute in E. injection E as <-. vm_compute. reflexivity.
Defined.

(** C9, as stated, fails on a literal that overflows: it parses to Infinity,
    which is written as [null]. *)
Lemma format_round_trip_overflow :
  JSON_parse (str "1e999") = Some (JNumber (NInfinity false))
  /\ format (str "1e999") (JSONProcessingOptions.mk 2 false false) = str "null"
  /\ JSON_parse (format (str "1e999") (JSONProcessingOptions.mk 2 false false))
     = Some JNull.
Proof. split; [|split]; vm_compute; reflexivity. Qed.

(* ================================================================= *)
(** ** [generateDiff]: the bound on the depth is never reached *)

Lemma height_In {A : Type} (x : json_of A) (xs : list (json_of A)) :
  In x xs -> (height x <= fold_right (fun x n => Nat.max (height x) n) O xs)%nat.
Proof.
  induction xs as [|y ys IH]; simpl; [tauto|].
  intros [->|H]; [lia | specialize (IH H); lia].
Qed.

Lemma height_In_snd {A : Type} (m : jsstring * json_of A) (ps : list (jsstring * json_of A)) :
  In m ps -> (height (snd m) <= fold_right (fun m n => Nat.max (height (snd m)) n) O ps)%nat.
Proof.
  induction ps as [|y ys IH]; simpl; [tauto|].
  intros [->|H]; [lia | specialize (IH H); lia].
Qed.

Lemma lookup_In {V : Type} (k : jsstring) (v : V) (ps : list (jsstring * V)) :
  lookup k ps = Some v -> In (k, v) ps.
Proof.
  induction ps as [|[k' v'] ps IH]; simpl; [discriminate|].
  destruct (jsstring_eqb k k') eqn:E.
  - apply jsstring_eqb_eq in E. intro H. injection H as ->. subst. now left.
  - intro H. right. now apply IH.
Qed.

(** A property that is an object lies deeper than its owner. *)
Lemma get_depth (obj : jsval) (key : jsstring) :
  is_object (get obj key) = true -> (depth_of (get obj key) < depth_of obj)%nat.
Proof.
  destruct obj as [|[| | |s|xs|ps]]; simpl; try discriminate.
  - destruct (array_index key); [destruct (nth_error s _)|destruct (jsstring_eqb _ _)];
      discriminate.
  - destruct (array_index key) as [i|].
    + destruct (nth_error xs (Z.to_nat i)) as [x|] eqn:E; [|discriminate].
      intros _. apply nth_error_In in E. apply height_In in E. simpl. lia.
    + destruct (jsstring_eqb _ _); discriminate.
  - destruct (lookup key ps) as [v|] eqn:E; [|discriminate].
    intros _. apply lookup_In, height_In_snd in E. simpl in *. lia.
Qed.

(** [diffKey] calls [recurse] on a property of [obj1] that is an object. *)
Lemma diffKey_ext (rec1 rec2 : jsval -> jsval -> jsstring -> nat -> jsstring)
    (obj1 obj2 : jsval) (path : jsstring) (indent : nat) (diff key : jsstring) :
  (is_object (get obj1 key) = true ->
   forall v2 p i, rec1 (get obj1 key) v2 p i = rec2 (get obj1 key) v2 p i) ->
  diffKey rec1 obj1 obj2 path indent diff key
  = diffKey rec2 obj1 obj2 path indent diff key.
Proof.
  intro H. unfold diffKey.
  destruct (is_object (get obj1 key)) eqn:E; [|reflexivity].
  rewrite (H eq_refl). reflexivity.
Qed.

Lemma fold_left_ext {S K : Type} (f g : S -> K -> S) (l : list K) (s : S) :
  (forall s k, In k l -> f s k = g s k) -> fold_left f l s = fold_left g l s.
Proof.
  revert s. induction l as [|k l IH]; intros s H; [reflexivity|].
  simpl. rewrite (H s k) by now left. apply IH. intros. apply H. now right.
Qed.

Lemma generateDiff_depth_stable (n d1 d2 : nat) (obj1 obj2 : jsval)
    (path : jsstring) (indent : nat) :
  (depth_of obj1 <= n)%nat -> (depth_of obj1 < d1)%nat -> (depth_of obj1 < d2)%nat ->
  generateDiff_depth d1 obj1 obj2 path indent
  = generateDiff_depth d2 obj1 obj2 path indent.
Proof.
  revert d1 d2 obj1 obj2 path indent.
  induction n as [|n IH]; intros d1 d2 obj1 obj2 path indent Hn H1 H2;
    (destruct d1 as [|d1]; [lia|]); (destruct d2 as [|d2]; [lia|]);
    cbn [generateDiff_depth]; apply fold_left_ext; intros diff key _;
    apply diffKey_ext; intros Hobj v2 p i;
    pose proof (get_depth obj1 key Hobj) as Hlt.
  - lia.
  - apply IH; lia.
Qed.

(** The method, as the source has it: a loop over the sorted keys that
    calls the method itself. *)
Lemma generateDiff_unfold (obj1 obj2 : jsval) (path : jsstring) (indent : nat) :
  generateDiff obj1 obj2 path indent
  = fold_left (diffKey generateDiff obj1 obj2 path indent) (sortedKeys obj1 obj2) [].
Proof.
  unfold generateDiff at 1. cbn [generateDiff_depth].
  apply fold_left_ext; intros diff key _.
  apply diffKey_ext; intros Hobj v2 p i.
  pose proof (get_depth obj1 key Hobj) as Hlt.
  unfold generateDiff.
  apply (generateDiff_depth_stable (depth_of (get obj1 key))); lia.
Qed.

(* ================================================================= *)
(** ** Values with the same text *)

Lemma digit_char_is_digit (d : Z) : 0 <= d < 10 -> is_digit (digit_char d) = true.
Proof.
  intro H. apply is_digit_range. unfold digit_char. lia.
Qed.

Lemma digits_of_fuel_digits (f : nat) (n : Z) (acc : jsstring) :
  forallb is_digit acc = true -> forallb is_digit (digits_of_fuel f n acc) = true.
Proof.
  revert n acc. induction f as [|f IH]; intros n acc Hacc; [exact Hacc|].
  cbn [digits_of_fuel].
  assert (Hacc' : forallb is_digit (digit_char (n mod 10) :: acc) = true).
  { cbn [forallb]. rewrite Hacc, digit_char_is_digit; [reflexivity|].
    apply Z.mod_pos_bound. lia. }
  destruct (n <? 10); [exact Hacc' | now apply IH].
Qed.

Lemma digits_of_fuel_not_nil (f : nat) (n : Z) (acc : jsstring) :
  acc <> [] -> digits_of_fuel f n acc <> [].
Proof.
  revert n acc. induction f as [|f IH]; intros n acc Hacc; [exact Hacc|].
  cbn [digits_of_fuel]. destruct (n <? 10); [discriminate | apply IH; discriminate].
Qed.

Lemma digits_of_digits (n : Z) : forallb is_digit (digits_of n) = true.
Proof. now apply digits_of_fuel_digits. Qed.

Lemma digits_of_not_nil (n : Z) : digits_of n <> [].
Proof.
  unfold digits_of. cbn [digits_of_fuel].
  destruct (n <? 10); [discriminate | apply digits_of_fuel_not_nil; discriminate].
Qed.

Lemma digit_numchar (c : codeunit) : is_digit c = true -> is_numchar c = true.
Proof. intro H. unfold is_numchar. now rewrite H. Qed.

Lemma digits_numchars (ds : jsstring) :
  forallb is_digit ds = true -> forallb is_numchar ds = true.
Proof.
  rewrite !forallb_forall. intros H c Hc. apply digit_numchar. auto.
Qed.

Lemma zeros_numchars (n : Z) : forallb is_numchar (zeros n) = true.
Proof. unfold zeros. induction (Z.to_nat n); simpl; auto. Qed.

Lemma forallb_firstn {T : Type} (P : T -> bool) (n : nat) (l : list T) :
  forallb P l = true -> forallb P (firstn n l) = true.
Proof.
  intro H. rewrite <- (firstn_skipn n l), forallb_app in H.
  now apply andb_true_iff in H.
Qed.

Lemma forallb_skipn {T : Type} (P : T -> bool) (n : nat) (l : list T) :
  forallb P l = true -> forallb P (skipn n l) = true.
Proof.
  intro H. rewrite <- (firstn_skipn n l), forallb_app in H.
  now apply andb_true_iff in H.
Qed.

Lemma format_decimal_numchars (ds : jsstring) (n : Z) :
  forallb is_digit ds = true -> forallb is_numchar (format_decimal ds n) = true.
Proof.
  intro Hd. pose proof (digits_numchars ds Hd) as Hn. unfold format_decimal.
  destruct (_ && _).
  { now rewrite forallb_app, Hn, zeros_numchars. }
  destruct (_ && _).
  { rewrite forallb_app. cbn [forallb].
    now rewrite forallb_firstn, forallb_skipn by exact Hn. }
  destruct (_ && _).
  { cbn [forallb]. now rewrite forallb_app, zeros_numchars, Hn. }
  assert (He : forallb is_numchar
                 (cu "e" :: (if 0 <=? n - 1 then cu "+" else cu "-")
                          :: digits_of (Z.abs (n - 1))) = true).
  { cbn [forallb]. rewrite (digits_numchars _ (digits_of_digits _)).
    destruct (0 <=? n - 1); reflexivity. }
  destruct ds as [|d [|d' rest]]; [exact He | |].
  - cbn [forallb] in Hn |- *. apply andb_true_iff in Hn as [-> _]. exact He.
  - cbn [forallb] in Hn. apply andb_true_iff in Hn as [Hd1 Hrest].
    change (forallb is_numchar (d :: cu "." :: (d' :: rest) ++ cu "e"
              :: (if 0 <=? n - 1 then cu "+" else cu "-") :: digits_of (Z.abs (n - 1))) = true).
    cbn [forallb app]. rewrite Hd1. cbn [andb].
    apply andb_true_iff in Hrest as [-> Hrest]. cbn [andb].
    rewrite forallb_app, Hrest. exact He.
Qed.

Lemma format_decimal_not_nil (ds : jsstring) (n : Z) :
  ds <> [] -> format_decimal ds n <> [].
Proof.
  intro Hne. unfold format_decimal.
  destruct ds as [|d rest]; [congruence|]. clear Hne.
  repeat match goal with
         | |- context [if ?b then _ else _] => destruct b
         end;
    try discriminate;
    try (destruct (firstn (Z.to_nat n) (d :: rest)); discriminate);
    try (destruct rest; discriminate).
Qed.

(** The text of a finite number is a run of number characters. *)
Lemma Number_toString_shape (n : number) :
  number_is_finite n = true ->
  Number_toString n <> [] /\ forallb is_numchar (Number_toString n) = true.
Proof.
  destruct n as [s|s m e|s]; intro Hfin; [split; [discriminate | reflexivity] | | discriminate].
  unfold Number_toString.
  destruct (if 0 <=? e then _ else _) as [p q].
  destruct (shortest_digits _ _ _ _ _ _) as [d n'].
  pose proof (format_decimal_numchars (digits_of d) n' (digits_of_digits d)) as Hn.
  pose proof (format_decimal_not_nil (digits_of d) n' (digits_of_not_nil d)) as Hne.
  split.
  - destruct s; [discriminate | exact Hne].
  - rewrite forallb_app, Hn. destruct s; reflexivity.
Qed.

Lemma serialize_token (gap ind : jsstring) (v : json) :
  serialize number_text gap ind v = serialize (fun t => t) gap ind (token v).
Proof.
  revert ind. induction v as [|b|n|s|xs IH|ps IH] using json_induction; intro ind;
    try reflexivity.
  - cbn [token serialize]. unfold number_text. destruct (number_is_finite n); reflexivity.
  - cbn [token serialize]. rewrite map_map.
    replace (map (serialize number_text gap (ind ++ gap)) xs)
      with (map (fun x => serialize (fun t => t) gap (ind ++ gap) (token x)) xs);
      [reflexivity|].
    apply map_ext_in. intros x Hx. rewrite Forall_forall in IH. symmetry. now apply IH.
  - cbn [token serialize]. rewrite map_map. cbn [fst snd].
    replace (map (fun m => quote (fst m) ++ cu ":" :: (if is_nil gap then [] else [32%N])
                            ++ serialize number_text gap (ind ++ gap) (snd m)) ps)
      with (map (fun m => quote (fst m) ++ cu ":" :: (if is_nil gap then [] else [32%N])
                            ++ serialize (fun t => t) gap (ind ++ gap) (token (snd m))) ps);
      [reflexivity|].
    apply map_ext_in. intros m Hm. rewrite Forall_forall in IH.
    now rewrite (IH m Hm).
Qed.

Lemma token_readable (v : json) :
  readable (fun t => Some t) (fun ps => ps) (fun t => t) (token v).
Proof.
  induction v as [|b|n|s|xs IH|ps IH] using json_induction; try exact I.
  - cbn [token]. destruct (number_is_finite n) eqn:E; [|exact I].
    destruct (Number_toString_shape n E) as [Hne Hnum].
    repeat split; assumption.
  - cbn [token readable]. apply fold_right_and_Forall.
    rewrite Forall_forall in *. intros t Ht.
    apply in_map_iff in Ht as (x & <- & Hx). now apply IH.
  - cbn [token readable]. split; [reflexivity|]. apply fold_right_and_Forall.
    rewrite Forall_forall in *. intros t Ht.
    apply in_map_iff in Ht as (m & <- & Hm). cbn [snd]. now apply IH.
Qed.

(** Two values with the same compact text have the same tokens. *)
Theorem stringify_same_text (a b : json) :
  stringify 0 a = stringify 0 b -> same_text a b.
Proof.
  unfold stringify, same_text. rewrite !serialize_token. intro H.
  pose proof (parse_text_serialize (fun t => Some t) (fun ps => ps) (fun t => t)
                (token a) (gap_of 0) (token_readable a) (all_ws_gap_of 0)) as Ha.
  pose proof (parse_text_serialize (fun t => Some t) (fun ps => ps) (fun t => t)
                (token b) (gap_of 0) (token_readable b) (all_ws_gap_of 0)) as Hb.
  rewrite H in Ha. congruence.
Qed.

Lemma same_text_stringify (space : Z) (a b : json) :
  same_text a b -> stringify space a = stringify space b.
Proof.
  unfold stringify, same_text. rewrite !serialize_token. now intros ->.
Qed.

(* ================================================================= *)
(** ** The diff of two values with the same text *)

Lemma nth_error_map_eq {T U : Type} (f : T -> U) (xs ys : list T) (i : nat) :
  map f xs = map f ys ->
  match nth_error xs i, nth_error ys i with
  | Some x, Some y => f x = f y
  | None, None => True
  | _, _ => False
  end.
Proof.
  intro H.
  pose proof (nth_error_map f i xs) as Hx. pose proof (nth_error_map f i ys) as Hy.
  rewrite H in Hx. rewrite Hx in Hy.
  destruct (nth_error xs i), (nth_error ys i); simpl in Hy; congruence || exact I.
Qed.

Lemma lookup_map_eq (ps qs : list (jsstring * json)) (k : jsstring) :
  map (fun m => (fst m, token (snd m))) ps = map (fun m => (fst m, token (snd m))) qs ->
  match lookup k ps, lookup k qs with
  | Some x, Some y => token x = token y
  | None, None => True
  | _, _ => False
  end.
Proof.
  revert qs. induction ps as [|[k1 v1] ps IH]; intros [|[k2 v2] qs] H;
    try discriminate; [exact I|].
  cbn [map fst snd] in H. injection H as Hk Hv Hrest. subst k2.
  cbn [lookup]. destruct (jsstring_eqb k k1); [exact Hv | now apply IH].
Qed.

Lemma same_text_get (a b : json) (key : jsstring) :
  same_text a b -> same_text_val (get (VJson a) key) (get (VJson b) key).
Proof.
  unfold same_text. intro H.
  destruct a as [|b1|n1|s1|xs|ps], b as [|b2|n2|s2|ys|qs]; cbn [token] in H;
    repeat match type of H with
           | context [if ?c then _ else _] => destruct c
           end;
    try discriminate H; try exact I.
  - injection H as ->. cbn [get get_own].
    destruct (array_index key); [destruct (nth_error s2 _)|destruct (jsstring_eqb _ _)];
      simpl; reflexivity || exact I.
  - injection H as H. cbn [get get_own].
    destruct (array_index key) as [i|].
    + pose proof (nth_error_map_eq token xs ys (Z.to_nat i) H) as Hn.
      destruct (nth_error xs _), (nth_error ys _); simpl; tauto.
    + assert (List.length xs = List.length ys) as ->
        by (rewrite <- (length_map token xs), H; apply length_map).
      destruct (jsstring_eqb _ _); simpl; reflexivity || exact I.
  - injection H as H. cbn [get get_own].
    pose proof (lookup_map_eq ps qs key H) as Hl.
    destruct (lookup key ps), (lookup key qs); simpl; tauto.
Qed.

Lemma fold_left_invariant {S K : Type} (I : S -> Prop) (f : S -> K -> S)
    (l : list K) (s : S) :
  (forall s k, I s -> I (f s k)) -> I s -> I (fold_left f l s).
Proof.
  intro H. revert s. induction l as [|k l IH]; intros s Hs; [exact Hs|].
  simpl. apply IH, H, Hs.
Qed.

Lemma set_of_In (x : jsstring) (l : list jsstring) : In x (set_of l) <-> In x l.
Proof.
  induction l as [|k l IH]; cbn [set_of In]; [tauto|].
  rewrite filter_In, IH. split.
  - intros [H | [H _]]; auto.
  - intros [H | H]; [now left|].
    destruct (jsstring_eqb k x) eqn:E.
    + apply jsstring_eqb_eq in E. now left.
    + right. split; [exact H | reflexivity].
Qed.

Lemma filter_filter {T : Type} (f g : T -> bool) (l : list T) :
  filter f (filter g l) = filter (fun x => g x && f x) l.
Proof.
  induction l as [|x l IH]; [reflexivity|]. cbn [filter].
  destruct (g x); cbn [filter andb]; [destruct (f x); now rewrite IH | exact IH].
Qed.

Lemma filter_none {T : Type} (f : T -> bool) (l : list T) :
  (forall x, In x l -> f x = false) -> filter f l = [].
Proof.
  induction l as [|x l IH]; intro H; [reflexivity|]. cbn [filter].
  rewrite (H x (or_introl eq_refl)). apply IH. intros y Hy. apply H. now right.
Qed.

Lemma filter_all {T : Type} (f : T -> bool) (l : list T) :
  (forall x, In x l -> f x = true) -> filter f l = l.
Proof.
  induction l as [|x l IH]; intro H; [reflexivity|]. cbn [filter].
  rewrite (H x (or_introl eq_refl)). f_equal. apply IH. intros y Hy. apply H. now right.
Qed.

(** [new Set([...l1, ...l2])]: the elements of [l1], then those of [l2] that
    [l1] has not. *)
Lemma set_of_app (l1 l2 : list jsstring) :
  set_of (l1 ++ l2)
  = set_of l1 ++ filter (fun k => negb (existsb (fun x => jsstring_eqb x k) l1)) (set_of l2).
Proof.
  induction l1 as [|k l1 IH]; cbn [app set_of existsb].
  - symmetry. now apply filter_all.
  - rewrite IH, filter_app, filter_filter. f_equal. f_equal.
    apply filter_ext. intro x. rewrite negb_orb. apply andb_comm.
Qed.

Lemma set_of_app_subset (l1 l2 : list jsstring) :
  (forall k, In k l2 -> In k l1) -> set_of (l1 ++ l2) = set_of l1.
Proof.
  intro H. rewrite set_of_app, filter_none; [apply app_nil_r|].
  intros x Hx. apply set_of_In, H in Hx. apply negb_false_iff, existsb_exists.
  exists x. split; [exact Hx | apply jsstring_eqb_refl].
Qed.

Lemma same_text_keys (a b : json) :
  same_text a b -> keys_or_empty (VJson a) = keys_or_empty (VJson b).
Proof.
  unfold same_text. intro H.
  destruct a as [|b1|n1|s1|xs|ps], b as [|b2|n2|s2|ys|qs]; cbn [token] in H;
    repeat match type of H with
           | context [if ?c then _ else _] => destruct c
           end;
    try discriminate H; try reflexivity.
  - now injection H as ->.
  - injection H as H. cbn [keys_or_empty]. f_equal.
    rewrite <- (length_map token xs), H. apply length_map.
  - injection H as H. cbn [keys_or_empty].
    apply (f_equal (map fst)) in H. rewrite !map_map in H. cbn [fst] in H.
    exact H.
Qed.

Section Listing.

(** A relation between two documents that carries over to their members, and
    under which two values have the same compact text or are both composite,
    and the second has no key the first has not. *)
Variable related : json -> json -> Prop.

#[local] Abbreviation related_val := (related_val related).

Hypothesis related_get : forall a b key,
  related a b -> related_val (get (VJson a) key) (get (VJson b) key).
Hypothesis related_text : forall a b,
  related a b ->
  stringify 0 a = stringify 0 b \/ is_object (VJson a) && is_object (VJson b) = true.
Hypothesis related_keys : forall a b k,
  related a b -> In k (keys_or_empty (VJson b)) -> In k (keys_or_empty (VJson a)).

Lemma sortedKeys_related (a b : json) :
  related a b -> sortedKeys (VJson a) (VJson b) = keys_of (VJson a).
Proof.
  intro H. unfold sortedKeys, keys_of. f_equal. apply set_of_app_subset.
  intros k. now apply related_keys.
Qed.

Lemma diffKey_listing (recurse : jsval -> jsval -> jsstring -> nat -> jsstring)
    (obj1 obj2 : jsval) (path : jsstring) (indent : nat) (keys : list jsstring)
    (diff key : jsstring) :
  related_val (get obj1 key) (get obj2 key) ->
  (forall a b p, get obj1 key = VJson a -> is_object (VJson a) = true -> related a b ->
     unchanged_listing (S indent) (VJson a) (keys_of (VJson a))
       (recurse (VJson a) (VJson b) p (S indent))) ->
  unchanged_listing indent obj1 keys diff ->
  unchanged_listing indent obj1 (keys ++ [key])
    (diffKey recurse obj1 obj2 path indent diff key).
Proof.
  intros Hrel Hrec Hdiff. unfold diffKey, block, entry.
  fold (spaces indent).
  destruct (get obj1 key) as [|a] eqn:E1, (get obj2 key) as [|b] eqn:E2;
    cbn [related_val] in Hrel; try contradiction.
  - cbn [JSON_stringify option_string_eqb negb is_object andb template].
    pose proof (listing_line indent obj1 keys key diff Hdiff) as L.
    rewrite E1 in L. apply L. reflexivity.
  - cbn [JSON_stringify option_string_eqb is_undefined template].
    assert (Hblock : is_object (VJson a) = true ->
              unchanged_listing indent obj1 (keys ++ [key])
                (((diff ++ spaces indent ++ js "  '" ++ key ++ js "': {" ++ [10%N])
                    ++ recurse (VJson a) (VJson b)
                         (if is_nil path then key else path ++ cu "." :: key) (S indent))
                   ++ spaces indent ++ str "  }" ++ [10%N])).
    { intro Ho.
      pose proof (listing_block indent obj1 keys key diff
                    (recurse (VJson a) (VJson b)
                       (if is_nil path then key else path ++ cu "." :: key) (S indent))
                    Hdiff) as L.
      rewrite E1 in L. specialize (L Ho (Hrec a b _ eq_refl Ho Hrel)).
      unfold block_open, block_close in L. rewrite <- !app_assoc in *. exact L. }
    assert (Hline : is_plain_object (VJson a) = false ->
              unchanged_listing indent obj1 (keys ++ [key])
                (diff ++ spaces indent ++ str "  " ++ dquote :: key ++ js "': "
                   ++ stringify 0 a ++ [10%N])).
    { intro Hp.
      pose proof (listing_line indent obj1 keys key diff Hdiff) as L.
      rewrite E1 in L. exact (L Hp). }
    destruct (jsstring_eqb (stringify 0 a) (stringify 0 b)) eqn:Etext; cbn [negb].
    + destruct (is_object (VJson a) && negb (is_array (VJson a))) eqn:Ek.
      * apply Hblock. now apply andb_true_iff in Ek as [Ek _].
      * apply Hline. destruct a; try reflexivity; discriminate Ek.
    + destruct (related_text a b Hrel) as [Ht | Ho].
      * rewrite Ht, jsstring_eqb_refl in Etext. discriminate.
      * rewrite Ho. apply Hblock. now apply andb_true_iff in Ho as [Ho _].
Qed.

Lemma fold_diffKey_listing (recurse : jsval -> jsval -> jsstring -> nat -> jsstring)
    (a b : json) (path : jsstring) (indent : nat) (keys : list jsstring) :
  related a b ->
  (forall key a' b' p, get (VJson a) key = VJson a' -> is_object (VJson a') = true ->
     related a' b' ->
     unchanged_listing (S indent) (VJson a') (keys_of (VJson a'))
       (recurse (VJson a') (VJson b') p (S indent))) ->
  unchanged_listing indent (VJson a) keys
    (fold_left (diffKey recurse (VJson a) (VJson b) path indent) keys []).
Proof.
  intros Hab Hrec. induction keys as [|key keys IH] using rev_ind; [constructor|].
  rewrite fold_left_app. cbn [fold_left].
  apply diffKey_listing; [now apply related_get | | exact IH].
  intros a' b' p. apply Hrec.
Qed.

Lemma generateDiff_listing (n : nat) :
  forall (a b : json) (path : jsstring) (indent : nat),
    (height a < n)%nat ->
    related a b ->
    unchanged_listing indent (VJson a) (keys_of (VJson a))
      (generateDiff (VJson a) (VJson b) path indent).
Proof.
  induction n as [|n IH]; intros a b path indent Hh Hab; [lia|].
  rewrite generateDiff_unfold, (sortedKeys_related a b Hab).
  apply fold_diffKey_listing; [exact Hab|].
  intros key a' b' p Hget Ho Hrel.
  apply IH; [|exact Hrel].
  pose proof (get_depth (VJson a) key) as Hd. rewrite Hget in Hd.
  specialize (Hd Ho). cbn [depth_of] in Hd. lia.
Qed.

End Listing.

Lemma generateDiff_same_text (a b : json) (path : jsstring) (indent : nat) :
  same_text a b ->
  unchanged_listing indent (VJson a) (keys_of (VJson a))
    (generateDiff (VJson a) (VJson b) path indent).
Proof.
  apply (generateDiff_listing same_text) with (n := S (height a)); [| | |lia].
  - exact same_text_get.
  - intros x y H. left. now apply same_text_stringify.
  - intros x y k H. now rewrite (same_text_keys x y H).
Qed.

(** C4 (as amended). For a key present on both sides with two composite
    values of the same canonical text: two Objects make a block around the
    diff of the two values, which lists the members of the value, each once
    and in the order of [sort], as unchanged entries and holds nothing else;
    two Arrays make one unchanged line with the compact text of the whole
    Array. *)
Theorem diffKey_equal_composites
    (obj1 obj2 : jsval) (path : jsstring) (indent : nat) (diff key : jsstring)
    (v1 v2 : json) :
  get obj1 key = VJson v1 ->
  get obj2 key = VJson v2 ->
  is_object (VJson v1) = true ->
  is_object (VJson v2) = true ->
  stringify 0 v1 = stringify 0 v2 ->
  let currentPath := if is_nil path then key else path ++ cu "." :: key in
  let inner := generateDiff (VJson v1) (VJson v2) currentPath (S indent) in
  diffKey generateDiff obj1 obj2 path indent diff key
  = (if is_array (VJson v1)
     then diff ++ entry (spaces indent) (str "  ") key (stringify 0 v1)
     else block diff (spaces indent) key inner)
  /\ unchanged_listing (S indent) (VJson v1) (keys_of (VJson v1)) inner.
Proof.
  intros H1 H2 O1 O2 Heq currentPath inner. split.
  - unfold diffKey. rewrite H1, H2. cbn [JSON_stringify]. rewrite Heq.
    cbn [option_string_eqb]. rewrite jsstring_eqb_refl. cbn [negb].
    rewrite O1. cbn [andb]. destruct (is_array (VJson v1)); reflexivity.
  - apply generateDiff_same_text. now apply stringify_same_text.
Qed.

Lemma diffKey_equal_composites_witness :
  diffKey generateDiff
    (VJson (JObject [(str "a", JObject [(str "c", JArray [JNull; JBool true])])]))
    (VJson (JObject [(str "a", JObject [(str "c", JArray [JNull; JBool true])])]))
    [] 0 [] (str "a")
  = block [] (spaces 0) (str "a")
      (generateDiff (VJson (JObject [(str "c", JArray [JNull; JBool true])]))
         (VJson (JObject [(str "c", JArray [JNull; JBool true])])) (str "a") 1)
  /\ unchanged_listing 1 (VJson (JObject [(str "c", JArray [JNull; JBool true])]))
       (keys_of (VJson (JObject [(str "c", JArray [JNull; JBool true])])))
       (generateDiff (VJson (JObject [(str "c", JArray [JNull; JBool true])]))
          (VJson (JObject [(str "c", JArray [JNull; JBool true])])) (str "a") 1).
Proof.
  apply (diffKey_equal_composites
           (VJson (JObject [(str "a", JObject [(str "c", JArray [JNull; JBool true])])]))
           (VJson (JObject [(str "a", JObject [(str "c", JArray [JNull; JBool true])])]))
           [] 0%nat [] (str "a")
           (JObject [(str "c", JArray [JNull; JBool true])])
           (JObject [(str "c", JArray [JNull; JBool true])]));
    reflexivity.
Defined.

(** The entries of a listing, read from its end. *)
Lemma listing_last (indent : nat) (x : jsval) (keys : list jsstring)
    (key diff : jsstring) :
  unchanged_listing indent x (keys ++ [key]) diff ->
  exists before,
    unchanged_listing indent x keys before
    /\ ((is_plain_object (get x key) = false
         /\ diff = before ++ unchanged_line indent key (compact_text (get x key)))
        \/ (is_object (get x key) = true
            /\ exists inner,
                 unchanged_listing (S indent) (get x key) (keys_of (get x key)) inner
                 /\ diff = before ++ block_open indent key ++ inner ++ block_close indent)).
Proof.
  intro H. inversion H as [i y E1 E2 | i y ks k d Hd Hp E1 E2 E3 E4
                          | i y ks k d inner Hd Ho Hi E1 E2 E3 E4]; subst.
  - destruct keys; discriminate.
  - apply app_inj_tail in E3 as [-> ->]. exists d. split; [exact Hd|]. left. now split.
  - apply app_inj_tail in E3 as [-> ->]. exists d. split; [exact Hd|]. right.
    split; [exact Ho|]. now exists inner.
Qed.

Lemma listing_none (indent : nat) (x : jsval) (diff : jsstring) :
  unchanged_listing indent x [] diff -> diff = [].
Proof.
  intro H. inversion H as [i y E1 E2 | i y ks k d Hd Hp E1 E2 E3 E4
                          | i y ks k d inner Hd Ho Hi E1 E2 E3 E4]; subst.
  - reflexivity.
  - destruct ks; discriminate.
  - destruct ks; discriminate.
Qed.

(** The diff of a document and the same with one member more is no listing
    of unchanged entries, neither of the one nor of the other. *)
Lemma added_entry_is_no_listing :
  ~ unchanged_listing 0 (VJson (JObject [(str "a", JNumber (number_of_nat 1))]))
      (keys_of (VJson (JObject [(str "a", JNumber (number_of_nat 1))])))
      (generateDiff (VJson (JObject [(str "a", JNumber (number_of_nat 1))]))
         (VJson (JObject [(str "a", JNumber (number_of_nat 1));
                          (str "b", JNumber (number_of_nat 2))])) [] 0)
  /\ ~ unchanged_listing 0
         (VJson (JObject [(str "a", JNumber (number_of_nat 1));
                          (str "b", JNumber (number_of_nat 2))]))
         (keys_of (VJson (JObject [(str "a", JNumber (number_of_nat 1));
                                   (str "b", JNumber (number_of_nat 2))])))
         (generateDiff (VJson (JObject [(str "a", JNumber (number_of_nat 1))]))
            (VJson (JObject [(str "a", JNumber (number_of_nat 1));
                             (str "b", JNumber (number_of_nat 2))])) [] 0).
Proof.
  split; intro H.
  - change (keys_of _) with ([] ++ [str "a"]) in H.
    apply listing_last in H as (before & Hb & [[_ E] | [Ho _]]); [|discriminate Ho].
    apply listing_none in Hb. subst before. vm_compute in E. discriminate E.
  - change (keys_of _) with (([] ++ [str "a"]) ++ [str "b"]) in H.
    apply listing_last in H as (before & Hb & [[_ E] | [Ho _]]); [|discriminate Ho].
    apply listing_last in Hb as (first & Hf & [[_ E'] | [Ho _]]); [|discriminate Ho].
    apply listing_none in Hf. subst first before. vm_compute in E. discriminate E.
Qed.

(* ================================================================= *)
(** ** [keys.sort()] *)

Lemma jsstring_ltb_irrefl (a : jsstring) : jsstring_ltb a a = false.
Proof.
  induction a as [|x a IH]; [reflexivity|]. simpl.
  rewrite N.ltb_irrefl, N.eqb_refl, IH. reflexivity.
Qed.

Lemma jsstring_ltb_trans (a b c : jsstring) :
  jsstring_lt a b -> jsstring_lt b c -> jsstring_lt a c.
Proof.
  unfold jsstring_lt. revert b c.
  induction a as [|x a IH]; intros [|y b] [|z c]; simpl; try discriminate; auto.
  rewrite !orb_true_iff, !andb_true_iff, !N.ltb_lt, !N.eqb_eq.
  intros [H1|[H1 H1']] [H2|[H2 H2']]; subst; try (left; lia); try (left; assumption).
  right. split; [reflexivity | eapply IH; eassumption].
Qed.

Lemma jsstring_ltb_total (a b : jsstring) :
  jsstring_ltb a b = false -> jsstring_ltb b a = false -> a = b.
Proof.
  revert b. induction a as [|x a IH]; intros [|y b]; simpl; try discriminate; auto.
  rewrite !orb_false_iff, !andb_false_iff, !N.ltb_ge, !N.eqb_neq.
  intros [H1 H1'] [H2 H2'].
  assert (x = y) by lia. subst y. f_equal.
  apply IH; [destruct H1' | destruct H2']; congruence.
Qed.

Lemma insert_sorted_In (k x : jsstring) (l : list jsstring) :
  In x (insert_sorted k l) <-> x = k \/ In x l.
Proof.
  induction l as [|y l IH]; simpl; [intuition congruence|].
  destruct (jsstring_ltb y k); simpl; rewrite ?IH; intuition congruence.
Qed.

Lemma sort_strings_In (x : jsstring) (l : list jsstring) :
  In x (sort_strings l) <-> In x l.
Proof.
  unfold sort_strings. induction l as [|y l IH]; simpl; [tauto|].
  rewrite insert_sorted_In, IH. intuition congruence.
Qed.

Lemma insert_sorted_sorted (k : jsstring) (l : list jsstring) :
  ~ In k l -> StronglySorted jsstring_lt l -> StronglySorted jsstring_lt (insert_sorted k l).
Proof.
  intros Hnot Hs. induction Hs as [|y l Hs IH Hall]; simpl.
  - constructor; constructor.
  - destruct (jsstring_ltb y k) eqn:E.
    + constructor; [apply IH; intro; apply Hnot; now right|].
      rewrite Forall_forall in *. intros x Hx.
      apply insert_sorted_In in Hx as [->|Hx]; [exact E | now apply Hall].
    + assert (Hky : jsstring_lt k y).
      { unfold jsstring_lt. destruct (jsstring_ltb k y) eqn:E'; [reflexivity|].
        exfalso. apply Hnot. left. now apply jsstring_ltb_total. }
      constructor; [now constructor|].
      constructor; [exact Hky|].
      rewrite Forall_forall in *. intros x Hx.
      eapply jsstring_ltb_trans; [exact Hky | now apply Hall].
Qed.

(** Distinct keys come out of [sort] in strictly ascending order of their
    code units. *)
Lemma sort_strings_sorted (l : list jsstring) :
  NoDup l -> StronglySorted jsstring_lt (sort_strings l).
Proof.
  unfold sort_strings. induction 1 as [|y l Hnot Hnd IH]; simpl; [constructor|].
  apply insert_sorted_sorted; [|exact IH].
  intro H. apply Hnot. exact (proj1 (sort_strings_In y l) H).
Qed.

Lemma sorted_NoDup (l : list jsstring) : StronglySorted jsstring_lt l -> NoDup l.
Proof.
  induction 1 as [|y l Hs IH Hall]; constructor; [|exact IH].
  intro Hin. rewrite Forall_forall in Hall. specialize (Hall y Hin).
  unfold jsstring_lt in Hall. rewrite jsstring_ltb_irrefl in Hall. discriminate.
Qed.

Lemma sorted_filter (f : jsstring -> bool) (l : list jsstring) :
  StronglySorted jsstring_lt l -> StronglySorted jsstring_lt (filter f l).
Proof.
  induction 1 as [|y l Hs IH Hall]; simpl; [constructor|].
  destruct (f y); [|exact IH]. constructor; [exact IH|].
  rewrite Forall_forall in *. intros x Hx. apply filter_In in Hx as [Hx _]. auto.
Qed.

Lemma ordered_NoDup (ks : list jsstring) : ordered ks -> NoDup ks.
Proof.
  induction ks as [|k ks IH]; intro H; constructor.
  - destruct H as [Hall _]. intro Hin. rewrite Forall_forall in Hall.
    exact (key_before_neq _ _ (Hall _ Hin) eq_refl).
  - apply IH. apply H.
Qed.

(* ================================================================= *)
(** ** Reading a property after [define_property] *)

Section LookupDefine.
Context {V : Type}.
Implicit Types (ps : list (jsstring * V)) (k : jsstring) (v : V).

Lemma lookup_replace_value k k' v ps :
  lookup k' (replace_value k v ps)
  = if jsstring_eqb k' k then (if has_key k ps then Some v else None) else lookup k' ps.
Proof.
  unfold has_key. induction ps as [|[k1 v1] ps IH]; simpl.
  - destruct (jsstring_eqb k' k); reflexivity.
  - destruct (jsstring_eqb k k1) eqn:E1; simpl.
    + apply jsstring_eqb_eq in E1. subst k1.
      destruct (jsstring_eqb k' k); reflexivity.
    + destruct (jsstring_eqb k' k1) eqn:E2.
      * apply jsstring_eqb_eq in E2. subst k1.
        destruct (jsstring_eqb k' k) eqn:E3; [|reflexivity].
        apply jsstring_eqb_eq in E3. subst. rewrite jsstring_eqb_refl in E1. discriminate.
      * exact IH.
Qed.

Lemma lookup_insert_index i k k' v ps :
  has_key k ps = false ->
  lookup k' (insert_index i k v ps) = if jsstring_eqb k' k then Some v else lookup k' ps.
Proof.
  unfold has_key. induction ps as [|[k1 v1] ps IH]; simpl; intro Hno.
  - reflexivity.
  - destruct (jsstring_eqb k k1) eqn:E1; [discriminate|].
    assert (Hcons : lookup k' ((k, v) :: (k1, v1) :: ps)
                    = if jsstring_eqb k' k then Some v else lookup k' ((k1, v1) :: ps))
      by reflexivity.
    destruct (array_index k1) as [j|]; [destruct (j <? i)|]; try exact Hcons.
    simpl. rewrite (IH Hno).
    destruct (jsstring_eqb k' k1) eqn:E2; [|reflexivity].
    apply jsstring_eqb_eq in E2. subst k1.
    destruct (jsstring_eqb k' k) eqn:E3; [|reflexivity].
    apply jsstring_eqb_eq in E3. subst. rewrite jsstring_eqb_refl in E1. discriminate.
Qed.

Lemma lookup_app_last k k' v ps :
  has_key k ps = false ->
  lookup k' (ps ++ [(k, v)]) = if jsstring_eqb k' k then Some v else lookup k' ps.
Proof.
  unfold has_key. induction ps as [|[k1 v1] ps IH]; simpl; intro Hno.
  - reflexivity.
  - destruct (jsstring_eqb k k1) eqn:E1; [discriminate|].
    rewrite (IH Hno).
    destruct (jsstring_eqb k' k1) eqn:E2; [|reflexivity].
    apply jsstring_eqb_eq in E2. subst k1.
    destruct (jsstring_eqb k' k) eqn:E3; [|reflexivity].
    apply jsstring_eqb_eq in E3. subst. rewrite jsstring_eqb_refl in E1. discriminate.
Qed.

(** After [obj[k] = v], [obj[k]] is [v] and the other properties are as
    they were. *)
Lemma lookup_define_property k k' v ps :
  lookup k' (define_property k v ps)
  = if jsstring_eqb k' k then Some v else lookup k' ps.
Proof.
  unfold define_property. destruct (has_key k ps) eqn:Hhas.
  - rewrite lookup_replace_value, Hhas. reflexivity.
  - destruct (array_index k).
    + now apply lookup_insert_index.
    + now apply lookup_app_last.
Qed.

Lemma insert_index_other_keys i k v ps :
  array_index k = Some i ->
  filter (fun a => negb (is_index a)) (map fst (insert_index i k v ps))
  = filter (fun a => negb (is_index a)) (map fst ps).
Proof.
  intro Hk.
  assert (Hskip : forall l, filter (fun a => negb (is_index a)) (k :: l)
                            = filter (fun a => negb (is_index a)) l).
  { intro l. simpl. unfold is_index. now rewrite Hk. }
  induction ps as [|[k1 v1] ps IH]; [apply Hskip|].
  cbn [insert_index].
  destruct (array_index k1) as [j|] eqn:E1; [destruct (j <? i)|]; try apply Hskip.
  cbn [map fst filter]. now rewrite IH.
Qed.

(** The keys that are not indices, after a definition: a new one goes last. *)
Lemma define_property_other_keys k v ps :
  filter (fun a => negb (is_index a)) (map fst (define_property k v ps))
  = filter (fun a => negb (is_index a)) (map fst ps)
      ++ (if has_key k ps || is_index k then [] else [k]).
Proof.
  unfold define_property. destruct (has_key k ps) eqn:Hhas; cbn [orb].
  - now rewrite replace_value_keys, app_nil_r.
  - unfold is_index at 3. destruct (array_index k) as [i|] eqn:Hk.
    + rewrite (insert_index_other_keys i k v ps Hk). now rewrite app_nil_r.
    + rewrite map_app, filter_app. cbn [map fst filter].
      unfold is_index at 2. now rewrite Hk.
Qed.

End LookupDefine.

(* ================================================================= *)
(** ** [sortKeys] *)

Lemma lookup_map_values {V W : Type} (g : V -> W) (ps : list (jsstring * V)) (k : jsstring) :
  lookup k (map (fun m => (fst m, g (snd m))) ps) = option_map g (lookup k ps).
Proof.
  induction ps as [|[k1 v1] ps IH]; simpl; [reflexivity|].
  destruct (jsstring_eqb k k1); [reflexivity | exact IH].
Qed.

Lemma lookup_In_key {V : Type} (ps : list (jsstring * V)) (k : jsstring) :
  In k (map fst ps) -> exists v, lookup k ps = Some v.
Proof.
  intro H. destruct (lookup k ps) as [v|] eqn:E; [eauto|].
  exfalso. revert H. apply (has_key_false k ps). unfold has_key. now rewrite E.
Qed.

Lemma sortKeys_plain (x : json) :
  plain_element x = true -> sortKeys ThisUndefined x = Normal x.
Proof.
  destruct x as [| | | |xs|[|m ps]]; simpl; try reflexivity; discriminate.
Qed.

Lemma sorted_value_plain (x : json) : plain_element x = true -> sorted_value x = x.
Proof.
  destruct x as [| | | |xs|[|m ps]]; simpl; try reflexivity; discriminate.
Qed.

Lemma map_c_plain (xs : list json) :
  forallb plain_element xs = true -> map_c (sortKeys ThisUndefined) xs = Normal xs.
Proof.
  induction xs as [|x xs IH]; simpl; intro H; [reflexivity|].
  apply andb_true_iff in H as [Hx Hxs].
  rewrite (sortKeys_plain x Hx). simpl. rewrite (IH Hxs). reflexivity.
Qed.

Lemma map_sorted_value_plain (xs : list json) :
  forallb plain_element xs = true -> map sorted_value xs = xs.
Proof.
  induction xs as [|x xs IH]; simpl; intro H; [reflexivity|].
  apply andb_true_iff in H as [Hx Hxs].
  now rewrite (sorted_value_plain x Hx), (IH Hxs).
Qed.

Lemma forEach_assign (values : list (jsstring * json)) (keys : list jsstring)
    (sorted : list (jsstring * json)) :
  (forall k, In k keys -> In k (map fst values)) ->
  forEach_c keys
    (fun key sorted =>
       match lookup key (map (fun m => (fst m, Normal (snd m))) values) with
       | Some call => v <- call ;; Normal (assign key v sorted)
       | None => Throw TypeError
       end) sorted
  = Normal (assign_all values keys sorted).
Proof.
  revert sorted. induction keys as [|k keys IH]; intros sorted Hin; [reflexivity|].
  cbn [forEach_c]. unfold assign_all. cbn [fold_left].
  rewrite lookup_map_values.
  destruct (lookup_In_key values k (Hin k (or_introl eq_refl))) as [v Hv].
  rewrite Hv. cbn [option_map bind]. apply IH. intros. apply Hin. now right.
Qed.

(** On a value whose Arrays hold plain elements only, [sortKeys] returns the
    sorted value. *)
Lemma sortKeys_sorted_value (v : json) :
  arrays_plain v = true -> sortKeys ThisClass v = Normal (sorted_value v).
Proof.
  induction v as [|b|n|s|xs IH|ps IH] using json_induction; intro Hp;
    try reflexivity.
  - cbn [arrays_plain] in Hp. cbn [sortKeys sorted_value].
    now rewrite (map_c_plain xs Hp), (map_sorted_value_plain xs Hp).
  - cbn [arrays_plain] in Hp. cbn [sortKeys sorted_value].
    replace (map (fun m => (fst m, sortKeys ThisClass (snd m))) ps)
      with (map (fun m => (fst m, Normal (snd m)))
              (map (fun m => (fst m, sorted_value (snd m))) ps)).
    2:{ rewrite map_map. cbn [fst snd]. apply map_ext_in. intros m Hm.
        rewrite forallb_forall in Hp. rewrite Forall_forall in IH.
        now rewrite (IH m Hm (Hp m Hm)). }
    rewrite forEach_assign; [reflexivity|].
    intros k Hk. apply (proj1 (sort_strings_In _ _)) in Hk.
    rewrite map_map. cbn [fst]. exact Hk.
Qed.

(** *** What the sorted value is *)

Lemma assign_all_cons (values : list (jsstring * json)) (k : jsstring)
    (keys : list jsstring) (acc : list (jsstring * json)) :
  assign_all values (k :: keys) acc
  = assign_all values keys
      (match lookup k values with Some v => assign k v acc | None => acc end).
Proof. reflexivity. Qed.

Lemma assign_ordered (k : jsstring) (v : json) (ps : list (jsstring * json)) :
  ordered (map fst ps) -> ordered (map fst (assign k v ps)).
Proof.
  intro H. unfold assign. destruct (jsstring_eqb k _); [exact H|].
  now apply define_property_ordered.
Qed.

Lemma lookup_assign (k k' : jsstring) (v : json) (ps : list (jsstring * json)) :
  lookup k' (assign k v ps)
  = if jsstring_eqb k' k && negb (jsstring_eqb k proto_key) then Some v else lookup k' ps.
Proof.
  unfold assign. fold proto_key. destruct (jsstring_eqb k proto_key); cbn [negb].
  - now rewrite andb_false_r.
  - now rewrite lookup_define_property, andb_true_r.
Qed.

Lemma assign_all_ordered (values : list (jsstring * json)) (keys : list jsstring)
    (acc : list (jsstring * json)) :
  ordered (map fst acc) -> ordered (map fst (assign_all values keys acc)).
Proof.
  intro H. unfold assign_all.
  apply (fold_left_invariant (fun ps => ordered (map fst ps))); [|exact H].
  intros ps k Hps. destruct (lookup k values); [now apply assign_ordered | exact Hps].
Qed.

Lemma lookup_assign_all_out (values : list (jsstring * json)) (keys : list jsstring)
    (acc : list (jsstring * json)) (k : jsstring) :
  ~ In k keys \/ k = proto_key ->
  lookup k (assign_all values keys acc) = lookup k acc.
Proof.
  revert acc. induction keys as [|k1 keys IH]; intros acc H; [reflexivity|].
  rewrite assign_all_cons.
  rewrite IH by (destruct H as [H|H]; [left; intro; apply H; now right | now right]).
  destruct (lookup k1 values) as [v1|]; [|reflexivity].
  rewrite lookup_assign.
  destruct (jsstring_eqb k k1 && negb (jsstring_eqb k1 proto_key)) eqn:E; [|reflexivity].
  apply andb_true_iff in E as [E1 E2]. apply jsstring_eqb_eq in E1. subst k1.
  apply negb_true_iff, jsstring_eqb_neq in E2.
  destruct H as [H|H]; [exfalso; apply H; now left | contradiction].
Qed.

Lemma lookup_assign_all_in (values : list (jsstring * json)) (keys : list jsstring)
    (acc : list (jsstring * json)) (k : jsstring) (v : json) :
  In k keys -> k <> proto_key -> lookup k values = Some v ->
  lookup k (assign_all values keys acc) = Some v.
Proof.
  revert acc. induction keys as [|k1 keys IH]; intros acc Hin Hk Hv; [contradiction|].
  rewrite assign_all_cons.
  destruct (in_dec (list_eq_dec N.eq_dec) k keys) as [Hin'|Hout].
  - now apply IH.
  - destruct Hin as [->|Hin]; [|contradiction].
    rewrite lookup_assign_all_out by now left.
    rewrite Hv, lookup_assign, jsstring_eqb_refl.
    apply jsstring_eqb_neq in Hk. now rewrite Hk.
Qed.

Lemma assign_all_other_keys (values : list (jsstring * json)) (keys : list jsstring)
    (acc : list (jsstring * json)) :
  NoDup keys ->
  (forall k, In k keys -> has_key k acc = false) ->
  (forall k, In k keys -> In k (map fst values)) ->
  filter (fun a => negb (is_index a)) (map fst (assign_all values keys acc))
  = filter (fun a => negb (is_index a)) (map fst acc)
      ++ filter (fun a => negb (is_index a) && negb (jsstring_eqb a proto_key)) keys.
Proof.
  intro Hnd. revert acc. induction Hnd as [|k keys Hk Hnd IH]; intros acc Hacc Hval.
  - cbn [filter]. now rewrite app_nil_r.
  - rewrite assign_all_cons.
    destruct (lookup_In_key values k (Hval k (or_introl eq_refl))) as [v Hv].
    rewrite Hv. rewrite IH.
    + cbn [filter]. unfold assign. fold proto_key.
      destruct (jsstring_eqb k proto_key) eqn:Ep.
      * now rewrite andb_false_r.
      * rewrite define_property_other_keys, (Hacc k (or_introl eq_refl)).
        cbn [orb negb]. rewrite andb_true_r.
        destruct (is_index k); cbn [negb]; rewrite <- app_assoc; reflexivity.
    + intros k' Hk'. unfold has_key. rewrite lookup_assign.
      destruct (jsstring_eqb k' k) eqn:E.
      * apply jsstring_eqb_eq in E. subst. contradiction.
      * cbn [andb]. apply (Hacc k'). now right.
    + intros k' Hk'. apply Hval. now right.
Qed.

Lemma canonical_In (v : json) (ps : list (jsstring * json)) (k : jsstring) :
  canonical (JObject ps) -> lookup k ps = Some v -> canonical v.
Proof.
  intros [_ H] Hl. apply fold_right_and_Forall in H.
  rewrite Forall_forall in H. exact (H _ (lookup_In _ _ _ Hl)).
Qed.

(** The sorted value of a canonical value is a sorted copy of it. *)
Theorem sorted_value_copy (v : json) : canonical v -> sorted_copy v (sorted_value v).
Proof.
  induction v as [|b|n|s|xs IH|ps IH] using json_induction; intro Hc;
    try constructor.
  - cbn [canonical] in Hc. apply fold_right_and_Forall in Hc.
    induction IH as [|x xs Hx _ IHxs]; [constructor|].
    inversion Hc; subst. constructor; auto.
  - destruct Hc as [Hord Hvals].
    split.
    + apply assign_all_ordered. exact I.
    + rewrite assign_all_other_keys.
      * cbn [map filter app]. apply sorted_filter, sort_strings_sorted.
        now apply ordered_NoDup.
      * apply sorted_NoDup, sort_strings_sorted. now apply ordered_NoDup.
      * reflexivity.
      * intros k Hk. apply (proj1 (sort_strings_In _ _)) in Hk.
        rewrite map_map. exact Hk.
  - apply lookup_assign_all_out. now right.
  - intros k a Hk Hl. exists (sorted_value a). split.
    + apply lookup_assign_all_in; [|exact Hk|].
      * apply (proj2 (sort_strings_In _ _)). apply lookup_In in Hl.
        apply in_map_iff. exists (k, a). split; [reflexivity | exact Hl].
      * rewrite lookup_map_values, Hl. reflexivity.
    + pose proof (lookup_In _ _ _ Hl) as Hin.
      rewrite Forall_forall in IH. apply (IH (k, a) Hin).
      exact (canonical_In a ps k Hc Hl).
  - intros k Hl. rewrite lookup_assign_all_out; [reflexivity|].
    left. intro Hin. apply (proj1 (sort_strings_In _ _)) in Hin.
    revert Hin. apply (has_key_false k ps). unfold has_key. now rewrite Hl.
Qed.

(** C2 (as amended). For a text that parses to a value in which no Array has
    an element that is an Array or a non-empty Object, [format] with
    [sortKeys] returns the serialization of the value with every Object's
    keys sorted: array indices first, in numeric order, then the other keys
    in ascending order of their UTF-16 code units, a key [__proto__] left
    out; every Array keeps its elements in their order. *)
Theorem format_sortKeys (T : jsstring) (v : json) (indent : Z) (removeWhitespace : bool) :
  JSON_parse T = Some v ->
  arrays_plain v = true ->
  exists w,
    format T (JSONProcessingOptions.mk indent true removeWhitespace) = stringify indent w
    /\ sorted_copy v w.
Proof.
  intros Hparse Hplain. exists (sorted_value v). split.
  - unfold format, JSON_parse_c. rewrite Hparse. cbn [bind JSONProcessingOptions.sortKeys].
    rewrite (sortKeys_sorted_value v Hplain). reflexivity.
  - apply sorted_value_copy. exact (JSON_parse_canonical T v Hparse).
Qed.

Lemma format_sortKeys_witness :
  exists w,
    format (js "{'b':[1,{}],'a':{'z':1,'y':[]}}") (JSONProcessingOptions.mk 2 true false)
    = stringify 2 w
    /\ sorted_copy
         (JObject [(str "b", JArray [JNumber (number_of_decimal false 1 0); JObject []]);
                   (str "a", JObject [(str "z", JNumber (number_of_decimal false 1 0));
                                      (str "y", JArray [])])])
         w.
Proof.
  apply (format_sortKeys (js "{'b':[1,{}],'a':{'z':1,'y':[]}}")
           (JObject [(str "b", JArray [JNumber (number_of_decimal false 1 0); JObject []]);
                     (str "a", JObject [(str "z", JNumber (number_of_decimal false 1 0));
                                        (str "y", JArray [])])])
           2 false);
    reflexivity.
Defined.

(** C2, as stated, fails on keys that are array indices: they are
    enumerated, and serialized, in numeric order, 9 before 10, against the
    order of their code points. *)
Lemma format_sortKeys_index_order :
  format (js "{'b':1,'10':2,'9':3}") (JSONProcessingOptions.mk 0 true false)
  = js "{'9':3,'10':2,'b':1}"
  /\ jsstring_ltb (str "10") (str "9") = true.
Proof. split; reflexivity. Qed.

(** Inside an Array the callback of [map] runs without [this]: on a
    non-empty Object it throws, and [format] returns the text as it came. *)
Lemma format_sortKeys_inside_array :
  sortKeys ThisClass (JArray [JObject [(str "b", JNull); (str "a", JNull)]])
  = Throw TypeError
  /\ format (js "[{'b':1,'a':2}]") (JSONProcessingOptions.mk 2 true false)
     = js "[{'b':1,'a':2}]".
Proof. split; reflexivity. Qed.

(* ================================================================= *)
(** ** [validateSchema] *)

Lemma forEach_c_ext {K S : Type} (f g : K -> S -> completion S) (keys : list K) (s : S) :
  (forall k s, In k keys -> f k s = g k s) ->
  forEach_c keys f s = forEach_c keys g s.
Proof.
  revert s. induction keys as [|k keys IH]; intros s H; [reflexivity|].
  cbn [forEach_c]. rewrite (H k s) by now left.
  destruct (g k s) as [s'|e]; [|reflexivity].
  cbn [bind]. apply IH. intros. apply H. now right.
Qed.

Lemma bind_ext {A B : Type} (c1 c2 : completion A) (k1 k2 : A -> completion B) :
  c1 = c2 -> (forall a, k1 a = k2 a) -> bind c1 k1 = bind c2 k2.
Proof. intros -> H. destruct c2; simpl; [apply H | reflexivity]. Qed.

Lemma In_combine_snd {T U : Type} (l : list T) (l' : list U) (m : T * U) :
  In m (combine l l') -> In (snd m) l'.
Proof. destruct m as [a b]. apply in_combine_r. Qed.

(** A schema under [schema.properties] lies deeper than [schema]. *)
Lemma properties_height (schema : json) (entry : jsstring * json) :
  In entry (Object_entries (get_own schema (str "properties"))) ->
  (height (snd entry) < height schema)%nat.
Proof.
  assert (Hstring : forall s : jsstring,
             In entry (combine (index_keys (List.length s))
                         (map (fun c => JString [c]) s)) ->
             height (snd entry) = O).
  { intros s H. apply In_combine_snd, in_map_iff in H as (c & <- & _). reflexivity. }
  assert (Hchild : forall c : json, (height c < height schema)%nat ->
             In entry (Object_entries (VJson c)) -> (height (snd entry) < height schema)%nat).
  { intros c Hc H. destruct c as [| | |s|xs|ps]; cbn [Object_entries] in H;
      try contradiction.
    - rewrite (Hstring s H). lia.
    - apply In_combine_snd, height_In in H. cbn [height] in Hc. lia.
    - apply height_In_snd in H. cbn [height] in Hc. lia. }
  assert (Hkey : array_index (str "properties") = None) by reflexivity.
  assert (Hlen : jsstring_eqb (str "properties") length_key = false) by reflexivity.
  destruct schema as [| | |s|xs|ps]; cbn [get_own]; rewrite ?Hkey, ?Hlen;
    cbn [Object_entries In]; try contradiction.
  destruct (lookup (str "properties") ps) as [c|] eqn:E;
    [|cbn [Object_entries In]; contradiction].
  apply Hchild. apply lookup_In, height_In_snd in E. cbn [height snd] in *. lia.
Qed.

Lemma items_height (schema itemSchema : json) :
  get_own schema (str "items") = VJson itemSchema ->
  (height itemSchema < height schema)%nat.
Proof.
  assert (Hkey : array_index (str "items") = None) by reflexivity.
  assert (Hlen : jsstring_eqb (str "items") length_key = false) by reflexivity.
  destruct schema as [| | |s|xs|ps]; cbn [get_own]; rewrite ?Hkey, ?Hlen;
    try discriminate.
  destruct (lookup (str "items") ps) as [c|] eqn:E; [|discriminate].
  intro H. injection H as <-.
  apply lookup_In, height_In_snd in E. cbn [height snd] in *. lia.
Qed.

Section SchemaDepth.
Variable StringToNumber : jsstring -> option number.

(** The bound on the depth of [validateAgainstSchema] is never reached. *)
Lemma validateAgainstSchema_depth_stable (n d1 d2 : nat) (data schema : json)
    (path : jsstring) (errors : list jsstring) :
  (height schema <= n)%nat -> (n < d1)%nat -> (n < d2)%nat ->
  validateAgainstSchema_depth StringToNumber d1 data schema path errors
  = validateAgainstSchema_depth StringToNumber d2 data schema path errors.
Proof.
  revert d1 d2 data schema path errors.
  induction n as [|n IH]; intros d1 d2 data schema path errors Hn H1 H2;
    (destruct d1 as [|d1]; [lia|]); (destruct d2 as [|d2]; [lia|]);
    cbn [validateAgainstSchema_depth];
    (destruct (read schema (str "type")) as [type|e]; [cbn [bind]|reflexivity]);
    (destruct (if truthy type && differs_from_string (actualType data) type
               then _ else _) as [[early|]|e]; cbn [bind]; try reflexivity).
  - (* height 0: no schema below *)
    assert (Hprop : Object_entries (get_own schema (str "properties")) = []).
    { destruct (Object_entries (get_own schema (str "properties"))) as [|entry l] eqn:E;
        [reflexivity|].
      pose proof (properties_height schema entry) as Hh. rewrite E in Hh.
      specialize (Hh (or_introl eq_refl)). lia. }
    rewrite Hprop.
    assert (Hitems : forall itemSchema, get_own schema (str "items") <> VJson itemSchema).
    { intros itemSchema E. apply items_height in E. lia. }
    destruct (get_own schema (str "items")) as [|itemSchema];
      [|exfalso; exact (Hitems itemSchema eq_refl)].
    destruct data; reflexivity.
  - apply bind_ext; [|intro errors1; apply bind_ext; [|reflexivity]].
    + destruct data as [| | | | |members]; try reflexivity.
      destruct (truthy (get_own schema (str "properties"))); [|reflexivity].
      apply forEach_c_ext. intros entry errs Hin.
      destruct (lookup (fst entry) members); [|reflexivity].
      pose proof (properties_height schema entry Hin).
      apply IH; lia.
    + destruct data as [| | | |elements|]; try reflexivity.
      destruct (get_own schema (str "items")) as [|itemSchema] eqn:E; [reflexivity|].
      destruct (truthy (VJson itemSchema)); [|reflexivity].
      apply forEach_c_ext. intros entry errs Hin.
      pose proof (items_height schema itemSchema E).
      apply IH; lia.
Qed.

End SchemaDepth.

(** The method as the source has it, on the call of [validateSchema]: any
    greater bound on the depth gives the same errors. *)
Lemma validateAgainstSchema_any_depth (StringToNumber : jsstring -> option number)
    (d : nat) (data schema : json) (path : jsstring) (errors : list jsstring) :
  (height schema < d)%nat ->
  validateAgainstSchema_depth StringToNumber d data schema path errors
  = validateAgainstSchema StringToNumber data schema path errors.
Proof.
  intro H. unfold validateAgainstSchema.
  apply (validateAgainstSchema_depth_stable StringToNumber (height schema)); lia.
Qed.

(** C8. [validateSchema] never throws: it returns a result on every pair of
    texts; and when either text fails to parse the result is [valid: false]
    with the one generic message. *)
Theorem validateSchema_fails_closed (StringToNumber : jsstring -> option number)
    (jsonString schemaString : jsstring) :
  (exists result,
      validateSchema StringToNumber jsonString schemaString = Normal result)
  /\ (JSON_parse jsonString = None \/ JSON_parse schemaString = None ->
      validateSchema StringToNumber jsonString schemaString
      = Normal (SchemaResult.mk false [str "Invalid JSON or Schema format"])).
Proof.
  unfold validateSchema, JSON_parse_c. split.
  - destruct (JSON_parse jsonString) as [data|]; [|eexists; reflexivity].
    destruct (JSON_parse schemaString) as [schema|]; [|eexists; reflexivity].
    cbn [bind].
    destruct (validateAgainstSchema StringToNumber data schema [] []);
      eexists; reflexivity.
  - intros [H|H]; rewrite H; [reflexivity|].
    destruct (JSON_parse jsonString); reflexivity.
Qed.

Lemma validateSchema_fails_closed_witness :
  validateSchema (fun _ => None) (str "not json") (str "{}")
  = Normal (SchemaResult.mk false [str "Invalid JSON or Schema format"]).
Proof.
  apply (proj2 (validateSchema_fails_closed (fun _ => None) (str "not json") (str "{}"))).
  left. reflexivity.
Defined.

(** The schema [null] parses; reading [schema.type] throws a [TypeError],
    which the boundary turns into the generic message. *)
Lemma validateSchema_null_schema :
  validateAgainstSchema (fun _ => None) (JObject []) JNull [] [] = Throw TypeError
  /\ validateSchema (fun _ => None) (str "{}") (str "null")
     = Normal (SchemaResult.mk false [str "Invalid JSON or Schema format"]).
Proof. split; reflexivity. Qed.

(** A required property that is missing: one error, which names it. *)
Lemma validateSchema_required_missing :
  validateSchema (fun _ => None) (str "{}") (js "{'type':'object','required':['id']}")
  = Normal (SchemaResult.mk false [str ".id: Required property missing"]).
Proof. reflexivity. Qed.

(* ================================================================= *)
(** ** The fuel of the parser is enough *)

Lemma skip_ws_length (s : jsstring) : (List.length (skip_ws s) <= List.length s)%nat.
Proof.
  induction s as [|c s IH]; simpl; [lia|]. destruct (is_ws c); simpl; lia.
Qed.

Lemma skip_ws_cons_length (s r : jsstring) (c : codeunit) :
  skip_ws s = c :: r -> (List.length r < List.length s)%nat.
Proof.
  intro H. pose proof (skip_ws_length s) as Hl. rewrite H in Hl. simpl in Hl. lia.
Qed.

Lemma strip_prefix_length (p s r : jsstring) :
  strip_prefix p s = Some r -> (List.length r <= List.length s)%nat.
Proof.
  intro H. apply strip_prefix_Some in H. subst. rewrite length_app. lia.
Qed.

Lemma span_numchars_length (s : jsstring) :
  (List.length (snd (span_numchars s)) <= List.length s)%nat.
Proof.
  induction s as [|c s IH]; simpl; [lia|].
  destruct (is_numchar c); [|simpl; lia].
  destruct (span_numchars s); simpl in *. lia.
Qed.

Lemma parse_string_body_length (n : nat) (s w r : jsstring) :
  (List.length s <= n)%nat ->
  parse_string_body s = Some (w, r) -> (List.length r <= List.length s)%nat.
Proof.
  revert s w r. induction n as [|n IH]; intros [|c s] w r Hn H; simpl in Hn;
    try discriminate; try lia.
  cbn [parse_string_body] in H.
  destruct (cu_eqb c dquote); [injection H as <- <-; simpl; lia|].
  destruct (cu_eqb c (cu "\")).
  - destruct s as [|e s1]; [discriminate|].
    destruct (cu_eqb e (cu "u")).
    + destruct s1 as [|h1 [|h2 [|h3 [|h4 s2]]]]; try discriminate.
      destruct (hex4_value h1 h2 h3 h4); [|discriminate].
      destruct (parse_string_body s2) as [[w' r']|] eqn:E; [|discriminate].
      injection H as <- <-. apply IH in E; simpl in *; lia.
    + destruct (simple_escape e); [|discriminate].
      destruct (parse_string_body s1) as [[w' r']|] eqn:E; [|discriminate].
      injection H as <- <-. apply IH in E; simpl in *; lia.
  - destruct (c <? 32)%N; [discriminate|].
    destruct (parse_string_body s) as [[w' r']|] eqn:E; [|discriminate].
    injection H as <- <-. apply IH in E; simpl in *; lia.
Qed.

Section Fuel.
Context {A : Type}.
Variable conv : jsstring -> option A.
Variable build : list (jsstring * json_of A) -> list (jsstring * json_of A).

#[local] Abbreviation value_settled := (value_settled conv build).
#[local] Abbreviation elements_settled := (elements_settled conv build).
#[local] Abbreviation members_settled := (members_settled conv build).

Ltac break_parse H :=
  repeat match type of H with
         | context [match ?x with _ => _ end] => destruct x eqn:?; try discriminate H
         end;
  try (injection H as <- <-).

Lemma parse_value_unfold (f : nat) (s : jsstring) :
  parse_value conv build (S f) s
  = match s with
    | [] => None
    | c :: r =>
        if cu_eqb c (cu "[") then
          match skip_ws r with
          | [] => None
          | c' :: r' =>
              if cu_eqb c' (cu "]") then Some (JArray [], r')
              else match parse_elements conv build f (c' :: r') with
                   | Some (vs, rest) => Some (JArray vs, rest)
                   | None => None
                   end
          end
        else if cu_eqb c (cu "{") then
          match skip_ws r with
          | [] => None
          | c' :: r' =>
              if cu_eqb c' (cu "}") then Some (JObject [], r')
              else match parse_members conv build f (c' :: r') with
                   | Some (ms, rest) => Some (JObject (build ms), rest)
                   | None => None
                   end
          end
        else if cu_eqb c dquote then
          match parse_string_body r with
          | Some (w, rest) => Some (JString w, rest)
          | None => None
          end
        else
          match strip_prefix (str "null") s with
          | Some rest => Some (JNull, rest)
          | None =>
          match strip_prefix (str "true") s with
          | Some rest => Some (JBool true, rest)
          | None =>
          match strip_prefix (str "false") s with
          | Some rest => Some (JBool false, rest)
          | None =>
              let '(tok, rest) := span_numchars s in
              match tok with
              | [] => None
              | _ :: _ =>
                  match conv tok with
                  | Some n => Some (JNumber n, rest)
                  | None => None
                  end
              end
          end end end
    end.
Proof. reflexivity. Qed.

Lemma parse_elements_unfold (f : nat) (s : jsstring) :
  parse_elements conv build (S f) s
  = match parse_value conv build f s with
    | None => None
    | Some (v, r) =>
        match skip_ws r with
        | [] => None
        | c :: r' =>
            if cu_eqb c (cu ",") then
              match parse_elements conv build f (skip_ws r') with
              | Some (vs, rest) => Some (v :: vs, rest)
              | None => None
              end
            else if cu_eqb c (cu "]") then Some ([v], r')
            else None
        end
    end.
Proof. reflexivity. Qed.

Lemma parse_members_unfold (f : nat) (s : jsstring) :
  parse_members conv build (S f) s
  = match s with
    | [] => None
    | q :: r0 =>
        if cu_eqb q dquote then
          match parse_string_body r0 with
          | None => None
          | Some (k, r1) =>
              match skip_ws r1 with
              | [] => None
              | c1 :: r2 =>
                  if cu_eqb c1 (cu ":") then
                    match parse_value conv build f (skip_ws r2) with
                    | None => None
                    | Some (v, r3) =>
                        match skip_ws r3 with
                        | [] => None
                        | c3 :: r4 =>
                            if cu_eqb c3 (cu ",") then
                              match parse_members conv build f (skip_ws r4) with
                              | Some (ms, rest) => Some ((k, v) :: ms, rest)
                              | None => None
                              end
                            else if cu_eqb c3 (cu "}") then Some ([(k, v)], r4)
                            else None
                        end
                    end
                  else None
              end
          end
        else None
    end.
Proof. reflexivity. Qed.

(** The parser returns a suffix no longer than what it was given. *)
Lemma parse_length (fuel : nat) :
  (forall s v r, parse_value conv build fuel s = Some (v, r) ->
     (List.length r <= List.length s)%nat)
  /\ (forall s vs r, parse_elements conv build fuel s = Some (vs, r) ->
        (List.length r <= List.length s)%nat)
  /\ (forall s ms r, parse_members conv build fuel s = Some (ms, r) ->
        (List.length r <= List.length s)%nat).
Proof.
  induction fuel as [|f (IHv & IHe & IHm)]; [repeat split; intros; discriminate|].
  split; [|split].
  - intros s v r H. rewrite parse_value_unfold in H. destruct s as [|c s']; [discriminate|].
    destruct (cu_eqb c (cu "[")).
    { destruct (skip_ws s') as [|c' r'] eqn:E; [discriminate|].
      apply skip_ws_cons_length in E.
      destruct (cu_eqb c' (cu "]")); [injection H as <- <-; simpl; lia|].
      destruct (parse_elements conv build f (c' :: r')) as [[vs rest]|] eqn:E2;
        [|discriminate].
      injection H as <- <-. apply IHe in E2. simpl in *. lia. }
    destruct (cu_eqb c (cu "{")).
    { destruct (skip_ws s') as [|c' r'] eqn:E; [discriminate|].
      apply skip_ws_cons_length in E.
      destruct (cu_eqb c' (cu "}")); [injection H as <- <-; simpl; lia|].
      destruct (parse_members conv build f (c' :: r')) as [[vs rest]|] eqn:E2;
        [|discriminate].
      injection H as <- <-. apply IHm in E2. simpl in *. lia. }
    destruct (cu_eqb c dquote).
    { destruct (parse_string_body s') as [[w rest]|] eqn:E; [|discriminate].
      injection H as <- <-.
      apply (parse_string_body_length (List.length s')) in E; simpl; lia. }
    destruct (strip_prefix (str "null") (c :: s')) eqn:E1;
      [injection H as <- <-; now apply strip_prefix_length in E1|].
    destruct (strip_prefix (str "true") (c :: s')) eqn:E2;
      [injection H as <- <-; now apply strip_prefix_length in E2|].
    destruct (strip_prefix (str "false") (c :: s')) eqn:E3;
      [injection H as <- <-; now apply strip_prefix_length in E3|].
    pose proof (span_numchars_length (c :: s')) as Hspan.
    destruct (span_numchars (c :: s')) as [tok rest].
    destruct tok; [discriminate|]. destruct (conv _); [|discriminate].
    injection H as <- <-. exact Hspan.
  - intros s vs r H. rewrite parse_elements_unfold in H.
    destruct (parse_value conv build f s) as [[v r1]|] eqn:E; [|discriminate].
    apply IHv in E.
    destruct (skip_ws r1) as [|c r2] eqn:E2; [discriminate|].
    apply skip_ws_cons_length in E2.
    destruct (cu_eqb c (cu ",")).
    { destruct (parse_elements conv build f (skip_ws r2)) as [[vs' rest]|] eqn:E3;
        [|discriminate].
      injection H as <- <-. apply IHe in E3.
      pose proof (skip_ws_length r2). lia. }
    destruct (cu_eqb c (cu "]")); [|discriminate].
    injection H as <- <-. lia.
  - intros s ms r H. rewrite parse_members_unfold in H.
    destruct s as [|q r0]; [discriminate|].
    destruct (cu_eqb q dquote); [|discriminate].
    destruct (parse_string_body r0) as [[k r1]|] eqn:E; [|discriminate].
    apply (parse_string_body_length (List.length r0)) in E; [|lia].
    destruct (skip_ws r1) as [|c1 r2] eqn:E1; [discriminate|].
    apply skip_ws_cons_length in E1.
    destruct (cu_eqb c1 (cu ":")); [|discriminate].
    destruct (parse_value conv build f (skip_ws r2)) as [[v r3]|] eqn:E2; [|discriminate].
    apply IHv in E2. pose proof (skip_ws_length r2).
    destruct (skip_ws r3) as [|c3 r4] eqn:E3; [discriminate|].
    apply skip_ws_cons_length in E3.
    destruct (cu_eqb c3 (cu ",")).
    { destruct (parse_members conv build f (skip_ws r4)) as [[ms' rest]|] eqn:E4;
        [|discriminate].
      injection H as <- <-. apply IHm in E4.
      pose proof (skip_ws_length r4). simpl. lia. }
    destruct (cu_eqb c3 (cu "}")); [|discriminate].
    injection H as <- <-. simpl. lia.
Qed.

Lemma value_settles (s : jsstring) :
  (forall s', (List.length s' < List.length s)%nat ->
     elements_settled s' /\ members_settled s') ->
  value_settled s.
Proof.
  intros IH f1 f2 H1 H2.
  destruct f1 as [|f1]; [lia|]. destruct f2 as [|f2]; [lia|].
  rewrite !parse_value_unfold. destruct s as [|c r]; [reflexivity|].
  destruct (cu_eqb c (cu "[")).
  { destruct (skip_ws r) as [|c' r'] eqn:E; [reflexivity|].
    apply skip_ws_cons_length in E.
    destruct (cu_eqb c' (cu "]")); [reflexivity|].
    rewrite (proj1 (IH (c' :: r') ltac:(simpl; lia)) f1 f2); [reflexivity | |];
      simpl in *; lia. }
  destruct (cu_eqb c (cu "{")); [|reflexivity].
  destruct (skip_ws r) as [|c' r'] eqn:E; [reflexivity|].
  apply skip_ws_cons_length in E.
  destruct (cu_eqb c' (cu "}")); [reflexivity|].
  rewrite (proj2 (IH (c' :: r') ltac:(simpl; lia)) f1 f2); [reflexivity | |];
    simpl in *; lia.
Qed.

Lemma elements_settle (s : jsstring) :
  value_settled s ->
  (forall s', (List.length s' < List.length s)%nat -> elements_settled s') ->
  elements_settled s.
Proof.
  intros Hv IH f1 f2 H1 H2.
  destruct f1 as [|f1]; [lia|]. destruct f2 as [|f2]; [lia|].
  rewrite !parse_elements_unfold. rewrite (Hv f1 f2) by lia.
  destruct (parse_value conv build f2 s) as [[v r1]|] eqn:E; [|reflexivity].
  apply (proj1 (parse_length f2)) in E.
  destruct (skip_ws r1) as [|c r2] eqn:E2; [reflexivity|].
  apply skip_ws_cons_length in E2.
  destruct (cu_eqb c (cu ",")); [|reflexivity].
  pose proof (skip_ws_length r2).
  rewrite (IH (skip_ws r2) ltac:(lia) f1 f2); [reflexivity | |]; lia.
Qed.

Lemma members_settle (s : jsstring) :
  (forall s', (List.length s' < List.length s)%nat ->
     value_settled s' /\ members_settled s') ->
  members_settled s.
Proof.
  intros IH f1 f2 H1 H2.
  destruct f1 as [|f1]; [lia|]. destruct f2 as [|f2]; [lia|].
  rewrite !parse_members_unfold. destruct s as [|q r0]; [reflexivity|].
  destruct (cu_eqb q dquote); [|reflexivity].
  destruct (parse_string_body r0) as [[k r1]|] eqn:E; [|reflexivity].
  apply (parse_string_body_length (List.length r0)) in E; [|lia].
  destruct (skip_ws r1) as [|c1 r2] eqn:E1; [reflexivity|].
  apply skip_ws_cons_length in E1.
  destruct (cu_eqb c1 (cu ":")); [|reflexivity].
  pose proof (skip_ws_length r2).
  rewrite (proj1 (IH (skip_ws r2) ltac:(simpl; lia)) f1 f2) by (simpl in *; lia).
  destruct (parse_value conv build f2 (skip_ws r2)) as [[v r3]|] eqn:E2; [|reflexivity].
  apply (proj1 (parse_length f2)) in E2.
  destruct (skip_ws r3) as [|c3 r4] eqn:E3; [reflexivity|].
  apply skip_ws_cons_length in E3.
  destruct (cu_eqb c3 (cu ",")); [|reflexivity].
  pose proof (skip_ws_length r4).
  rewrite (proj2 (IH (skip_ws r4) ltac:(simpl; lia)) f1 f2); [reflexivity | |];
    simpl in *; lia.
Qed.

Lemma parse_settled (n : nat) (s : jsstring) :
  (List.length s <= n)%nat ->
  value_settled s /\ elements_settled s /\ members_settled s.
Proof.
  revert s. induction n as [|n IH]; intros s Hn.
  - destruct s; [|simpl in Hn; lia].
    assert (Hv : value_settled []).
    { apply value_settles. intros s' H. simpl in H. lia. }
    split; [exact Hv|]. split.
    + apply elements_settle; [exact Hv|]. intros s' H. simpl in H. lia.
    + apply members_settle. intros s' H. simpl in H. lia.
  - assert (Hv : value_settled s).
    { apply value_settles. intros s' H. split; apply IH; lia. }
    split; [exact Hv|]. split.
    + apply elements_settle; [exact Hv|]. intros s' H. apply IH; lia.
    + apply members_settle. intros s' H. split; apply IH; lia.
Qed.

(** The fuel of [parse_text] is enough: with any greater fuel the parser
    returns the same. A text that does not parse is a text that no fuel
    makes parse. *)
Theorem parse_text_fuel (text : jsstring) (fuel : nat) :
  (2 * List.length text + 2 <= fuel)%nat ->
  parse_value conv build fuel (skip_ws text)
  = parse_value conv build (2 * List.length text + 2) (skip_ws text).
Proof.
  intro H. pose proof (skip_ws_length text) as Hl.
  apply (proj1 (parse_settled (List.length (skip_ws text)) (skip_ws text) (le_n _))); lia.
Qed.

End Fuel.

(* ================================================================= *)
(** * Further properties of the class *)

(* ================================================================= *)
(** ** [process], [getStats], [minify] and [format] *)

Lemma minify_parsed (T : jsstring) (v : json) :
  JSON_parse T = Some v -> minify T = stringify 0 v.
Proof. intro H. unfold minify, JSON_parse_c. now rewrite H. Qed.

Lemma minify_invalid (T : jsstring) : JSON_parse T = None -> minify T = T.
Proof. intro H. unfold minify, JSON_parse_c. now rewrite H. Qed.

Lemma format_parsed (T : jsstring) (v : json) (indent : Z) (removeWhitespace : bool) :
  JSON_parse T = Some v ->
  format T (JSONProcessingOptions.mk indent false removeWhitespace) = stringify indent v.
Proof. intro H. unfold format, JSON_parse_c. now rewrite H. Qed.

Lemma format_invalid (T : jsstring) (options : JSONProcessingOptions.t) :
  JSON_parse T = None -> format T options = T.
Proof. intro H. unfold format, JSON_parse_c. now rewrite H. Qed.

(** X1. [process] never throws. On every text it returns the result of
    [validate] as [validation], the text of [minify] as [minified], as
    [formatted] the text of [minify] when [removeWhitespace] is set and of
    [format] otherwise, the lengths of the text and of [formatted] as sizes,
    and the counts of [getStats] on the parsed value, zero when the text does
    not parse. *)
Theorem process_composes (message : jsstring -> jsstring) (text : jsstring)
    (options : JSONProcessingOptions.t) :
  exists validation,
    validate message text = Normal validation
    /\ let formatted :=
         if JSONProcessingOptions.removeWhitespace options
         then minify text else format text options in
       let stats :=
         match JSON_parse text with
         | Some parsed => getStats parsed
         | None => mkCounters 0 0 0
         end in
       process message text options
       = Normal (JSONProcessingResult.mk formatted (minify text) validation
                   (Stats.mk (List.length text) (List.length formatted)
                      (c_objects stats) (c_arrays stats) (c_primitives stats))).
Proof.
  destruct (validate_result message text) as [validation [Hv Hvalid]].
  exists validation. split; [exact Hv|].
  unfold process. rewrite Hv. cbn [bind]. rewrite Hvalid.
  unfold JSON_parse_c.
  destruct (JSON_parse text) as [parsed|] eqn:Hp; cbn [negb bind].
  - reflexivity.
  - rewrite (minify_invalid text Hp), (format_invalid text options Hp).
    destruct (JSONProcessingOptions.removeWhitespace options); reflexivity.
Qed.

Lemma count_fold_array (xs : list json) (c : counters) :
  Forall (fun x => forall c, count x c
     = mkCounters (c_objects c + objects_in x) (c_arrays c + arrays_in x)
         (c_primitives c + primitives_in x))%nat xs ->
  (fold_left (fun c x => count x c) xs c
   = mkCounters (c_objects c + fold_right (fun x n => objects_in x + n) 0 xs)
       (c_arrays c + fold_right (fun x n => arrays_in x + n) 0 xs)
       (c_primitives c + fold_right (fun x n => primitives_in x + n) 0 xs))%nat.
Proof.
  intro H. revert c. induction H as [|x xs Hx _ IH]; intro c; cbn [fold_left fold_right].
  - destruct c; cbn. f_equal; lia.
  - rewrite IH, Hx. cbn. f_equal; lia.
Qed.

Lemma count_fold_object (ps : list (jsstring * json)) (c : counters) :
  Forall (fun m => forall c, count (snd m) c
     = mkCounters (c_objects c + objects_in (snd m)) (c_arrays c + arrays_in (snd m))
         (c_primitives c + primitives_in (snd m)))%nat ps ->
  (fold_left (fun c m => count (snd m) c) ps c
   = mkCounters (c_objects c + fold_right (fun m n => objects_in (snd m) + n) 0 ps)
       (c_arrays c + fold_right (fun m n => arrays_in (snd m) + n) 0 ps)
       (c_primitives c + fold_right (fun m n => primitives_in (snd m) + n) 0 ps))%nat.
Proof.
  intro H. revert c. induction H as [|x xs Hx _ IH]; intro c; cbn [fold_left fold_right].
  - destruct c; cbn. f_equal; lia.
  - rewrite IH, Hx. cbn. f_equal; lia.
Qed.

Lemma count_adds (item : json) :
  forall c, (count item c
  = mkCounters (c_objects c + objects_in item) (c_arrays c + arrays_in item)
      (c_primitives c + primitives_in item))%nat.
Proof.
  induction item using json_induction; intro c;
    try (destruct c; cbn; f_equal; lia).
  - cbn [count objects_in arrays_in primitives_in].
    rewrite count_fold_array by assumption. cbn. f_equal; lia.
  - cbn [count objects_in arrays_in primitives_in].
    rewrite count_fold_object by assumption. cbn. f_equal; lia.
Qed.

Lemma nodes_sum (v : json) :
  (objects_in v + arrays_in v + primitives_in v = nodes v)%nat.
Proof.
  induction v using json_induction; try reflexivity.
  - cbn [objects_in arrays_in primitives_in nodes].
    induction H as [|x xs Hx _ IH]; cbn [fold_right]; lia.
  - cbn [objects_in arrays_in primitives_in nodes].
    induction H as [|x xs Hx _ IH]; cbn [fold_right]; lia.
Qed.

(** X2. [getStats] counts the Objects, the Arrays and the other nodes
    of a value, each node once: the three counters add up to the number of
    nodes. *)
Theorem getStats_counts_nodes (obj : json) :
  getStats obj = mkCounters (objects_in obj) (arrays_in obj) (primitives_in obj)
  /\ (c_objects (getStats obj) + c_arrays (getStats obj) + c_primitives (getStats obj)
      = nodes obj)%nat.
Proof.
  assert (H : getStats obj
              = mkCounters (objects_in obj) (arrays_in obj) (primitives_in obj)).
  { unfold getStats. rewrite count_adds. reflexivity. }
  split; [exact H|]. rewrite H. cbn. apply nodes_sum.
Qed.

Lemma stable_text_parsed (T : jsstring) (v : json) :
  stable_text T -> JSON_parse T = Some v ->
  forall space, JSON_parse (stringify space v) = Some v.
Proof.
  unfold stable_text. intros Hs Hp space. rewrite Hp in Hs.
  apply JSON_parse_stringify; [|exact Hs].
  now apply JSON_parse_canonical with (text := T).
Qed.

(** X3. Parsing [minify(T)] gives what parsing [T] gives, a failure
    when [T] does not parse, for a text whose numbers survive being written
    and read again. *)
Theorem minify_keeps_value (T : jsstring) :
  stable_text T -> JSON_parse (minify T) = JSON_parse T.
Proof.
  intro Hs. destruct (JSON_parse T) as [v|] eqn:Hp.
  - rewrite (minify_parsed T v Hp). now apply stable_text_parsed with (T := T).
  - now rewrite (minify_invalid T Hp).
Qed.

Lemma minify_keeps_value_witness :
  JSON_parse (minify (js "{ 'b' : [1, 2.5, 'x'], 'a' : null }"))
  = JSON_parse (js "{ 'b' : [1, 2.5, 'x'], 'a' : null }").
Proof.
  apply (minify_keeps_value (js "{ 'b' : [1, 2.5, 'x'], 'a' : null }")).
  vm_compute. reflexivity.
Defined.

(** X4. [minify] is idempotent, and minifying a formatted text gives
    the minified text, for a text whose numbers survive being written and
    read again and for [format] without [sortKeys]. *)
Theorem minify_idempotent (T : jsstring) (indent : Z) (removeWhitespace : bool) :
  stable_text T ->
  minify (minify T) = minify T
  /\ minify (format T (JSONProcessingOptions.mk indent false removeWhitespace)) = minify T.
Proof.
  intro Hs. destruct (JSON_parse T) as [v|] eqn:Hp.
  - rewrite (minify_parsed T v Hp), (format_parsed T v indent removeWhitespace Hp).
    split; apply minify_parsed; now apply stable_text_parsed with (T := T).
  - now rewrite (minify_invalid T Hp), (format_invalid T _ Hp), (minify_invalid T Hp).
Qed.

Lemma minify_idempotent_witness :
  minify (minify (js "{ 'b' : [1, 2.5, 'x'], 'a' : null }"))
  = minify (js "{ 'b' : [1, 2.5, 'x'], 'a' : null }")
  /\ minify (format (js "{ 'b' : [1, 2.5, 'x'], 'a' : null }")
               (JSONProcessingOptions.mk 4 false false))
     = minify (js "{ 'b' : [1, 2.5, 'x'], 'a' : null }").
Proof.
  apply (minify_idempotent (js "{ 'b' : [1, 2.5, 'x'], 'a' : null }") 4 false).
  vm_compute. reflexivity.
Defined.

(** X5. [format] without [sortKeys] is idempotent, and formatting a
    minified text gives the formatted text, for a text whose numbers survive
    being written and read again. *)
Theorem format_idempotent (T : jsstring) (indent : Z) (removeWhitespace : bool) :
  stable_text T ->
  let options := JSONProcessingOptions.mk indent false removeWhitespace in
  format (format T options) options = format T options
  /\ format (minify T) options = format T options.
Proof.
  intros Hs options. unfold options. destruct (JSON_parse T) as [v|] eqn:Hp.
  - rewrite (minify_parsed T v Hp), (format_parsed T v indent removeWhitespace Hp).
    split; apply format_parsed; now apply stable_text_parsed with (T := T).
  - now rewrite (minify_invalid T Hp), !(format_invalid T _ Hp).
Qed.

Lemma format_idempotent_witness :
  format (format (js "[{'k': 1e2}, true]") (JSONProcessingOptions.mk 3 false false))
    (JSONProcessingOptions.mk 3 false false)
  = format (js "[{'k': 1e2}, true]") (JSONProcessingOptions.mk 3 false false)
  /\ format (minify (js "[{'k': 1e2}, true]")) (JSONProcessingOptions.mk 3 false false)
     = format (js "[{'k': 1e2}, true]") (JSONProcessingOptions.mk 3 false false).
Proof.
  apply (format_idempotent (js "[{'k': 1e2}, true]") 3 false).
  vm_compute. reflexivity.
Defined.

(* ================================================================= *)
(** ** [queryJSON] and [getValueAtPath] *)

Lemma split_on_app (sep : codeunit) (a b : jsstring) :
  split_on sep (a ++ sep :: b) = split_on sep a ++ split_on sep b.
Proof.
  induction a as [|c a IH]; cbn [app split_on].
  - now rewrite cu_eqb_refl.
  - destruct (cu_eqb c sep); rewrite IH; [reflexivity|].
    pose proof (split_on_not_nil sep a) as Hne.
    destruct (split_on sep a) as [|w ws]; [congruence | reflexivity].
Qed.

Lemma walk_undefined (keys : list jsstring) : walk keys VUndefined = VUndefined.
Proof. destruct keys; reflexivity. Qed.

Lemma walk_app (keys1 keys2 : list jsstring) (current : jsval) :
  walk (keys1 ++ keys2) current = walk keys2 (walk keys1 current).
Proof.
  revert current. induction keys1 as [|key keys1 IH]; intro current; [reflexivity|].
  cbn [app walk].
  destruct current as [|cur]; [now rewrite walk_undefined|].
  destruct cur; try (now rewrite walk_undefined);
    destruct (all_digits key); try apply IH; try (now rewrite walk_undefined).
  destruct (nth_error xs (parseInt key)); [apply IH | now rewrite walk_undefined].
Qed.

Lemma getValueAtPath_walk (obj : json) (path : jsstring) :
  path <> [] -> getValueAtPath obj path = walk (split_on (cu ".") path) (VJson obj).
Proof. intro H. unfold getValueAtPath. destruct path; [congruence | reflexivity]. Qed.

(** X6. [getValueAtPath] composes along the dots: for two non-empty
    paths, the value at [p.q] is the value at [q] of the value at [p], and
    [undefined] when there is no value at [p]. *)
Theorem getValueAtPath_composes (obj : json) (p q : jsstring) :
  p <> [] -> q <> [] ->
  getValueAtPath obj (p ++ cu "." :: q)
  = match getValueAtPath obj p with
    | VJson v => getValueAtPath v q
    | VUndefined => VUndefined
    end.
Proof.
  intros Hp Hq.
  rewrite (getValueAtPath_walk obj (p ++ cu "." :: q)) by (destruct p; discriminate).
  rewrite split_on_app, walk_app, <- (getValueAtPath_walk obj p Hp).
  destruct (getValueAtPath obj p) as [|v].
  - apply walk_undefined.
  - symmetry. now apply getValueAtPath_walk.
Qed.

Lemma getValueAtPath_composes_witness :
  getValueAtPath
    (JObject [(str "a", JObject [(str "b", JArray [JNull; JBool true])])])
    (str "a" ++ cu "." :: str "b.1")
  = match getValueAtPath
            (JObject [(str "a", JObject [(str "b", JArray [JNull; JBool true])])])
            (str "a") with
    | VJson v => getValueAtPath v (str "b.1")
    | VUndefined => VUndefined
    end.
Proof.
  apply (getValueAtPath_composes
           (JObject [(str "a", JObject [(str "b", JArray [JNull; JBool true])])])
           (str "a") (str "b.1")); discriminate.
Defined.

Lemma arrayMatch_star (path : jsstring) :
  path <> [] ->
  forallb (fun c => negb (is_line_terminator c)) path = true ->
  arrayMatch (path ++ str "[*]") = Some (path, str "*").
Proof.
  intros Hne Hlt. unfold arrayMatch.
  replace (rev (path ++ str "[*]")) with (cu "]" :: str "*" ++ cu "[" :: rev path)
    by (rewrite rev_app_distr; reflexivity).
  rewrite cu_eqb_refl, span_until_app by reflexivity.
  rewrite rev_involutive, Hlt.
  destruct path; [congruence | reflexivity].
Qed.

Lemma queryJSON_parsed (text query : jsstring) (doc : json) :
  JSON_parse text = Some doc ->
  queryJSON text query = Normal (evaluateJSONPath doc query).
Proof. intro H. unfold queryJSON, JSON_parse_c. now rewrite H. Qed.

(** X7. For a query [<path>[*]] whose path resolves to an Array,
    [queryJSON] returns the elements of the Array, in their order. *)
Theorem queryJSON_wildcard (text query path : jsstring) (doc : json) (xs : list json) :
  JSON_parse text = Some doc ->
  cleanQuery query = path ++ str "[*]" ->
  path <> [] ->
  forallb (fun c => negb (is_line_terminator c)) path = true ->
  getValueAtPath doc path = VJson (JArray xs) ->
  queryJSON text query = Normal (map VJson xs).
Proof.
  intros Hparse Hq Hne Hlt Hparent.
  rewrite (queryJSON_parsed text query doc Hparse).
  unfold evaluateJSONPath. rewrite Hq.
  destruct (is_nil (path ++ str "[*]")) eqn:En.
  { destruct path; [congruence | discriminate En]. }
  now rewrite (arrayMatch_star path Hne Hlt), Hparent.
Qed.

Lemma queryJSON_wildcard_witness :
  queryJSON (js "{'users':[{'name':'Ann'},7]}") (str "$.users[*]")
  = Normal (map VJson [JObject [(str "name", JString (str "Ann"))];
                       JNumber (number_of_nat 7)]).
Proof.
  apply (queryJSON_wildcard (js "{'users':[{'name':'Ann'},7]}") (str "$.users[*]")
           (str "users")
           (JObject [(str "users",
                      JArray [JObject [(str "name", JString (str "Ann"))];
                              JNumber (number_of_nat 7)])])).
  - vm_compute. reflexivity.
  - reflexivity.
  - discriminate.
  - reflexivity.
  - reflexivity.
Defined.

(** X8. For a query [<path>[N]] whose path resolves to an Array with
    an element at index N, [queryJSON] returns that element alone. *)
Theorem queryJSON_index_in_bounds
    (text query path digits : jsstring) (doc x : json) (xs : list json) :
  JSON_parse text = Some doc ->
  cleanQuery query = path ++ cu "[" :: digits ++ [cu "]"] ->
  path <> [] ->
  forallb (fun c => negb (is_line_terminator c)) path = true ->
  all_digits digits = true ->
  getValueAtPath doc path = VJson (JArray xs) ->
  nth_error xs (parseInt digits) = Some x ->
  queryJSON text query = Normal [VJson x].
Proof.
  intros Hparse Hq Hne Hlt Hd Hparent Hx.
  rewrite (queryJSON_parsed text query doc Hparse).
  unfold evaluateJSONPath. rewrite Hq.
  destruct (is_nil (path ++ cu "[" :: digits ++ [cu "]"])) eqn:En.
  { destruct path; [congruence | discriminate En]. }
  rewrite (arrayMatch_index path digits Hne Hlt Hd), Hparent.
  now rewrite (all_digits_not_star digits Hd), Hx.
Qed.

Lemma queryJSON_index_in_bounds_witness :
  queryJSON (js "{'users':[{'name':'Ann'},7]}") (str "users[01]")
  = Normal [VJson (JNumber (number_of_nat 7))].
Proof.
  apply (queryJSON_index_in_bounds (js "{'users':[{'name':'Ann'},7]}") (str "users[01]")
           (str "users") (str "01")
           (JObject [(str "users",
                      JArray [JObject [(str "name", JString (str "Ann"))];
                              JNumber (number_of_nat 7)])])
           (JNumber (number_of_nat 7))
           [JObject [(str "name", JString (str "Ann"))]; JNumber (number_of_nat 7)]).
  - vm_compute. reflexivity.
  - reflexivity.
  - discriminate.
  - reflexivity.
  - reflexivity.
  - reflexivity.
  - reflexivity.
Defined.



Lemma cleanQuery_prefix (q : jsstring) :
  cleanQuery (str "$." ++ q) = q /\ cleanQuery (cu "." :: q) = q.
Proof.
  split.
  - unfold cleanQuery. now rewrite strip_prefix_app.
  - reflexivity.
Qed.

(** X10. A query that does not itself start with [.] or [$.] gives
    the same result with either prefix before it. *)
Theorem queryJSON_prefix_optional (text q : jsstring) :
  cleanQuery q = q ->
  queryJSON text (str "$." ++ q) = queryJSON text q
  /\ queryJSON text (cu "." :: q) = queryJSON text q.
Proof.
  intro Hq. unfold queryJSON, evaluateJSONPath.
  destruct (cleanQuery_prefix q) as [-> ->]. rewrite Hq. split; reflexivity.
Qed.

Lemma queryJSON_prefix_optional_witness :
  queryJSON (js "{'a':{'b':[1,2]}}") (str "$." ++ str "a.b[1]")
  = queryJSON (js "{'a':{'b':[1,2]}}") (str "a.b[1]")
  /\ queryJSON (js "{'a':{'b':[1,2]}}") (cu "." :: str "a.b[1]")
     = queryJSON (js "{'a':{'b':[1,2]}}") (str "a.b[1]").
Proof.
  apply (queryJSON_prefix_optional (js "{'a':{'b':[1,2]}}") (str "a.b[1]")).
  reflexivity.
Defined.

(* ================================================================= *)
(** ** [compareJSON] *)

Lemma same_members_array_get (xs ys : list json) :
  same_members (JArray xs) (JArray ys) = true ->
  List.length xs = List.length ys
  /\ forall i, same_members_val
                 (match nth_error xs i with Some v => VJson v | None => VUndefined end)
                 (match nth_error ys i with Some v => VJson v | None => VUndefined end).
Proof.
  cbn [same_members]. revert ys.
  induction xs as [|x xs IH]; intros [|y ys] H; try discriminate.
  - split; [reflexivity|]. intros [|i]; exact I.
  - apply andb_true_iff in H as [Hxy Hrest].
    destruct (IH ys Hrest) as [Hlen Hget]. split; [simpl; congruence|].
    intros [|i]; [exact Hxy | apply Hget].
Qed.

Lemma same_members_object_lookup (ps qs : list (jsstring * json)) (key : jsstring) :
  same_members (JObject ps) (JObject qs) = true ->
  same_members_val
    (match lookup key ps with Some v => VJson v | None => VUndefined end)
    (match lookup key qs with Some v => VJson v | None => VUndefined end).
Proof.
  cbn [same_members]. intro H. apply andb_true_iff in H as [Hq Hp].
  rewrite forallb_forall in Hq, Hp.
  destruct (lookup key ps) as [x|] eqn:Ex.
  - specialize (Hp _ (lookup_In _ _ _ Ex)). cbn [fst snd] in Hp.
    destruct (lookup key qs); [exact Hp | discriminate].
  - destruct (lookup key qs) as [y|] eqn:Ey; [|exact I].
    specialize (Hq _ (lookup_In _ _ _ Ey)). cbn [fst] in Hq.
    unfold has_key in Hq. rewrite Ex in Hq. discriminate.
Qed.

Lemma same_text_same_members_get (a b : json) (key : jsstring) :
  is_object (VJson a) && is_object (VJson b) = false ->
  same_text a b ->
  same_members_val (get (VJson a) key) (get (VJson b) key).
Proof.
  unfold same_text. intros Hk H.
  destruct a as [|b1|n1|s1|xs|ps], b as [|b2|n2|s2|ys|qs]; cbn [token] in H;
    repeat match type of H with
           | context [if ?c then _ else _] => destruct c
           end;
    try discriminate H; try discriminate Hk; try exact I.
  injection H as ->. cbn [get get_own].
  destruct (array_index key); [destruct (nth_error s2 _)|destruct (jsstring_eqb _ _)];
    cbn [same_members_val]; try exact I; apply jsstring_eqb_refl.
Qed.

Lemma same_members_get (a b : json) (key : jsstring) :
  same_members a b = true ->
  same_members_val (get (VJson a) key) (get (VJson b) key).
Proof.
  intro H.
  destruct (is_object (VJson a) && is_object (VJson b)) eqn:Ek.
  - destruct a as [| | | |xs|ps], b as [| | | |ys|qs]; try discriminate Ek.
    + destruct (same_members_array_get xs ys H) as [Hlen Hget].
      cbn [get get_own]. destruct (array_index key) as [i|]; [apply Hget|].
      rewrite Hlen. destruct (jsstring_eqb key length_key); [|exact I].
      apply jsstring_eqb_refl.
    + cbn [same_members] in H. apply jsstring_eqb_eq, stringify_same_text in H. discriminate H.
    + cbn [same_members] in H. apply jsstring_eqb_eq, stringify_same_text in H. discriminate H.
    + now apply same_members_object_lookup.
  - apply same_text_same_members_get; [exact Ek|].
    apply stringify_same_text, jsstring_eqb_eq.
    destruct a, b; try exact H; discriminate Ek.
Qed.

Lemma same_members_text_or_composite (a b : json) :
  same_members a b = true ->
  stringify 0 a = stringify 0 b
  \/ is_object (VJson a) && is_object (VJson b) = true.
Proof.
  intro H. destruct a, b; try (left; now apply jsstring_eqb_eq); right; reflexivity.
Qed.

Lemma same_members_keys (a b : json) (k : jsstring) :
  same_members a b = true ->
  In k (keys_or_empty (VJson b)) -> In k (keys_or_empty (VJson a)).
Proof.
  intro H.
  destruct (is_object (VJson a) && is_object (VJson b)) eqn:Ek.
  - destruct a as [| | | |xs|ps], b as [| | | |ys|qs]; try discriminate Ek.
    + destruct (same_members_array_get xs ys H) as [Hlen _].
      cbn [keys_or_empty]. now rewrite Hlen.
    + cbn [same_members] in H. apply jsstring_eqb_eq, stringify_same_text in H. discriminate H.
    + cbn [same_members] in H. apply jsstring_eqb_eq, stringify_same_text in H. discriminate H.
    + cbn [same_members] in H. apply andb_true_iff in H as [Hq _].
      rewrite forallb_forall in Hq. cbn [keys_or_empty]. intro Hk.
      apply in_map_iff in Hk as (q & <- & Hin). specialize (Hq q Hin).
      unfold has_key in Hq. destruct (lookup (fst q) ps) as [v|] eqn:E; [|discriminate].
      apply lookup_In in E. apply in_map_iff. now exists (fst q, v).
  - assert (Ht : same_text a b).
    { apply stringify_same_text, jsstring_eqb_eq.
      destruct a, b; try exact H; discriminate Ek. }
    now rewrite (same_text_keys a b Ht).
Qed.

Lemma generateDiff_same_members (a b : json) (path : jsstring) (indent : nat) :
  same_members a b = true ->
  unchanged_listing indent (VJson a) (keys_of (VJson a))
    (generateDiff (VJson a) (VJson b) path indent).
Proof.
  apply (generateDiff_listing (fun x y => same_members x y = true))
    with (n := S (height a)); [| | |lia].
  - exact same_members_get.
  - exact same_members_text_or_composite.
  - intros x y k. apply same_members_keys.
Qed.

Lemma compareJSON_parsed (json1 json2 : jsstring) (obj1 obj2 : json) :
  JSON_parse json1 = Some obj1 -> JSON_parse json2 = Some obj2 ->
  compareJSON json1 json2
  = Normal (DiffResult.mk (generateDiff (VJson obj1) (VJson obj2) [] 0)
              (includes (str "+ ") (generateDiff (VJson obj1) (VJson obj2) [] 0)
               || includes (str "- ") (generateDiff (VJson obj1) (VJson obj2) [] 0))).
Proof. intros H1 H2. unfold compareJSON, JSON_parse_c. now rewrite H1, H2. Qed.

(** X11. [compareJSON] ignores the order of the keys: for two documents that
    differ at most in the order of the keys of their Objects, at any depth,
    the diff lists the members of the first document, each once and in the
    order of [sort], as unchanged entries, and holds nothing else. *)
Theorem compareJSON_ignores_key_order (json1 json2 : jsstring) (obj1 obj2 : json) :
  JSON_parse json1 = Some obj1 ->
  JSON_parse json2 = Some obj2 ->
  same_members obj1 obj2 = true ->
  exists result,
    compareJSON json1 json2 = Normal result
    /\ unchanged_listing 0 (VJson obj1) (keys_of (VJson obj1)) (DiffResult.diff result).
Proof.
  intros H1 H2 Hsame. rewrite (compareJSON_parsed json1 json2 obj1 obj2 H1 H2).
  eexists. split; [reflexivity|].
  cbn [DiffResult.diff]. now apply generateDiff_same_members.
Qed.

Lemma compareJSON_ignores_key_order_witness :
  exists result,
    compareJSON (js "{'a':1,'b':[{'x':null,'y':'s'}]}") (js "{'b':[{'y':'s','x':null}],'a':1}")
    = Normal result
    /\ unchanged_listing 0
         (VJson (JObject [(str "a", JNumber (number_of_nat 1));
                          (str "b", JArray [JObject [(str "x", JNull);
                                                     (str "y", JString (str "s"))]])]))
         (keys_of (VJson (JObject [(str "a", JNumber (number_of_nat 1));
                                   (str "b", JArray [JObject [(str "x", JNull);
                                                              (str "y", JString (str "s"))]])])))
         (DiffResult.diff result).
Proof.
  apply (compareJSON_ignores_key_order
           (js "{'a':1,'b':[{'x':null,'y':'s'}]}") (js "{'b':[{'y':'s','x':null}],'a':1}")
           (JObject [(str "a", JNumber (number_of_nat 1));
                     (str "b", JArray [JObject [(str "x", JNull);
                                                (str "y", JString (str "s"))]])])
           (JObject [(str "b", JArray [JObject [(str "y", JString (str "s"));
                                                (str "x", JNull)]]);
                     (str "a", JNumber (number_of_nat 1))])).
  - vm_compute. reflexivity.
  - vm_compute. reflexivity.
  - vm_compute. reflexivity.
Defined.

Lemma strip_prefix_app_l (p a b r : jsstring) :
  strip_prefix p a = Some r -> strip_prefix p (a ++ b) = Some (r ++ b).
Proof.
  revert a. induction p as [|c p IH]; intros a H.
  - injection H as <-. reflexivity.
  - destruct a as [|d a]; [discriminate|]. cbn [strip_prefix app] in *.
    destruct (cu_eqb c d); [now apply IH | discriminate].
Qed.

Lemma includes_app_l (needle a b : jsstring) :
  includes needle a = true -> includes needle (a ++ b) = true.
Proof.
  induction a as [|c a IH]; cbn [includes app].
  - destruct (strip_prefix needle []) as [r|] eqn:E; [|discriminate].
    intros _. destruct needle; [|discriminate E].
    destruct b; reflexivity.
  - destruct (strip_prefix needle (c :: a)) as [r|] eqn:E.
    + intros _.
      change (c :: a ++ b) with ((c :: a) ++ b).
      now rewrite (strip_prefix_app_l needle (c :: a) b r E).
    + intro H. destruct (strip_prefix needle (c :: a ++ b)); [reflexivity | now apply IH].
Qed.

Lemma includes_app_r (needle a b : jsstring) :
  includes needle b = true -> includes needle (a ++ b) = true.
Proof.
  intro H. induction a as [|c a IH]; [exact H|].
  cbn [includes app]. destruct (strip_prefix needle (c :: a ++ b)); [reflexivity | exact IH].
Qed.

Lemma includes_prefix (needle rest : jsstring) : includes needle (needle ++ rest) = true.
Proof.
  destruct (needle ++ rest) eqn:E; cbn [includes]; rewrite <- E, strip_prefix_app;
    reflexivity.
Qed.

Lemma includes_entry (spaces mark key text : jsstring) :
  includes mark (entry spaces mark key text) = true.
Proof. unfold entry. apply includes_app_r, includes_prefix. Qed.

Lemma diffKey_extends (recurse : jsval -> jsval -> jsstring -> nat -> jsstring)
    (obj1 obj2 : jsval) (path : jsstring) (indent : nat) (diff key : jsstring) :
  exists more, diffKey recurse obj1 obj2 path indent diff key = diff ++ more.
Proof.
  unfold diffKey, block.
  repeat match goal with
         | |- context [if ?c then _ else _] => destruct c
         end;
    rewrite <- ?app_assoc; eexists; reflexivity.
Qed.

Lemma marked_app_l (a b : jsstring) : marked a = true -> marked (a ++ b) = true.
Proof.
  unfold marked. intro H. apply orb_true_iff in H as [H | H];
    rewrite (includes_app_l _ a b H); [reflexivity | apply orb_true_r].
Qed.

Lemma diffKey_marks (recurse : jsval -> jsval -> jsstring -> nat -> jsstring)
    (obj1 obj2 : jsval) (path : jsstring) (indent : nat) (diff key : jsstring) :
  JSON_stringify 0 (get obj1 key) <> JSON_stringify 0 (get obj2 key) ->
  is_object (get obj1 key) && is_object (get obj2 key) = false ->
  marked (diffKey recurse obj1 obj2 path indent diff key) = true.
Proof.
  intros Hne Hk. unfold diffKey.
  assert (E : option_string_eqb (JSON_stringify 0 (get obj1 key))
                (JSON_stringify 0 (get obj2 key)) = false).
  { destruct (JSON_stringify 0 (get obj1 key)) as [s|], (JSON_stringify 0 (get obj2 key)) as [t|];
      try reflexivity; [|congruence].
    cbn. apply jsstring_eqb_neq. congruence. }
  rewrite E, Hk. cbn [negb].
  unfold marked.
  repeat match goal with
         | |- context [if ?c then _ else _] => destruct c
         end;
    try (rewrite (includes_app_r (str "+ ") _ _ (includes_entry _ (str "+ ") _ _));
         reflexivity);
    rewrite (includes_app_r (str "- ") _ _ (includes_entry _ (str "- ") _ _));
    apply orb_true_r.
Qed.

Lemma fold_diffKey_marked (recurse : jsval -> jsval -> jsstring -> nat -> jsstring)
    (obj1 obj2 : jsval) (path : jsstring) (indent : nat) (keys : list jsstring)
    (diff : jsstring) :
  marked diff = true ->
  marked (fold_left (diffKey recurse obj1 obj2 path indent) keys diff) = true.
Proof.
  apply (fold_left_invariant (fun d => marked d = true)).
  intros d k Hd. destruct (diffKey_extends recurse obj1 obj2 path indent d k) as [more ->].
  now apply marked_app_l.
Qed.

Lemma diffKey_marks_inside (recurse : jsval -> jsval -> jsstring -> nat -> jsstring)
    (obj1 obj2 : jsval) (path : jsstring) (indent : nat) (diff key : jsstring) :
  option_string_eqb (JSON_stringify 0 (get obj1 key)) (JSON_stringify 0 (get obj2 key))
  = false ->
  is_object (get obj1 key) && is_object (get obj2 key) = true ->
  (forall p, marked (recurse (get obj1 key) (get obj2 key) p (S indent)) = true) ->
  marked (diffKey recurse obj1 obj2 path indent diff key) = true.
Proof.
  intros E Hk Hrec. unfold diffKey. rewrite E, Hk. cbn [negb].
  apply andb_true_iff in Hk as [H1 H2].
  destruct (get obj1 key) as [|v1]; [discriminate H1|].
  destruct (get obj2 key) as [|v2]; [discriminate H2|].
  cbn [is_undefined]. unfold block, marked.
  specialize (Hrec (if is_nil path then key else path ++ cu "." :: key)).
  unfold marked in Hrec. apply orb_true_iff in Hrec as [H | H].
  - rewrite (includes_app_l (str "+ ") _ _ (includes_app_r (str "+ ") _ _ H)). reflexivity.
  - rewrite (includes_app_l (str "- ") _ _ (includes_app_r (str "- ") _ _ H)).
    apply orb_true_r.
Qed.

Lemma option_string_eqb_false (a b : option jsstring) :
  option_string_eqb a b = false -> a <> b.
Proof.
  destruct a as [s|], b as [t|]; cbn; try discriminate; try congruence.
  intros H E. injection E as ->. now rewrite jsstring_eqb_refl in H.
Qed.

Lemma generateDiff_changed (keys : list jsstring) :
  forall (obj1 obj2 : jsval) (path : jsstring) (indent : nat),
    changed_along keys obj1 obj2 = true ->
    marked (generateDiff obj1 obj2 path indent) = true.
Proof.
  induction keys as [|key rest IH]; intros obj1 obj2 path indent H; [discriminate H|].
  cbn [changed_along] in H.
  apply andb_true_iff in H as [H Hlast]. apply andb_true_iff in H as [H Hne].
  apply andb_true_iff in H as [Hin _]. apply negb_true_iff in Hne.
  rewrite generateDiff_unfold.
  assert (Hs : In key (sortedKeys obj1 obj2)).
  { unfold sortedKeys. apply sort_strings_In, set_of_In.
    apply existsb_exists in Hin as (k & Hk & E). apply jsstring_eqb_eq in E. now subst. }
  apply in_split in Hs as (before & after & ->).
  rewrite fold_left_app. cbn [fold_left].
  apply fold_diffKey_marked.
  destruct (is_object (get obj1 key) && is_object (get obj2 key)) eqn:Hk.
  - apply diffKey_marks_inside; [exact Hne | exact Hk|].
    intro p. now apply IH.
  - apply diffKey_marks; [now apply option_string_eqb_false | exact Hk].
Qed.

(** X12. A change is flagged: when the two documents hold, under a
    key or along a path of keys through composites, each read on both sides
    on own properties, two values with different compact texts that are not
    both composite, or a value on one side only, [hasDifferences] is true. *)
Theorem compareJSON_flags_change
    (json1 json2 : jsstring) (obj1 obj2 : json) (keys : list jsstring) :
  JSON_parse json1 = Some obj1 ->
  JSON_parse json2 = Some obj2 ->
  changed_along keys (VJson obj1) (VJson obj2) = true ->
  exists diff, compareJSON json1 json2 = Normal (DiffResult.mk diff true).
Proof.
  intros H1 H2 Hc. rewrite (compareJSON_parsed json1 json2 obj1 obj2 H1 H2).
  eexists. f_equal. f_equal.
  exact (generateDiff_changed keys (VJson obj1) (VJson obj2) [] 0%nat Hc).
Qed.

Lemma compareJSON_flags_change_witness :
  exists diff,
    compareJSON (js "{'a':1,'b':{'c':[2],'d':'x'}}") (js "{'a':1,'b':{'c':[2],'d':'y'}}")
    = Normal (DiffResult.mk diff true).
Proof.
  apply (compareJSON_flags_change
           (js "{'a':1,'b':{'c':[2],'d':'x'}}") (js "{'a':1,'b':{'c':[2],'d':'y'}}")
           (JObject [(str "a", JNumber (number_of_nat 1));
                     (str "b", JObject [(str "c", JArray [JNumber (number_of_nat 2)]);
                                        (str "d", JString (str "x"))])])
           (JObject [(str "a", JNumber (number_of_nat 1));
                     (str "b", JObject [(str "c", JArray [JNumber (number_of_nat 2)]);
                                        (str "d", JString (str "y"))])])
           [str "b"; str "d"]).
  - vm_compute. reflexivity.
  - vm_compute. reflexivity.
  - vm_compute. reflexivity.
Defined.

(** X13. [compareJSON] throws exactly when one of the two texts does not
    parse, an [Error] with its fixed message, and returns on texts that
    parse. [queryJSON] throws an [Error] with its fixed message on a text
    that does not parse; on a text that parses it returns, for a query all of
    whose reads stay on own properties (a read of an inherited member can
    throw, which [queryJSON] turns into the same [Error]). *)
Theorem compareJSON_queryJSON_throw (json1 json2 query : jsstring) :
  (compareJSON json1 json2 = Throw (Error (str "Invalid JSON format in one or both inputs"))
   <-> JSON_parse json1 = None \/ JSON_parse json2 = None)
  /\ ((exists result, compareJSON json1 json2 = Normal result)
      <-> JSON_parse json1 <> None /\ JSON_parse json2 <> None)
  /\ (JSON_parse json1 = None ->
      queryJSON json1 query = Throw (Error (str "Invalid JSON format")))
  /\ (forall doc, JSON_parse json1 = Some doc -> own_query doc query = true ->
      exists results, queryJSON json1 query = Normal results).
Proof.
  unfold compareJSON, queryJSON, JSON_parse_c.
  destruct (JSON_parse json1) as [obj1|]; destruct (JSON_parse json2) as [obj2|];
    cbn [bind try_catch]; repeat split;
    try solve [ discriminate | congruence | tauto | eauto
              | intros [? | ?]; discriminate
              | intros [? ?]; congruence
              | intros [? ?]; discriminate
              | intros; exfalso; tauto ].
  all: match goal with H : exists _, _ |- _ => destruct H; discriminate end.
Qed.

Lemma compareJSON_queryJSON_throw_witness :
  queryJSON (js "{'a':") (str "$.a") = Throw (Error (str "Invalid JSON format"))
  /\ exists results, queryJSON (js "{'a':[1]}") (str "$.a[0]") = Normal results.
Proof.
  split.
  - apply (compareJSON_queryJSON_throw (js "{'a':") [] (str "$.a")). reflexivity.
  - apply (proj2 (proj2 (proj2 (compareJSON_queryJSON_throw (js "{'a':[1]}") [] (str "$.a[0]"))))
             (JObject [(str "a", JArray [JNumber (number_of_nat 1)])])).
    + vm_compute. reflexivity.
    + vm_compute. reflexivity.
Defined.

(* ================================================================= *)
(** ** [validateSchema] *)

Lemma has_key_lookup {V : Type} (k : jsstring) (members : list (jsstring * V)) :
  has_key k members = false -> lookup k members = None.
Proof. unfold has_key. destruct (lookup k members); [discriminate | reflexivity]. Qed.

Ltac absent_keywords H :=
  unfold only_keywords, schema_keywords in H; cbn [forallb existsb] in H;
  repeat match type of H with
         | (_ && _) = true => let H1 := fresh "Habsent" in
                              apply andb_true_iff in H as [H1 H]
         end;
  repeat match goal with
         | Hk : context [jsstring_eqb ?a ?b] |- _ =>
             let r := eval vm_compute in (jsstring_eqb a b) in
             change (jsstring_eqb a b) with r in Hk; cbn [orb] in Hk
         | Hk : false || negb (has_key _ _) = true |- _ => cbn [orb] in Hk
         | Hk : negb (has_key _ _) = true |- _ =>
             apply negb_true_iff, has_key_lookup in Hk
         end.

Ltac use_absent :=
  repeat match goal with
         | Hk : lookup ?k ?m = None |- context [lookup ?k ?m] => rewrite Hk
         end.

Lemma validateAgainstSchema_without_keywords (StringToNumber : jsstring -> option number)
    (data schema : json) (path : jsstring) (errors : list jsstring) :
  without_keywords schema = true ->
  validateAgainstSchema StringToNumber data schema path errors = Normal errors.
Proof.
  intro H. unfold validateAgainstSchema. cbn [validateAgainstSchema_depth].
  destruct schema as [| | | | |members]; try discriminate H;
    try (destruct data; reflexivity).
  cbn [without_keywords] in H. absent_keywords H.
  cbn [read get_own]. use_absent. cbn [bind truthy andb].
  destruct data; reflexivity.
Qed.

Lemma validateSchema_parsed (StringToNumber : jsstring -> option number)
    (jsonString schemaString : jsstring) (data schema : json) (errors : list jsstring) :
  JSON_parse jsonString = Some data ->
  JSON_parse schemaString = Some schema ->
  validateAgainstSchema StringToNumber data schema [] [] = Normal errors ->
  validateSchema StringToNumber jsonString schemaString
  = Normal (SchemaResult.mk (Nat.eqb (List.length errors) 0) errors).
Proof.
  intros Hd Hs He. unfold validateSchema, JSON_parse_c. rewrite Hd, Hs.
  cbn [bind]. now rewrite He.
Qed.

(** X14. A schema that is not [null] and has none of the
    keywords [validateAgainstSchema] reads, whatever else it holds, accepts
    every document. *)
Theorem validateSchema_ignores_other_keywords (StringToNumber : jsstring -> option number)
    (jsonString schemaString : jsstring) (data schema : json) :
  JSON_parse jsonString = Some data ->
  JSON_parse schemaString = Some schema ->
  without_keywords schema = true ->
  validateSchema StringToNumber jsonString schemaString
  = Normal (SchemaResult.mk true []).
Proof.
  intros Hd Hs Hw.
  apply (validateSchema_parsed StringToNumber jsonString schemaString data schema []);
    [exact Hd | exact Hs |].
  now apply validateAgainstSchema_without_keywords.
Qed.

Lemma validateSchema_ignores_other_keywords_witness :
  validateSchema (fun _ => None) (js "{'name':'x'}")
    (js "{'additionalProperties':false,'pattern':'^a','const':1}")
  = Normal (SchemaResult.mk true []).
Proof.
  apply (validateSchema_ignores_other_keywords (fun _ => None)
           (js "{'name':'x'}")
           (js "{'additionalProperties':false,'pattern':'^a','const':1}")
           (JObject [(str "name", JString (str "x"))])
           (JObject [(str "additionalProperties", JBool false);
                     (str "pattern", JString (str "^a"));
                     (str "const", JNumber (number_of_nat 1))])).
  - vm_compute. reflexivity.
  - vm_compute. reflexivity.
  - vm_compute. reflexivity.
Defined.

Lemma validateAgainstSchema_type_mismatch (StringToNumber : jsstring -> option number)
    (data : json) (members : list (jsstring * json)) (expected path : jsstring)
    (errors : list jsstring) :
  lookup (str "type") members = Some (JString expected) ->
  expected <> [] ->
  actualType data <> expected ->
  validateAgainstSchema StringToNumber data (JObject members) path errors
  = Normal (errors ++ [type_error path expected (actualType data)]).
Proof.
  intros Ht Hne Hdiff. unfold validateAgainstSchema.
  cbn [validateAgainstSchema_depth read get_own]. rewrite Ht.
  cbn [bind truthy differs_from_string].
  apply jsstring_eqb_neq in Hdiff. rewrite Hdiff.
  destruct expected; [congruence|]. reflexivity.
Qed.

(** X15. When the type of the document is not the non-empty
    string under [type] of the schema, the result is that one error alone,
    with an empty path: no other keyword of the schema is looked at. *)
Theorem validateSchema_type_mismatch (StringToNumber : jsstring -> option number)
    (jsonString schemaString : jsstring) (data : json)
    (members : list (jsstring * json)) (expected : jsstring) :
  JSON_parse jsonString = Some data ->
  JSON_parse schemaString = Some (JObject members) ->
  lookup (str "type") members = Some (JString expected) ->
  expected <> [] ->
  actualType data <> expected ->
  validateSchema StringToNumber jsonString schemaString
  = Normal (SchemaResult.mk false [type_error [] expected (actualType data)]).
Proof.
  intros Hd Hs Ht Hne Hdiff.
  apply (validateSchema_parsed StringToNumber jsonString schemaString data (JObject members)
           [type_error [] expected (actualType data)] Hd Hs).
  exact (validateAgainstSchema_type_mismatch StringToNumber data members expected [] []
           Ht Hne Hdiff).
Qed.

Lemma validateSchema_type_mismatch_witness :
  validateSchema (fun _ => None) (js "{'id':'7'}")
    (js "{'type':'array','required':['name'],'properties':{'id':{'type':'number'}}}")
  = Normal (SchemaResult.mk false
              [type_error [] (str "array")
                 (actualType (JObject [(str "id", JString (str "7"))]))]).
Proof.
  apply (validateSchema_type_mismatch (fun _ => None) (js "{'id':'7'}")
           (js "{'type':'array','required':['name'],'properties':{'id':{'type':'number'}}}")
           (JObject [(str "id", JString (str "7"))])
           [(str "type", JString (str "array"));
            (str "required", JArray [JString (str "name")]);
            (str "properties",
             JObject [(str "id", JObject [(str "type", JString (str "number"))])])]
           (str "array")).
  - vm_compute. reflexivity.
  - vm_compute. reflexivity.
  - reflexivity.
  - discriminate.
  - discriminate.
Defined.

Lemma actualType_not_integer (data : json) : actualType data <> str "integer".
Proof. destruct data; discriminate. Qed.

(** X16. A schema of type [integer] rejects every document:
    the type of a number is [number]. *)
Theorem validateSchema_integer_rejects_all (StringToNumber : jsstring -> option number)
    (jsonString schemaString : jsstring) (data : json)
    (members : list (jsstring * json)) :
  JSON_parse jsonString = Some data ->
  JSON_parse schemaString = Some (JObject members) ->
  lookup (str "type") members = Some (JString (str "integer")) ->
  validateSchema StringToNumber jsonString schemaString
  = Normal (SchemaResult.mk false
              [str ": Expected type integer, got " ++ actualType data]).
Proof.
  intros Hd Hs Ht.
  apply (validateSchema_parsed StringToNumber jsonString schemaString data (JObject members)
           [str ": Expected type integer, got " ++ actualType data] Hd Hs).
  refine (validateAgainstSchema_type_mismatch StringToNumber data members (str "integer")
            [] [] Ht _ (actualType_not_integer data)).
  discriminate.
Qed.

Lemma validateSchema_integer_rejects_all_witness :
  validateSchema (fun _ => None) (str "42") (js "{'type':'integer'}")
  = Normal (SchemaResult.mk false
              [str ": Expected type integer, got "
               ++ actualType (JNumber (number_of_nat 42))]).
Proof.
  apply (validateSchema_integer_rejects_all (fun _ => None) (str "42")
           (js "{'type':'integer'}") (JNumber (number_of_nat 42))
           [(str "type", JString (str "integer"))]).
  - vm_compute. reflexivity.
  - vm_compute. reflexivity.
  - reflexivity.
Defined.

Lemma forEach_required (members : list (jsstring * json)) (path : jsstring)
    (keys : list jsstring) (errors : list jsstring) :
  forEach_c (map JString keys)
    (fun (key : json) (errors : list jsstring) =>
       name <- ToString key ;;
       if negb (has_key name members)
       then Normal (errors ++ [path ++ cu "." :: name ++ str ": Required property missing"])
       else Normal errors)
    errors
  = Normal (errors ++ map (missing_error path)
                        (filter (fun key => negb (has_key key members)) keys)).
Proof.
  revert errors. induction keys as [|key keys IH]; intro errors; cbn [map forEach_c filter].
  - now rewrite app_nil_r.
  - cbn [ToString bind]. destruct (negb (has_key key members)); cbn [bind];
      rewrite IH; [|reflexivity].
    cbn [map]. rewrite <- app_assoc. reflexivity.
Qed.

Lemma validateAgainstSchema_required (StringToNumber : jsstring -> option number)
    (data schema : list (jsstring * json)) (keys : list jsstring) (path : jsstring)
    (errors : list jsstring) :
  only_keywords [str "required"] schema = true ->
  lookup (str "required") schema = Some (JArray (map JString keys)) ->
  validateAgainstSchema StringToNumber (JObject data) (JObject schema) path errors
  = Normal (errors ++ map (missing_error path)
                        (filter (fun key => negb (has_key key data)) keys)).
Proof.
  intros H Hr. unfold validateAgainstSchema. cbn [validateAgainstSchema_depth].
  absent_keywords H.
  cbn [read get_own]. use_absent. rewrite Hr. cbn [bind truthy andb].
  rewrite forEach_required. reflexivity.
Qed.

(** X17. For an Object document and a schema whose only keyword is
    a [required] list of names, each of them a key of the document or no
    name the document inherits, the errors are the names the document lacks,
    in the order of the list, each after a dot; the document is valid when it
    has them all. *)
Theorem validateSchema_required (StringToNumber : jsstring -> option number)
    (jsonString schemaString : jsstring) (data schema : list (jsstring * json))
    (keys : list jsstring) :
  JSON_parse jsonString = Some (JObject data) ->
  JSON_parse schemaString = Some (JObject schema) ->
  only_keywords [str "required"] schema = true ->
  lookup (str "required") schema = Some (JArray (map JString keys)) ->
  forallb (own_read (VJson (JObject data))) keys = true ->
  validateSchema StringToNumber jsonString schemaString
  = Normal (SchemaResult.mk (forallb (fun key => has_key key data) keys)
              (map (missing_error [])
                 (filter (fun key => negb (has_key key data)) keys))).
Proof.
  intros Hd Hs Hk Hr _.
  rewrite (validateSchema_parsed StringToNumber jsonString schemaString (JObject data)
             (JObject schema) _ Hd Hs
             (validateAgainstSchema_required StringToNumber data schema keys [] [] Hk Hr)).
  cbn [app]. f_equal. f_equal. clear Hr.
  induction keys as [|key keys IH]; [reflexivity|].
  cbn [filter forallb]. destruct (has_key key data); [exact IH | reflexivity].
Qed.

Lemma validateSchema_required_witness :
  validateSchema (fun _ => None) (js "{'id':1,'tags':[]}")
    (js "{'required':['id','name','tags','email'],'title':'user'}")
  = Normal (SchemaResult.mk
              (forallb (fun key => has_key key
                          [(str "id", JNumber (number_of_nat 1)); (str "tags", JArray [])])
                 [str "id"; str "name"; str "tags"; str "email"])
              (map (missing_error [])
                 (filter (fun key => negb (has_key key
                            [(str "id", JNumber (number_of_nat 1)); (str "tags", JArray [])]))
                    [str "id"; str "name"; str "tags"; str "email"]))).
Proof.
  apply (validateSchema_required (fun _ => None) (js "{'id':1,'tags':[]}")
           (js "{'required':['id','name','tags','email'],'title':'user'}")
           [(str "id", JNumber (number_of_nat 1)); (str "tags", JArray [])]
           [(str "required", JArray (map JString [str "id"; str "name"; str "tags"; str "email"]));
            (str "title", JString (str "user"))]
           [str "id"; str "name"; str "tags"; str "email"]).
  - vm_compute. reflexivity.
  - vm_compute. reflexivity.
  - vm_compute. reflexivity.
  - reflexivity.
  - vm_compute. reflexivity.
Defined.

Lemma validateAgainstSchema_range (StringToNumber : jsstring -> option number)
    (n lo hi : number) (schema : list (jsstring * json)) (path : jsstring)
    (errors : list jsstring) :
  only_keywords [str "minimum"; str "maximum"] schema = true ->
  lookup (str "minimum") schema = Some (JNumber lo) ->
  lookup (str "maximum") schema = Some (JNumber hi) ->
  validateAgainstSchema StringToNumber (JNumber n) (JObject schema) path errors
  = Normal ((errors
             ++ (if scaled n <? scaled lo
                 then [path ++ str ": Value must be >= " ++ Number_toString lo] else []))
            ++ (if scaled hi <? scaled n
                then [path ++ str ": Value must be <= " ++ Number_toString hi] else [])).
Proof.
  intros H Hlo Hhi. unfold validateAgainstSchema. cbn [validateAgainstSchema_depth].
  absent_keywords H.
  cbn [read get_own]. use_absent. rewrite Hlo, Hhi. cbn [bind truthy andb].
  unfold check_bound.
  cbn [data_number data_string_length data_array_length fst snd is_undefined negb andb
         ToNumber bind less_than ToString_val ToString].
  destruct (scaled n <? scaled lo); cbn [bind];
    destruct (scaled hi <? scaled n); cbn [bind];
    rewrite <- ?app_assoc, ?app_nil_r; reflexivity.
Qed.

(** X18. For a number document and a schema whose only keywords are a
    number [minimum] and a number [maximum], the document is valid exactly
    when it lies between the two, bounds included; otherwise the errors name
    the bound below, then the bound above. *)
Theorem validateSchema_range (StringToNumber : jsstring -> option number)
    (jsonString schemaString : jsstring) (n lo hi : number)
    (schema : list (jsstring * json)) :
  JSON_parse jsonString = Some (JNumber n) ->
  JSON_parse schemaString = Some (JObject schema) ->
  only_keywords [str "minimum"; str "maximum"] schema = true ->
  lookup (str "minimum") schema = Some (JNumber lo) ->
  lookup (str "maximum") schema = Some (JNumber hi) ->
  validateSchema StringToNumber jsonString schemaString
  = Normal (SchemaResult.mk ((scaled lo <=? scaled n) && (scaled n <=? scaled hi))
              ((if scaled n <? scaled lo
                then [str ": Value must be >= " ++ Number_toString lo] else [])
               ++ (if scaled hi <? scaled n
                   then [str ": Value must be <= " ++ Number_toString hi] else []))).
Proof.
  intros Hd Hs Hk Hlo Hhi.
  rewrite (validateSchema_parsed StringToNumber jsonString schemaString (JNumber n)
             (JObject schema) _ Hd Hs
             (validateAgainstSchema_range StringToNumber n lo hi schema [] [] Hk Hlo Hhi)).
  cbn [app]. f_equal. f_equal.
  rewrite (Z.leb_antisym (scaled n) (scaled lo)), (Z.leb_antisym (scaled hi) (scaled n)).
  destruct (scaled n <? scaled lo), (scaled hi <? scaled n); reflexivity.
Qed.

Lemma validateSchema_range_witness :
  validateSchema (fun _ => None) (str "10") (js "{'minimum':10,'maximum':20}")
  = Normal (SchemaResult.mk
              ((scaled (number_of_nat 10) <=? scaled (number_of_nat 10))
               && (scaled (number_of_nat 10) <=? scaled (number_of_nat 20)))
              ((if scaled (number_of_nat 10) <? scaled (number_of_nat 10)
                then [str ": Value must be >= " ++ Number_toString (number_of_nat 10)]
                else [])
               ++ (if scaled (number_of_nat 20) <? scaled (number_of_nat 10)
                   then [str ": Value must be <= " ++ Number_toString (number_of_nat 20)]
                   else []))).
Proof.
  apply (validateSchema_range (fun _ => None) (str "10") (js "{'minimum':10,'maximum':20}")
           (number_of_nat 10) (number_of_nat 10) (number_of_nat 20)
           [(str "minimum", JNumber (number_of_nat 10));
            (str "maximum", JNumber (number_of_nat 20))]).
  - vm_compute. reflexivity.
  - vm_compute. reflexivity.
  - vm_compute. reflexivity.
  - reflexivity.
  - reflexivity.
Defined.

Lemma enum_includes_composite (values : list json) (data : json) :
  is_object (VJson data) = true -> enum_includes values data = false.
Proof.
  intro H. unfold enum_includes. induction values as [|v values IH]; [reflexivity|].
  cbn [existsb]. rewrite IH, orb_false_r.
  destruct data; try discriminate H; destruct v as [| |[]| | |]; reflexivity.
Qed.

Lemma validateAgainstSchema_enum (StringToNumber : jsstring -> option number)
    (data : json) (values : list json) (schema : list (jsstring * json))
    (path : jsstring) (errors : list jsstring) :
  only_keywords [str "enum"] schema = true ->
  lookup (str "enum") schema = Some (JArray values) ->
  validateAgainstSchema StringToNumber data (JObject schema) path errors
  = Normal (errors
            ++ (if enum_includes values data then []
                else [path ++ str ": Value must be one of " ++ stringify 0 (JArray values)])).
Proof.
  intros H He. unfold validateAgainstSchema. cbn [validateAgainstSchema_depth].
  absent_keywords H.
  cbn [read get_own]. use_absent. rewrite He. cbn [bind truthy andb].
  unfold check_bound. cbn [is_undefined negb andb].
  fold (enum_includes values data).
  destruct (enum_includes values data); cbn [negb]; destruct data; cbn [bind];
    rewrite <- ?app_assoc, ?app_nil_r; reflexivity.
Qed.

(** X19. For a schema whose only keyword is an [enum] list, the
    document is valid exactly when the list includes it, by the equality of
    [includes]; an Array or Object document never is. *)
Theorem validateSchema_enum (StringToNumber : jsstring -> option number)
    (jsonString schemaString : jsstring) (data : json) (values : list json)
    (schema : list (jsstring * json)) :
  JSON_parse jsonString = Some data ->
  JSON_parse schemaString = Some (JObject schema) ->
  only_keywords [str "enum"] schema = true ->
  lookup (str "enum") schema = Some (JArray values) ->
  validateSchema StringToNumber jsonString schemaString
  = Normal (SchemaResult.mk (enum_includes values data)
              (if enum_includes values data then []
               else [str ": Value must be one of " ++ stringify 0 (JArray values)]))
  /\ (is_object (VJson data) = true -> enum_includes values data = false).
Proof.
  intros Hd Hs Hk He. split; [|apply enum_includes_composite].
  rewrite (validateSchema_parsed StringToNumber jsonString schemaString data
             (JObject schema) _ Hd Hs
             (validateAgainstSchema_enum StringToNumber data values schema [] [] Hk He)).
  cbn [app]. destruct (enum_includes values data); reflexivity.
Qed.

Lemma validateSchema_enum_witness :
  validateSchema (fun _ => None) (js "[1,2]") (js "{'enum':[[1,2],'a']}")
  = Normal (SchemaResult.mk
              (enum_includes
                 [JArray [JNumber (number_of_nat 1); JNumber (number_of_nat 2)];
                  JString (str "a")]
                 (JArray [JNumber (number_of_nat 1); JNumber (number_of_nat 2)]))
              (if enum_includes
                    [JArray [JNumber (number_of_nat 1); JNumber (number_of_nat 2)];
                     JString (str "a")]
                    (JArray [JNumber (number_of_nat 1); JNumber (number_of_nat 2)])
               then []
               else [str ": Value must be one of "
                     ++ stringify 0
                          (JArray [JArray [JNumber (number_of_nat 1);
                                           JNumber (number_of_nat 2)];
                                   JString (str "a")])]))
  /\ (is_object (VJson (JArray [JNumber (number_of_nat 1); JNumber (number_of_nat 2)]))
      = true ->
      enum_includes
        [JArray [JNumber (number_of_nat 1); JNumber (number_of_nat 2)]; JString (str "a")]
        (JArray [JNumber (number_of_nat 1); JNumber (number_of_nat 2)]) = false).
Proof.
  apply (validateSchema_enum (fun _ => None) (js "[1,2]") (js "{'enum':[[1,2],'a']}")
           (JArray [JNumber (number_of_nat 1); JNumber (number_of_nat 2)])
           [JArray [JNumber (number_of_nat 1); JNumber (number_of_nat 2)]; JString (str "a")]
           [(str "enum",
             JArray [JArray [JNumber (number_of_nat 1); JNumber (number_of_nat 2)];
                     JString (str "a")])]).
  - vm_compute. reflexivity.
  - vm_compute. reflexivity.
  - vm_compute. reflexivity.
  - reflexivity.
Defined.

Lemma validateAgainstSchema_required_not_array (StringToNumber : jsstring -> option number)
    (data schema : list (jsstring * json)) (required : json) (path : jsstring)
    (errors : list jsstring) :
  only_keywords [str "required"] schema = true ->
  lookup (str "required") schema = Some required ->
  truthy (VJson required) = true ->
  is_array (VJson required) = false ->
  validateAgainstSchema StringToNumber (JObject data) (JObject schema) path errors
  = Throw TypeError.
Proof.
  intros H Hr Ht Ha. unfold validateAgainstSchema. cbn [validateAgainstSchema_depth].
  absent_keywords H.
  cbn [read get_own]. use_absent. rewrite Hr.
  destruct required as [|[]|[]|[]| |]; try discriminate Ha; try discriminate Ht;
    reflexivity.
Qed.

(** X20. For an Object document and a schema whose only
    keyword is a [required] that is truthy and not an Array, the result is
    the generic error of the boundary, though both texts parse. *)
Theorem validateSchema_required_not_array (StringToNumber : jsstring -> option number)
    (jsonString schemaString : jsstring) (data schema : list (jsstring * json))
    (required : json) :
  JSON_parse jsonString = Some (JObject data) ->
  JSON_parse schemaString = Some (JObject schema) ->
  only_keywords [str "required"] schema = true ->
  lookup (str "required") schema = Some required ->
  truthy (VJson required) = true ->
  is_array (VJson required) = false ->
  validateSchema StringToNumber jsonString schemaString
  = Normal (SchemaResult.mk false [str "Invalid JSON or Schema format"]).
Proof.
  intros Hd Hs Hk Hr Ht Ha. unfold validateSchema, JSON_parse_c. rewrite Hd, Hs.
  cbn [bind].
  now rewrite (validateAgainstSchema_required_not_array StringToNumber data schema required
                 [] [] Hk Hr Ht Ha).
Qed.

Lemma validateSchema_required_not_array_witness :
  validateSchema (fun _ => None) (js "{'id':1}") (js "{'required':true}")
  = Normal (SchemaResult.mk false [str "Invalid JSON or Schema format"]).
Proof.
  apply (validateSchema_required_not_array (fun _ => None) (js "{'id':1}")
           (js "{'required':true}")
           [(str "id", JNumber (number_of_nat 1))]
           [(str "required", JBool true)] (JBool true)).
  - vm_compute. reflexivity.
  - vm_compute. reflexivity.
  - vm_compute. reflexivity.
  - reflexivity.
  - reflexivity.
  - reflexivity.
Defined.

(* ================================================================= *)
(** ** [toXML] *)

Lemma replace_char_app (c : codeunit) (by_ a b : jsstring) :
  replace_char c by_ (a ++ b) = replace_char c by_ a ++ replace_char c by_ b.
Proof. apply flat_map_app. Qed.

Lemma escaped_one (c : codeunit) : escaped [c] = escape_char c.
Proof.
  unfold escape_char, dquote, cu_eqb.
  destruct (N.eqb_spec c (cu "&")) as [->|H1]; [reflexivity|].
  destruct (N.eqb_spec c (cu "<")) as [->|H2]; [reflexivity|].
  destruct (N.eqb_spec c (cu ">")) as [->|H3]; [reflexivity|].
  destruct (N.eqb_spec c 34) as [->|H4]; [reflexivity|].
  destruct (N.eqb_spec c 39) as [->|H5]; [reflexivity|].
  unfold escaped, replace_char, dquote, cu_eqb. cbn [flat_map app].
  apply N.eqb_neq in H1, H2, H3, H4, H5.
  rewrite H1. cbn [flat_map app]. rewrite H2. cbn [flat_map app].
  rewrite H3. cbn [flat_map app]. rewrite H4. cbn [flat_map app].
  rewrite H5. reflexivity.
Qed.

Lemma escaped_app (a b : jsstring) : escaped (a ++ b) = escaped a ++ escaped b.
Proof. unfold escaped. now rewrite !replace_char_app. Qed.

Lemma escaped_flat_map (s : jsstring) : escaped s = flat_map escape_char s.
Proof.
  induction s as [|c s IH]; [reflexivity|].
  change (c :: s) with ([c] ++ s). rewrite escaped_app, escaped_one, IH. reflexivity.
Qed.

Lemma escape_char_not_markup (c : codeunit) : forallb not_markup (escape_char c) = true.
Proof.
  unfold escape_char, dquote, cu_eqb.
  destruct (N.eqb_spec c (cu "&")) as [->|H1]; [reflexivity|].
  destruct (N.eqb_spec c (cu "<")) as [->|H2]; [reflexivity|].
  destruct (N.eqb_spec c (cu ">")) as [->|H3]; [reflexivity|].
  destruct (N.eqb_spec c 34) as [->|H4]; [reflexivity|].
  destruct (N.eqb_spec c 39) as [->|H5]; [reflexivity|].
  cbn [forallb]. unfold not_markup, dquote, cu_eqb.
  apply N.eqb_neq in H2, H3, H4, H5. now rewrite H2, H3, H4, H5.
Qed.

(** X21. [convertToXML] writes a string as one element whose text
    has, for every [&], [<], [>], double quote and apostrophe of the string,
    its entity, each character escaped once; the text holds none of the last
    four. *)
Theorem convertToXML_escapes_text (s nodeName indent : jsstring) :
  convertToXML (JString s) nodeName indent
  = Normal (element indent nodeName (flat_map escape_char s))
  /\ forallb not_markup (flat_map escape_char s) = true.
Proof.
  split; [cbn [convertToXML]; now rewrite escaped_flat_map|].
  induction s as [|c s IH]; [reflexivity|].
  cbn [flat_map]. now rewrite forallb_app, escape_char_not_markup, IH.
Qed.

Lemma is_normal_bind {A B : Type} (c : completion A) (k : A -> completion B) :
  is_normal (bind c k)
  = match c with Normal a => is_normal (k a) | Throw _ => false end.
Proof. destruct c; reflexivity. Qed.

Lemma map_c_normal {A B : Type} (f : A -> completion B) (g : A -> bool) (xs : list A) :
  Forall (fun x => is_normal (f x) = g x) xs ->
  is_normal (map_c f xs) = forallb g xs.
Proof.
  induction 1 as [|x xs Hx _ IH]; [reflexivity|].
  cbn [map_c forallb]. rewrite <- Hx. destruct (f x) as [y|]; [|reflexivity].
  cbn [bind is_normal andb]. rewrite <- IH. destruct (map_c f xs); reflexivity.
Qed.

Lemma forEach_calls_normal {M S : Type} (F : M -> S -> completion S) (g : M -> bool)
    (ps : list M) (s : S) :
  Forall (fun m => forall s, is_normal (F m s) = g m) ps ->
  is_normal (forEach_c (map F ps) (fun call s => call s) s) = forallb g ps.
Proof.
  intro H. revert s. induction H as [|m ps Hm _ IH]; intro s; [reflexivity|].
  cbn [map forEach_c forallb]. rewrite <- (Hm s).
  destruct (F m s) as [s'|]; [|reflexivity].
  cbn [bind is_normal andb]. apply IH.
Qed.

Lemma convertToXML_normal (obj : json) :
  forall nodeName indent, is_normal (convertToXML obj nodeName indent) = convertible obj.
Proof.
  induction obj using json_induction; intros nodeName indent; try reflexivity.
  - cbn [convertToXML convertible]. rewrite is_normal_bind.
    rewrite <- (map_c_normal (fun item => convertToXML item nodeName indent) convertible xs).
    + destruct (map_c _ xs); reflexivity.
    + eapply Forall_impl; [|exact H]. intros x Hx. apply Hx.
  - cbn [convertToXML convertible]. rewrite is_normal_bind.
    match goal with
    | |- context [forEach_c (map ?F ps) ?app ?s] =>
        rewrite <- (forEach_calls_normal F
                      (fun m => if starts_with_at (fst m)
                                then is_normal (ToString (snd m))
                                else convertible (snd m)) ps s);
          [destruct (forEach_c (map F ps) app s) as [parts|]|]
    end.
    + cbn [is_normal].
      destruct (Nat.eqb (List.length (children parts)) 0); reflexivity.
    + reflexivity.
    + eapply Forall_impl; [|exact H]. intros m Hm parts. cbn beta.
      destruct (starts_with_at (fst m)).
      * destruct (ToString (snd m)); reflexivity.
      * rewrite is_normal_bind, <- (Hm (fst m) (indent ++ str "  ")).
        destruct (convertToXML (snd m) (fst m) (indent ++ str "  ")); reflexivity.
Qed.

(** X22. [toXML] throws [Error('Invalid JSON format')] exactly when
    the text does not parse or a value under a key that starts with [@]
    cannot be turned into a string; otherwise it returns a document. *)
Theorem toXML_throws (jsonString : jsstring) :
  (toXML jsonString = Throw (Error (str "Invalid JSON format"))
   <-> match JSON_parse jsonString with
       | Some parsed => convertible parsed = false
       | None => True
       end)
  /\ ((exists xml, toXML jsonString = Normal xml)
      <-> exists parsed, JSON_parse jsonString = Some parsed /\ convertible parsed = true).
Proof.
  unfold toXML, JSON_parse_c.
  destruct (JSON_parse jsonString) as [parsed|]; cbn [bind try_catch].
  - pose proof (convertToXML_normal parsed (str "root") []) as Hn.
    destruct (convertToXML parsed (str "root") []) as [xml|e]; cbn [is_normal] in Hn;
      rewrite <- Hn; cbn [try_catch].
    + split; split.
      * discriminate.
      * discriminate.
      * intros _. exists parsed. split; [reflexivity | now symmetry].
      * intros _. exists xml. reflexivity.
    + split; split.
      * reflexivity.
      * reflexivity.
      * intros [xml' H]. discriminate H.
      * intros (p & Hp & H). injection Hp as <-. congruence.
  - split; split.
    + reflexivity.
    + reflexivity.
    + intros [xml H]. discriminate H.
    + intros (p & H & _). discriminate H.
Qed.

(* ================================================================= *)
(** ** [format] with [sortKeys], once more *)

Lemma assign_values (P : json -> Prop) (k : jsstring) (v : json)
    (ps : list (jsstring * json)) :
  P v -> Forall (fun m => P (snd m)) ps -> Forall (fun m => P (snd m)) (assign k v ps).
Proof.
  intros Hv Hps. unfold assign. destruct (jsstring_eqb k (str "__proto__")); [exact Hps|].
  now apply define_property_values.
Qed.

Lemma assign_all_values (P : json -> Prop) (values : list (jsstring * json))
    (keys : list jsstring) (acc : list (jsstring * json)) :
  Forall (fun m => P (snd m)) values ->
  Forall (fun m => P (snd m)) acc ->
  Forall (fun m => P (snd m)) (assign_all values keys acc).
Proof.
  intro Hvalues. revert acc. induction keys as [|k keys IH]; intros acc Hacc; [exact Hacc|].
  rewrite assign_all_cons. apply IH.
  destruct (lookup k values) as [v|] eqn:E; [|exact Hacc].
  apply assign_values; [|exact Hacc].
  apply lookup_In in E. rewrite Forall_forall in Hvalues. exact (Hvalues _ E).
Qed.

Lemma sorted_value_members (P : json -> Prop) (ps : list (jsstring * json)) :
  Forall (fun m => P (sorted_value (snd m))) ps ->
  forall qs, sorted_value (JObject ps) = JObject qs -> Forall (fun m => P (snd m)) qs.
Proof.
  intros H qs E. cbn [sorted_value] in E. injection E as <-.
  apply assign_all_values; [|constructor].
  rewrite Forall_map. exact H.
Qed.

Lemma sorted_value_canonical (v : json) : canonical v -> canonical (sorted_value v).
Proof.
  induction v as [|b|n|s|xs IH|ps IH] using json_induction; intro Hc; try exact I.
  - cbn [sorted_value canonical] in *. apply fold_right_and_Forall in Hc.
    apply fold_right_and_Forall. rewrite Forall_map.
    induction IH as [|x xs Hx _ IHxs]; [constructor|].
    inversion Hc; subst. constructor; auto.
  - destruct Hc as [_ Hvals]. apply fold_right_and_Forall in Hvals.
    split.
    + cbn [sorted_value]. apply assign_all_ordered. exact I.
    + apply fold_right_and_Forall.
      apply (sorted_value_members canonical ps); [|reflexivity].
      induction IH as [|m ps Hm _ IHps]; [constructor|].
      inversion Hvals; subst. constructor; auto.
Qed.

Lemma sorted_value_numbers_stable (v : json) :
  numbers_stable v = true -> numbers_stable (sorted_value v) = true.
Proof.
  induction v as [|b|n|s|xs IH|ps IH] using json_induction; intro Hs; try exact Hs.
  - cbn [sorted_value numbers_stable] in *. rewrite forallb_forall in *.
    intros y Hy. apply in_map_iff in Hy as (x & <- & Hx).
    rewrite Forall_forall in IH. apply (IH x Hx), Hs, Hx.
  - cbn [numbers_stable] in Hs. rewrite forallb_forall in Hs.
    destruct (sorted_value (JObject ps)) as [| | | | |qs] eqn:E; try discriminate E.
    cbn [numbers_stable]. apply forallb_forall. apply Forall_forall.
    apply (sorted_value_members (fun x => numbers_stable x = true) ps); [|exact E].
    rewrite Forall_forall in *. intros m Hm. apply (IH m Hm), Hs, Hm.
Qed.

Lemma sorted_value_arrays_plain (v : json) :
  arrays_plain v = true -> arrays_plain (sorted_value v) = true.
Proof.
  induction v as [|b|n|s|xs IH|ps IH] using json_induction; intro Hs; try exact Hs.
  - cbn [sorted_value arrays_plain] in *. now rewrite map_sorted_value_plain.
  - cbn [arrays_plain] in Hs. rewrite forallb_forall in Hs.
    destruct (sorted_value (JObject ps)) as [| | | | |qs] eqn:E; try discriminate E.
    cbn [arrays_plain]. apply forallb_forall. apply Forall_forall.
    apply (sorted_value_members (fun x => arrays_plain x = true) ps); [|exact E].
    rewrite Forall_forall in *. intros m Hm. apply (IH m Hm), Hs, Hm.
Qed.

Lemma sorted_before_irrefl (a : jsstring) : ~ sorted_before a a.
Proof.
  unfold sorted_before. destruct (array_index a); [lia|].
  unfold jsstring_lt. now rewrite jsstring_ltb_irrefl.
Qed.

Lemma sorted_before_asym (a b : jsstring) : sorted_before a b -> sorted_before b a -> False.
Proof.
  unfold sorted_before. destruct (array_index a), (array_index b); try tauto; try lia.
  intros H1 H2. pose proof (jsstring_ltb_trans a b a H1 H2) as H.
  unfold jsstring_lt in H. now rewrite jsstring_ltb_irrefl in H.
Qed.

Lemma sorted_keys_strongly (ks : list jsstring) :
  sorted_keys ks -> StronglySorted sorted_before ks.
Proof.
  unfold sorted_keys. induction ks as [|k ks IH]; intros [Hord Hsort]; [constructor|].
  destruct Hord as [Hk Hord]. cbn [filter] in Hsort.
  assert (Hrest : StronglySorted jsstring_lt (filter (fun a => negb (is_index a)) ks)).
  { destruct (negb (is_index k)); [now inversion Hsort | exact Hsort]. }
  constructor; [apply IH; now split|].
  rewrite Forall_forall in *. intros b Hb. specialize (Hk b Hb).
  unfold key_before in Hk. unfold sorted_before.
  destruct (array_index k) eqn:Ek, (array_index b) eqn:Eb; try exact Hk.
  assert (Hik : is_index k = false) by (unfold is_index; now rewrite Ek).
  rewrite Hik in Hsort. cbn [negb] in Hsort. inversion Hsort as [|? ? _ Hall]; subst.
  rewrite Forall_forall in Hall. apply Hall. apply filter_In. split; [exact Hb|].
  unfold is_index. now rewrite Eb.
Qed.

Lemma strongly_sorted_unique (l1 l2 : list jsstring) :
  StronglySorted sorted_before l1 -> StronglySorted sorted_before l2 ->
  (forall k, In k l1 <-> In k l2) -> l1 = l2.
Proof.
  intro H1. revert l2. induction H1 as [|a l1 H1 IH Ha]; intros l2 H2 Hin.
  - destruct l2 as [|b l2]; [reflexivity|]. exfalso. apply (Hin b). now left.
  - destruct H2 as [|b l2 H2 Hb].
    { exfalso. apply (Hin a). now left. }
    rewrite Forall_forall in Ha, Hb.
    assert (a = b) as <-.
    { destruct (proj1 (Hin a) (or_introl eq_refl)) as [E|Hab]; [now symmetry|].
      destruct (proj2 (Hin b) (or_introl eq_refl)) as [E|Hba]; [exact E|].
      exfalso. exact (sorted_before_asym a b (Ha b Hba) (Hb a Hab)). }
    f_equal. apply IH; [exact H2|].
    intro k. split; intro Hk.
    + destruct (proj1 (Hin k) (or_intror Hk)) as [E|H]; [|exact H].
      subst k. exfalso. exact (sorted_before_irrefl a (Ha a Hk)).
    + destruct (proj2 (Hin k) (or_intror Hk)) as [E|H]; [|exact H].
      subst k. exfalso. exact (sorted_before_irrefl a (Hb a Hk)).
Qed.

Lemma lookup_not_in {V : Type} (k : jsstring) (ps : list (jsstring * V)) :
  ~ In k (map fst ps) -> lookup k ps = None.
Proof.
  intro H. apply has_key_false in H. unfold has_key in H.
  destruct (lookup k ps); [discriminate | reflexivity].
Qed.

Lemma same_keys_same_members (ps qs : list (jsstring * json)) :
  map fst ps = map fst qs -> NoDup (map fst ps) ->
  (forall k, lookup k ps = lookup k qs) -> ps = qs.
Proof.
  revert qs. induction ps as [|[k v] ps IH]; intros [|[k' v'] qs] Hk Hnd Hl;
    try discriminate; [reflexivity|].
  cbn [map fst] in Hk. injection Hk as <- Hk. inversion Hnd as [|? ? Hnotin Hnd']; subst.
  pose proof (Hl k) as Hlk. cbn [lookup] in Hlk. rewrite jsstring_eqb_refl in Hlk.
  injection Hlk as <-. f_equal. apply IH; [exact Hk | exact Hnd'|].
  intro k'. destruct (jsstring_eqb k' k) eqn:E.
  - apply jsstring_eqb_eq in E. subst k'.
    rewrite (lookup_not_in k ps Hnotin). symmetry. apply lookup_not_in. now rewrite <- Hk.
  - specialize (Hl k'). cbn [lookup] in Hl. now rewrite E in Hl.
Qed.

Lemma sorted_keys_unique (ps qs : list (jsstring * json)) :
  sorted_keys (map fst ps) -> sorted_keys (map fst qs) ->
  (forall k, lookup k ps = lookup k qs) -> ps = qs.
Proof.
  intros Hp Hq Hl. apply same_keys_same_members; [| |exact Hl].
  - apply strongly_sorted_unique; try now apply sorted_keys_strongly.
    intro k.
    assert (E : has_key k ps = has_key k qs) by (unfold has_key; now rewrite Hl).
    destruct (has_key k ps) eqn:E1; symmetry in E.
    + split; intros _.
      * destruct (in_dec (list_eq_dec N.eq_dec) k (map fst qs)) as [H|H]; [exact H|].
        apply has_key_false in H. congruence.
      * destruct (in_dec (list_eq_dec N.eq_dec) k (map fst ps)) as [H|H]; [exact H|].
        apply has_key_false in H. congruence.
    + apply has_key_false in E1, E. tauto.
  - apply ordered_NoDup. exact (proj1 Hp).
Qed.

Lemma sorted_value_object_keys (ps qs : list (jsstring * json)) :
  canonical (JObject ps) -> sorted_value (JObject ps) = JObject qs ->
  sorted_keys (map fst qs) /\ lookup proto_key qs = None.
Proof.
  intros Hc E. pose proof (sorted_value_copy (JObject ps) Hc) as H.
  rewrite E in H. inversion H; subst. now split.
Qed.

Lemma assign_all_rebuild (qs : list (jsstring * json)) :
  sorted_keys (map fst qs) -> lookup proto_key qs = None ->
  assign_all qs (sort_strings (map fst qs)) [] = qs.
Proof.
  intros Hs Hproto.
  assert (Hnd : NoDup (map fst qs)) by (apply ordered_NoDup, (proj1 Hs)).
  apply sorted_keys_unique; [split | exact Hs |].
  - apply assign_all_ordered. exact I.
  - rewrite assign_all_other_keys.
    + cbn [map filter app]. now apply sorted_filter, sort_strings_sorted.
    + now apply sorted_NoDup, sort_strings_sorted.
    + reflexivity.
    + intros k Hk. now apply (proj1 (sort_strings_In _ _)) in Hk.
  - intro k. destruct (lookup k qs) as [v|] eqn:E.
    + apply lookup_assign_all_in; [| |exact E].
      * apply (proj2 (sort_strings_In _ _)). apply lookup_In in E.
        apply in_map_iff. exists (k, v). split; [reflexivity | exact E].
      * intros ->. congruence.
    + rewrite lookup_assign_all_out; [reflexivity|].
      left. intro Hin. apply (proj1 (sort_strings_In _ _)) in Hin.
      revert Hin. apply (has_key_false k qs). unfold has_key. now rewrite E.
Qed.

Lemma map_members_id (g : json -> json) (qs : list (jsstring * json)) :
  Forall (fun m => g (snd m) = snd m) qs ->
  map (fun m => (fst m, g (snd m))) qs = qs.
Proof.
  induction 1 as [|[k x] qs Hx _ IH]; [reflexivity|].
  cbn [map fst snd] in *. now rewrite Hx, IH.
Qed.

Lemma sorted_value_idempotent (v : json) :
  canonical v -> sorted_value (sorted_value v) = sorted_value v.
Proof.
  induction v as [|b|n|s|xs IH|ps IH] using json_induction; intro Hc; try reflexivity.
  - cbn [sorted_value canonical] in *. apply fold_right_and_Forall in Hc.
    f_equal. rewrite map_map. apply map_ext_in. intros x Hx.
    rewrite Forall_forall in IH, Hc. apply (IH x Hx), Hc, Hx.
  - destruct (sorted_value (JObject ps)) as [| | | | |qs] eqn:E; try discriminate E.
    destruct (sorted_value_object_keys ps qs Hc E) as [Hkeys Hproto].
    cbn [sorted_value]. rewrite map_members_id.
    + now rewrite assign_all_rebuild.
    + apply (sorted_value_members (fun x => sorted_value x = x) ps); [|exact E].
      destruct Hc as [_ Hvals]. apply fold_right_and_Forall in Hvals.
      rewrite Forall_forall in *. intros m Hm. apply (IH m Hm), Hvals, Hm.
Qed.

Lemma format_sortKeys_parsed (T : jsstring) (v : json) (indent : Z)
    (removeWhitespace : bool) :
  JSON_parse T = Some v -> arrays_plain v = true ->
  format T (JSONProcessingOptions.mk indent true removeWhitespace)
  = stringify indent (sorted_value v).
Proof.
  intros Hp Hplain. unfold format, JSON_parse_c. rewrite Hp.
  cbn [bind JSONProcessingOptions.sortKeys].
  now rewrite (sortKeys_sorted_value v Hplain).
Qed.

(** X23. [format] with [sortKeys] is idempotent, for a text whose
    numbers survive being written and read again and in which no Array has
    an element that is an Array or a non-empty Object. *)
Theorem format_sortKeys_idempotent (T : jsstring) (v : json) (indent : Z)
    (removeWhitespace : bool) :
  JSON_parse T = Some v ->
  arrays_plain v = true ->
  numbers_stable v = true ->
  format (format T (JSONProcessingOptions.mk indent true removeWhitespace))
    (JSONProcessingOptions.mk indent true removeWhitespace)
  = format T (JSONProcessingOptions.mk indent true removeWhitespace).
Proof.
  intros Hp Hplain Hstable.
  pose proof (JSON_parse_canonical T v Hp) as Hc.
  rewrite (format_sortKeys_parsed T v indent removeWhitespace Hp Hplain).
  rewrite (format_sortKeys_parsed (stringify indent (sorted_value v)) (sorted_value v)).
  - now rewrite sorted_value_idempotent.
  - apply JSON_parse_stringify;
      [now apply sorted_value_canonical | now apply sorted_value_numbers_stable].
  - now apply sorted_value_arrays_plain.
Qed.

Lemma format_sortKeys_idempotent_witness :
  format (format (js "{'b':[1,{}],'10':'x','9':{'z':null,'a':2.5}}")
            (JSONProcessingOptions.mk 2 true false))
    (JSONProcessingOptions.mk 2 true false)
  = format (js "{'b':[1,{}],'10':'x','9':{'z':null,'a':2.5}}")
      (JSONProcessingOptions.mk 2 true false).
Proof.
  apply (format_sortKeys_idempotent (js "{'b':[1,{}],'10':'x','9':{'z':null,'a':2.5}}")
           (JObject [(str "9", JObject [(str "z", JNull);
                                        (str "a", JNumber (number_of_decimal false 25 (-1)))]);
                     (str "10", JString (str "x"));
                     (str "b", JArray [JNumber (number_of_decimal false 1 0); JObject []])])
           2 false).
  - vm_compute. reflexivity.
  - reflexivity.
  - vm_compute. reflexivity.
Defined.

Lemma lookup_member {V : Type} (ps : list (jsstring * V)) (m : jsstring * V) :
  NoDup (map fst ps) -> In m ps -> lookup (fst m) ps = Some (snd m).
Proof.
  induction ps as [|[k v] ps IH]; intros Hnd Hin; [contradiction|].
  inversion Hnd as [|? ? Hnotin Hnd']; subst. cbn [lookup].
  destruct Hin as [<- | Hin].
  - cbn [fst snd]. now rewrite jsstring_eqb_refl.
  - destruct (jsstring_eqb (fst m) k) eqn:E; [|now apply IH].
    apply jsstring_eqb_eq in E. subst k. exfalso. apply Hnotin.
    apply in_map_iff. exists m. now split.
Qed.

Lemma same_members_all2 (xs : list json) :
  Forall (fun x => same_members x (sorted_value x) = true) xs ->
  same_members (JArray xs) (JArray (map sorted_value xs)) = true.
Proof.
  cbn [same_members]. induction 1 as [|x xs Hx _ IH]; [reflexivity|].
  cbn [map]. now rewrite Hx, IH.
Qed.

Lemma same_members_sorted_value (v : json) :
  canonical v -> no_proto v = true -> same_members v (sorted_value v) = true.
Proof.
  induction v as [|b|n|s|xs IH|ps IH] using json_induction; intros Hc Hn;
    try apply jsstring_eqb_refl.
  - cbn [sorted_value]. apply same_members_all2.
    cbn [canonical no_proto] in *. apply fold_right_and_Forall in Hc.
    rewrite forallb_forall in Hn. rewrite Forall_forall in *.
    intros x Hx. apply (IH x Hx); [apply Hc | apply Hn]; exact Hx.
  - pose proof (sorted_value_copy (JObject ps) Hc) as Hcopy.
    destruct (sorted_value (JObject ps)) as [| | | | |qs] eqn:E; try discriminate E.
    inversion Hcopy as [| | | | |? ? _ _ _ Hnone]; subst.
    cbn [sorted_value] in E. injection E as E.
    destruct Hc as [Hord Hvals]. apply fold_right_and_Forall in Hvals.
    cbn [no_proto] in Hn. rewrite forallb_forall in Hn.
    cbn [same_members]. apply andb_true_iff. split; apply forallb_forall.
    + intros q Hq. unfold has_key.
      destruct (lookup (fst q) ps) eqn:El; [reflexivity|].
      apply Hnone in El. exfalso.
      assert (Hin : In (fst q) (map fst qs)) by (apply in_map_iff; now exists q).
      apply lookup_In_key in Hin as [y Hy]. congruence.
    + intros m Hm. specialize (Hn m Hm). apply andb_true_iff in Hn as [Hk Hnm].
      apply negb_true_iff, jsstring_eqb_neq in Hk.
      assert (Hl : lookup (fst m) qs = Some (sorted_value (snd m))).
      { rewrite <- E. apply lookup_assign_all_in; [|exact Hk|].
        - apply (proj2 (sort_strings_In _ _)). apply in_map_iff. now exists m.
        - rewrite lookup_map_values, (lookup_member ps m); [reflexivity | | exact Hm].
          now apply ordered_NoDup. }
      rewrite Hl. rewrite Forall_forall in IH, Hvals.
      apply (IH m Hm); [apply Hvals, Hm | exact Hnm].
Qed.

(** X24. [compareJSON] sees no difference between a text and the text
    [format] makes of it with [sortKeys]: the diff lists the members of the
    document, each once and in the order of [sort], as unchanged entries, and
    holds nothing else; for a text without a key [__proto__], whose numbers
    survive being written and read again and in which no Array has an
    element that is an Array or a non-empty Object. *)
Theorem compareJSON_after_sortKeys (T : jsstring) (v : json) (indent : Z)
    (removeWhitespace : bool) :
  JSON_parse T = Some v ->
  arrays_plain v = true ->
  numbers_stable v = true ->
  no_proto v = true ->
  exists result,
    compareJSON T (format T (JSONProcessingOptions.mk indent true removeWhitespace))
    = Normal result
    /\ unchanged_listing 0 (VJson v) (keys_of (VJson v)) (DiffResult.diff result).
Proof.
  intros Hp Hplain Hstable Hproto.
  pose proof (JSON_parse_canonical T v Hp) as Hc.
  rewrite (format_sortKeys_parsed T v indent removeWhitespace Hp Hplain).
  rewrite (compareJSON_parsed T (stringify indent (sorted_value v)) v (sorted_value v) Hp).
  - eexists. split; [reflexivity|]. cbn [DiffResult.diff].
    apply generateDiff_same_members. now apply same_members_sorted_value.
  - apply JSON_parse_stringify;
      [now apply sorted_value_canonical | now apply sorted_value_numbers_stable].
Qed.

Lemma compareJSON_after_sortKeys_witness :
  exists result,
    compareJSON (js "{'b':[1,{}],'10':'x','9':{'z':null,'a':2.5}}")
      (format (js "{'b':[1,{}],'10':'x','9':{'z':null,'a':2.5}}")
         (JSONProcessingOptions.mk 2 true false))
    = Normal result
    /\ unchanged_listing 0
         (VJson (JObject [(str "9", JObject [(str "z", JNull);
                                             (str "a", JNumber (number_of_decimal false 25 (-1)))]);
                          (str "10", JString (str "x"));
                          (str "b", JArray [JNumber (number_of_decimal false 1 0); JObject []])]))
         (keys_of
            (VJson (JObject [(str "9", JObject [(str "z", JNull);
                                                (str "a", JNumber (number_of_decimal false 25 (-1)))]);
                             (str "10", JString (str "x"));
                             (str "b", JArray [JNumber (number_of_decimal false 1 0); JObject []])])))
         (DiffResult.diff result).
Proof.
  apply (compareJSON_after_sortKeys (js "{'b':[1,{}],'10':'x','9':{'z':null,'a':2.5}}")
           (JObject [(str "9", JObject [(str "z", JNull);
                                        (str "a", JNumber (number_of_decimal false 25 (-1)))]);
                     (str "10", JString (str "x"));
                     (str "b", JArray [JNumber (number_of_decimal false 1 0); JObject []])])
           2 false).
  - vm_compute. reflexivity.
  - reflexivity.
  - vm_compute. reflexivity.
  - reflexivity.
Defined.

(* ================================================================= *)
(** ** Bounds and edges *)

Lemma gap_of_clamped (indent : Z) : gap_of indent = gap_of (Z.max 0 (Z.min 10 indent)).
Proof. unfold gap_of. f_equal. lia. Qed.

(** X25. [format] uses at most ten spaces and at least none: an [indent]
    above 10 acts as 10, one below 0 as 0; with no indent and without
    [sortKeys], [format] gives the text of [minify]. *)
Theorem format_indent_bounds (T : jsstring) (indent : Z) (sortKeys removeWhitespace : bool) :
  format T (JSONProcessingOptions.mk indent sortKeys removeWhitespace)
  = format T (JSONProcessingOptions.mk (Z.max 0 (Z.min 10 indent)) sortKeys removeWhitespace)
  /\ format T (JSONProcessingOptions.mk 0 false removeWhitespace) = minify T.
Proof.
  split; [|reflexivity].
  unfold format, stringify. cbn [JSONProcessingOptions.indent].
  now rewrite (gap_of_clamped indent).
Qed.

Lemma not_control_numchar (c : codeunit) : is_numchar c = true -> not_control c = true.
Proof.
  intro H. apply numchar_cases in H. unfold not_control. apply N.leb_le. lia.
Qed.

Lemma not_control_hex_digit (n : N) : not_control (hex_digit n) = true.
Proof.
  unfold not_control, hex_digit. apply N.leb_le. destruct (n <? 10)%N; lia.
Qed.

Lemma not_control_unicode_escape (c : codeunit) :
  forallb not_control (unicode_escape c) = true.
Proof.
  unfold unicode_escape. cbn [forallb]. now rewrite !not_control_hex_digit.
Qed.

Lemma not_control_quote_body (n : nat) (s : jsstring) :
  (List.length s <= n)%nat -> forallb not_control (quote_body s) = true.
Proof.
  revert s. induction n as [|n IH]; intros [|c r] Hn; try reflexivity;
    cbn [List.length] in Hn; [lia|].
  assert (Hr : forallb not_control (quote_body r) = true) by (apply IH; lia).
  cbn [quote_body].
  repeat match goal with
         | |- context [if cu_eqb c ?k then _ else _] =>
             destruct (cu_eqb c k); [exact Hr|]
         end.
  destruct (c <? 32)%N eqn:Ec.
  { now rewrite forallb_app, not_control_unicode_escape. }
  assert (Hc : not_control c = true).
  { unfold not_control. apply N.leb_le. apply N.ltb_ge in Ec. exact Ec. }
  destruct (is_high_surrogate c).
  - destruct r as [|d r']; [apply not_control_unicode_escape|].
    destruct (is_low_surrogate d) eqn:Ed.
    + cbn [forallb]. rewrite Hc.
      assert (Hd : not_control d = true).
      { unfold is_low_surrogate in Ed. apply andb_true_iff in Ed as [Ed _].
        unfold not_control. apply N.leb_le. apply N.leb_le in Ed. lia. }
      rewrite Hd. apply IH. cbn [List.length] in Hn. lia.
    + now rewrite forallb_app, not_control_unicode_escape.
  - destruct (is_low_surrogate c).
    + now rewrite forallb_app, not_control_unicode_escape.
    + cbn [forallb]. now rewrite Hc.
Qed.

Lemma not_control_quote (s : jsstring) : forallb not_control (quote s) = true.
Proof.
  unfold quote. cbn [forallb]. rewrite forallb_app.
  now rewrite (not_control_quote_body (List.length s) s (le_n _)).
Qed.

Lemma not_control_number_text (n : number) : forallb not_control (number_text n) = true.
Proof.
  unfold number_text. destruct (number_is_finite n) eqn:E; [|reflexivity].
  destruct (Number_toString_shape n E) as [_ H].
  rewrite forallb_forall in *. intros c Hc. apply not_control_numchar, H, Hc.
Qed.

Lemma forallb_join (p : codeunit -> bool) (sep : jsstring) (parts : list jsstring) :
  forallb p sep = true -> Forall (fun part => forallb p part = true) parts ->
  forallb p (join sep parts) = true.
Proof.
  intros Hsep H. induction H as [|part parts Hp _ IH]; [reflexivity|].
  cbn [join]. destruct parts as [|q parts]; [exact Hp|].
  now rewrite !forallb_app, Hp, Hsep, IH.
Qed.

Lemma not_control_compact (v : json) :
  forallb not_control (serialize number_text [] [] v) = true.
Proof.
  induction v as [|[]|n|s|xs IH|ps IH] using json_induction; try reflexivity.
  - apply not_control_number_text.
  - apply not_control_quote.
  - cbn [serialize app is_nil].
    destruct (is_nil (map (serialize number_text [] []) xs)); [reflexivity|].
    cbn [forallb]. rewrite forallb_app, forallb_join; [reflexivity | reflexivity|].
    rewrite Forall_map. exact IH.
  - cbn [serialize app is_nil].
    match goal with |- context [is_nil ?parts] => destruct (is_nil parts) end;
      [reflexivity|].
    cbn [forallb]. rewrite forallb_app, forallb_join; [reflexivity | reflexivity|].
    rewrite Forall_map. eapply Forall_impl; [|exact IH].
    intros m Hm. cbn beta. rewrite forallb_app, not_control_quote. cbn [forallb andb].
    exact Hm.
Qed.

(** X26. The minified text of a text that parses is one line: it holds
    no control character, the line breaks and tabs inside strings being
    escaped. *)
Theorem minify_single_line (jsonString : jsstring) :
  JSON_parse jsonString <> None ->
  forallb not_control (minify jsonString) = true.
Proof.
  intro H. destruct (JSON_parse jsonString) as [v|] eqn:E; [|congruence].
  rewrite (minify_parsed jsonString v E). apply not_control_compact.
Qed.

Lemma minify_single_line_witness :
  forallb not_control
    (minify (10%N :: js "{ 'a' : [ 1 ," ++ 10%N :: 9%N :: js "'x\ny' ] }")) = true.
Proof.
  apply (minify_single_line (10%N :: js "{ 'a' : [ 1 ," ++ 10%N :: 9%N :: js "'x\ny' ] }")).
  vm_compute. discriminate.
Defined.

Lemma split_on_absent (sep : codeunit) (s : jsstring) :
  forallb (fun c => negb (cu_eqb c sep)) s = true -> split_on sep s = [s].
Proof.
  induction s as [|c s IH]; [reflexivity|]. cbn [forallb split_on]. intro H.
  apply andb_true_iff in H as [Hc Hs]. apply negb_true_iff in Hc.
  now rewrite Hc, (IH Hs).
Qed.

Lemma all_digits_forallb (key : jsstring) :
  all_digits key = true -> key <> [] /\ forallb is_digit key = true.
Proof.
  unfold all_digits. intro H. apply andb_true_iff in H as [Hn Hd].
  split; [|exact Hd]. intros ->. discriminate Hn.
Qed.

Lemma cleanQuery_digits (key : jsstring) : all_digits key = true -> cleanQuery key = key.
Proof.
  intro H. destruct (all_digits_forallb key H) as [Hne Hd].
  destruct key as [|c key]; [congruence|]. cbn [forallb] in Hd.
  apply andb_true_iff in Hd as [Hc _]. apply is_digit_range in Hc.
  unfold cleanQuery. cbn [strip_prefix str map list_ascii_of_string].
  assert (E1 : cu_eqb (cu "$") c = false) by (apply N.eqb_neq; cbn; lia).
  assert (E2 : cu_eqb (cu ".") c = false) by (apply N.eqb_neq; cbn; lia).
  now rewrite E1, E2.
Qed.

Lemma arrayMatch_digits (key : jsstring) : all_digits key = true -> arrayMatch key = None.
Proof.
  intro H. destruct (all_digits_forallb key H) as [_ Hd].
  unfold arrayMatch. destruct (rev key) as [|c r] eqn:E; [reflexivity|].
  assert (Hc : is_digit c = true).
  { rewrite forallb_forall in Hd. apply Hd, in_rev. rewrite E. now left. }
  apply is_digit_range in Hc.
  assert (E1 : cu_eqb c (cu "]") = false) by (apply N.eqb_neq; cbn; lia).
  now rewrite E1.
Qed.

Lemma getValueAtPath_digits (doc : json) (key : jsstring) :
  all_digits key = true -> is_array (VJson doc) = false ->
  getValueAtPath doc key = VUndefined.
Proof.
  intros H Ha. destruct (all_digits_forallb key H) as [Hne Hd].
  rewrite (getValueAtPath_walk doc key Hne).
  rewrite split_on_absent by (now apply digits_not_char).
  cbn [walk]. rewrite H. destruct doc; try reflexivity. discriminate Ha.
Qed.

(** X27. A query made of digits alone reads an index of an Array
    only: on a document that is not an Array the result is [undefined], even
    for an Object that has the key. *)
Theorem queryJSON_numeric_key (text key : jsstring) (doc : json) :
  JSON_parse text = Some doc ->
  is_array (VJson doc) = false ->
  all_digits key = true ->
  queryJSON text key = Normal [VUndefined].
Proof.
  intros Hp Ha Hd. rewrite (queryJSON_parsed text key doc Hp).
  unfold evaluateJSONPath. rewrite (cleanQuery_digits key Hd), (arrayMatch_digits key Hd).
  rewrite (getValueAtPath_digits doc key Hd Ha).
  destruct (all_digits_forallb key Hd) as [Hne _].
  destruct key; [congruence | reflexivity].
Qed.

Lemma queryJSON_numeric_key_witness :
  queryJSON (js "{'0':'zero','1':'one'}") (str "1") = Normal [VUndefined].
Proof.
  apply (queryJSON_numeric_key (js "{'0':'zero','1':'one'}") (str "1")
           (JObject [(str "0", JString (str "zero")); (str "1", JString (str "one"))])).
  - vm_compute. reflexivity.
  - reflexivity.
  - reflexivity.
Defined.
